(** * Exscriptd.OrderDB: persistence of the Order / Host / Variable aggregate

    A shallow embedding of [src/Exscriptd/OrderDB.py].  The Python class
    talks to a relational engine through sqlalchemy; the engine is an
    external collaborator and is modelled here at the level of its contract:

    - a table is the list of its rows in insertion order, and a statement
      without ORDER BY scans a table in that order;
    - an integer primary key is assigned as one more than the largest key
      present (1 on an empty table);
    - [ORDER BY ... DESC] is a stable sort;
    - a limit of 0 is "no LIMIT clause": it is the default of [get_orders],
      whose docstring says that the call "returns all orders that match";
    - [sa.and_] and [sa.or_] skip operands that are [None] (the source
      relies on it: [sa.or_(None, ...)], [sa.and_(None, cond)]);
    - [engine.contextual_connect()] is the connection of the calling thread,
      so a [begin()] issued while a transaction is open joins it: only the
      outermost [commit()] commits, and any [rollback()] rolls back to the
      outermost [begin()].

    Python objects that the caller passes in ([Order], [Host]) live in a
    heap and are addressed by reference, because [add_order] and
    [save_order] mutate them in place.

    The definitions come first: the methods of [OrderDB] that read and write
    orders, what the proofs say about them, the table map of the class, and
    [Program.init] of [src/Exscript/interpreter/Program.py].  The proofs
    follow. *)

From stdpp Require Import gmap strings list fin_maps.
From Stdlib Require Import ZArith Lia Ascii.

Local Open Scope Z_scope.
#[local] Set Warnings "-clear-no-such-hyp".

(** ** Schema ([OrderDB.__update_table_names]) *)

Definition timestamp := Z.

(** The [value] column is a [PickleType]: an opaque serialized payload. *)
Definition value := string.

Inductive table := TOrder | THost | TVariable.

Record order_row := OrderRow {
  or_id : Z;
  or_service : string;
  or_status : string;
  or_created : timestamp;
  or_closed : option timestamp;
  or_created_by : string
}.

Record host_row := HostRow {
  hr_id : Z;
  hr_order_id : Z;
  hr_address : string;
  hr_name : string
}.

Record variable_row := VariableRow {
  vr_id : Z;
  vr_host_id : Z;
  vr_name : string;
  vr_value : value
}.

Record Tables := MkTables {
  t_order : list order_row;
  t_host : list host_row;
  t_variable : list variable_row
}.

Definition no_rows : Tables := MkTables [] [] [].

(** A row of a result set over the order table.  An outer-join miss leaves
    the host (or variable) columns null: [r_host = None] (or
    [r_variable = None]). *)
Record row := Row {
  r_order : order_row;
  r_host : option host_row;
  r_variable : option variable_row
}.

(** An executed query: whether the result has the host and variable columns
    ([row.has_key(tbl_h.c.order_id)]), and the rows that [fetchone] hands
    out one after the other. *)
Record result_set := ResultSet {
  has_host_columns : bool;
  fetch : list row
}.

Definition row_order_id (r : row) : Z := or_id (r_order r).
Definition row_host_id (r : row) : option Z := hr_id <$> r_host r.
Definition row_variable_host_id (r : row) : option Z := vr_host_id <$> r_variable r.

(** Python truth value of an integer column: [None] and [0] are false. *)
Definition truthy (x : option Z) : bool :=
  match x with
  | Some z => bool_decide (z ≠ 0)
  | None => false
  end.

(** ** The relational engine *)

Module Engine.

(** [result.last_inserted_ids()[0]] of an insert into a table whose
    primary keys are [ids]. *)
Definition next_id (ids : list Z) : Z := 1 + foldr Z.max 0 ids.

Definition insert_order (service status : string) (closed : option timestamp)
    (created_by : string) (now : timestamp) (db : Tables) : Tables * Z :=
  let id := next_id (or_id <$> t_order db) in
  (MkTables (t_order db ++ [OrderRow id service status now closed created_by])
            (t_host db) (t_variable db), id).

Definition insert_host (order_id : Z) (name address : string) (db : Tables)
    : Tables * Z :=
  let id := next_id (hr_id <$> t_host db) in
  (MkTables (t_order db) (t_host db ++ [HostRow id order_id address name])
            (t_variable db), id).

Definition insert_variable (host_id : Z) (name : string) (v : value)
    (db : Tables) : Tables * Z :=
  let id := next_id (vr_id <$> t_variable db) in
  (MkTables (t_order db) (t_host db)
            (t_variable db ++ [VariableRow id host_id name v]), id).

(** [table.select(where).execute().fetchone()] *)
Definition select_host (order_id : Z) (address : string) (db : Tables)
    : option host_row :=
  head (filter (λ h, hr_order_id h = order_id ∧ hr_address h = address) (t_host db)).

Definition select_variable (host_id : Z) (name : string) (db : Tables)
    : option variable_row :=
  head (filter (λ v, vr_host_id v = host_id ∧ vr_name v = name) (t_variable db)).

(** [table.update(where).execute] with the fields as keywords: every row
    that satisfies the where clause receives the fields. *)
Definition update_order (id : Z) (service status : string)
    (closed : option timestamp) (created_by : string) (db : Tables) : Tables :=
  MkTables
    ((λ r, if decide (or_id r = id)
           then OrderRow (or_id r) service status (or_created r) closed created_by
           else r) <$> t_order db)
    (t_host db) (t_variable db).

Definition update_host (order_id : Z) (address name : string) (db : Tables)
    : Tables :=
  MkTables (t_order db)
    ((λ h, if decide (hr_order_id h = order_id ∧ hr_address h = address)
           then HostRow (hr_id h) order_id address name
           else h) <$> t_host db)
    (t_variable db).

Definition update_variable (host_id : Z) (name : string) (v : value)
    (db : Tables) : Tables :=
  MkTables (t_order db) (t_host db)
    ((λ x, if decide (vr_host_id x = host_id ∧ vr_name x = name)
           then VariableRow (vr_id x) host_id name v
           else x) <$> t_variable db).

(** [tbl_o.update(tbl_o.c.closed == None).execute(closed = now)] *)
Definition update_closed_null (now : timestamp) (db : Tables) : Tables :=
  MkTables
    ((λ r, if decide (or_closed r = None)
           then OrderRow (or_id r) (or_service r) (or_status r) (or_created r)
                         (Some now) (or_created_by r)
           else r) <$> t_order db)
    (t_host db) (t_variable db).

(** [self._table_map['order'].delete().execute()]: every order row is
    deleted.  Both foreign keys are declared [ondelete = 'CASCADE']: the host
    rows that refer to a deleted order go with it, and the variable rows that
    refer to a deleted host with that. *)
Definition delete_orders (db : Tables) : Tables :=
  let orders := or_id <$> t_order db in
  let hosts := filter (λ h, hr_order_id h ∈ orders) (t_host db) in
  MkTables []
    (filter (λ h, hr_order_id h ∉ orders) (t_host db))
    (filter (λ v, vr_host_id v ∉ hr_id <$> hosts) (t_variable db)).

(** Where clauses are predicates on a row; [None] is the absent clause. *)
Definition clause (A : Type) := option (A → bool).

Definition or_ {A} (a b : clause A) : clause A :=
  match a, b with
  | None, x => x
  | x, None => x
  | Some f, Some g => Some (λ r, f r || g r)
  end.

Definition and_ {A} (a b : clause A) : clause A :=
  match a, b with
  | None, x => x
  | x, None => x
  | Some f, Some g => Some (λ r, f r && g r)
  end.

Definition sql_where {A} (whereclause : clause A) (l : list A) : list A :=
  match whereclause with
  | None => l
  | Some p => filter (λ r, p r) l
  end.

(** OFFSET and LIMIT; a limit of 0 is no limit. *)
Definition sql_limit {A} (offset limit : nat) (l : list A) : list A :=
  match limit with
  | O => drop offset l
  | _ => take limit (drop offset l)
  end.

(** [ORDER BY key DESC], stable. *)
Fixpoint insert_desc {A} (key : A → Z) (x : A) (l : list A) : list A :=
  match l with
  | [] => [x]
  | y :: l' =>
      if bool_decide (key y ≤ key x) then x :: l else y :: insert_desc key x l'
  end.

Definition order_by_desc {A} (key : A → Z) (l : list A) : list A :=
  foldr (insert_desc key) [] l.

(** [tbl_o.outerjoin(tbl_h, tbl_o.c.id == tbl_h.c.order_id)
         .outerjoin(tbl_v, tbl_h.c.id == tbl_v.c.host_id)]
    evaluated as a nested loop. *)
Definition hosts_of (db : Tables) (order_id : Z) : list host_row :=
  filter (λ h, hr_order_id h = order_id) (t_host db).

Definition variables_of (db : Tables) (host_id : Z) : list variable_row :=
  filter (λ v, vr_host_id v = host_id) (t_variable db).

Definition join_host (db : Tables) (o : order_row) (h : host_row) : list row :=
  match variables_of db (hr_id h) with
  | [] => [Row o (Some h) None]
  | vs => (λ v, Row o (Some h) (Some v)) <$> vs
  end.

Definition join_order (db : Tables) (o : order_row) : list row :=
  match hosts_of db (or_id o) with
  | [] => [Row o None None]
  | hs => hs ≫= join_host db o
  end.

Definition outerjoin (db : Tables) : list row := t_order db ≫= join_order db.

End Engine.

(** ** The domain objects *)

Module Host.

(** Modelled from the spec: the class [Exscript.Host] is not part of the
    sources at hand.  The spec's collaborator contract gives [get_name],
    [get_address], [get_all] (the mapping of variable name to value),
    [is_dirty], [untouch] (clears the dirty flag) and [set]; the constructor
    and [set_address] are the two further calls that [OrderDB] makes.  A
    mutator leaves the host dirty. *)
Record t := Mk {
  name : string;
  address : string;
  vars : gmap string value;
  dirty : bool
}.

Definition new (name : string) : t := Mk name name ∅ true.
Definition get_name (h : t) : string := name h.
Definition get_address (h : t) : string := address h.
Definition get_all (h : t) : gmap string value := vars h.
Definition is_dirty (h : t) : bool := dirty h.
Definition untouch (h : t) : t := Mk (name h) (address h) (vars h) false.
Definition set_address (h : t) (a : string) : t := Mk (name h) a (vars h) true.
Definition set (h : t) (k : string) (v : value) : t :=
  Mk (name h) (address h) (<[k:=v]> (vars h)) true.

End Host.

Module Order.

(** Modelled from the spec: the class [Exscriptd.Order] is not part of the
    sources at hand.  [H] is the type of the entries of the host collection:
    a reference into the heap (or [None]) for an order that the caller built,
    a host for an order that [get_orders] returns. *)
Record t (H : Type) := Mk {
  id : option Z;
  service : string;
  status : string;
  created : option timestamp;
  closed : option timestamp;
  created_by : string;
  hosts : list H
}.

Arguments Mk {H}.
Arguments id {H}.
Arguments service {H}.
Arguments status {H}.
Arguments created {H}.
Arguments closed {H}.
Arguments created_by {H}.
Arguments hosts {H}.

Definition new {H} (service_name : string) : t H :=
  Mk None service_name "new" None None "" [].
Definition get_id {H} (o : t H) : option Z := id o.
Definition get_service_name {H} (o : t H) : string := service o.
Definition get_status {H} (o : t H) : string := status o.
Definition get_closed_timestamp {H} (o : t H) : option timestamp := closed o.
Definition get_created_by {H} (o : t H) : string := created_by o.
Definition get_hosts {H} (o : t H) : list H := hosts o.
Definition add_host {H} (o : t H) (h : H) : t H :=
  Mk (id o) (service o) (status o) (created o) (closed o) (created_by o)
     (hosts o ++ [h]).
Definition set_id {H} (o : t H) (i : option Z) : t H :=
  Mk i (service o) (status o) (created o) (closed o) (created_by o) (hosts o).

End Order.

(** Modelled from the spec: [Exscript.util.cast.to_list] is not part of the
    sources at hand; an argument is "a scalar or a list of values". *)
Inductive arg (A : Type) := Scalar (a : A) | PyList (l : list A).
Arguments Scalar {A}.
Arguments PyList {A}.

Definition to_list {A} (item : arg A) : list A :=
  match item with
  | Scalar a => [a]
  | PyList l => l
  end.

(** ** The state of a run *)

Inductive event :=
  | EvWrite (t : table) (locked : bool)
  | EvBegin
  | EvCommit
  | EvRollback.

(** [w_data] is what the connection sees; [w_tx_depth] counts the open
    [begin()]s and [w_tx_saved] is the data at the outermost one;
    [w_sync_lock] is the attribute [_sync_lock] of the [OrderDB] instance
    ([None] until [synchronized] creates it) with the number of times the
    calling thread holds it; [w_log] records the statements that write and
    the transaction boundaries that reach the engine; [w_hosts] and
    [w_orders] are the heap of the caller's objects. *)
Record World := MkWorld {
  w_data : Tables;
  w_tx_depth : nat;
  w_tx_saved : Tables;
  w_sync_lock : option nat;
  w_log : list event;
  w_now : timestamp;
  w_hosts : gmap nat Host.t;
  w_orders : gmap nat (Order.t (option nat))
}.

Definition with_data (db : Tables) (w : World) : World :=
  MkWorld db (w_tx_depth w) (w_tx_saved w) (w_sync_lock w) (w_log w) (w_now w)
          (w_hosts w) (w_orders w).
Definition with_tx (depth : nat) (saved : Tables) (w : World) : World :=
  MkWorld (w_data w) depth saved (w_sync_lock w) (w_log w) (w_now w)
          (w_hosts w) (w_orders w).
Definition with_sync_lock (l : option nat) (w : World) : World :=
  MkWorld (w_data w) (w_tx_depth w) (w_tx_saved w) l (w_log w) (w_now w)
          (w_hosts w) (w_orders w).
Definition with_event (e : event) (w : World) : World :=
  MkWorld (w_data w) (w_tx_depth w) (w_tx_saved w) (w_sync_lock w)
          (w_log w ++ [e]) (w_now w) (w_hosts w) (w_orders w).
Definition with_hosts (hs : gmap nat Host.t) (w : World) : World :=
  MkWorld (w_data w) (w_tx_depth w) (w_tx_saved w) (w_sync_lock w) (w_log w)
          (w_now w) hs (w_orders w).
Definition with_orders (os : gmap nat (Order.t (option nat))) (w : World) : World :=
  MkWorld (w_data w) (w_tx_depth w) (w_tx_saved w) (w_sync_lock w) (w_log w)
          (w_now w) (w_hosts w) os.

Definition lock_held (w : World) : bool :=
  match w_sync_lock w with
  | Some (S _) => true
  | _ => false
  end.

(** ** Computations: state, exceptions, and no result at all *)

Inductive exn :=
  | AttributeError (msg : string)
  | Exception (msg : string).

Inductive outcome (A : Type) :=
  | Return (a : A)
  | Raise (e : exn).
Arguments Return {A}.
Arguments Raise {A}.

(** A computation ends in a state with a value or a raised exception, or
    has no result ([None]): a reference that is not in the heap, or a loop
    that was not given enough steps. *)
Definition M (A : Type) := World → option (World * outcome A).

Definition ret {A} (a : A) : M A := λ w, Some (w, Return a).

Definition bind {A B} (m : M A) (k : A → M B) : M B :=
  λ w, match m w with
       | Some (w', Return a) => k a w'
       | Some (w', Raise e) => Some (w', Raise e)
       | None => None
       end.

Definition raise {A} (e : exn) : M A := λ w, Some (w, Raise e).

Definition gets {A} (f : World → A) : M A := λ w, Some (w, Return (f w)).

Definition modify (f : World → World) : M unit := λ w, Some (f w, Return tt).

Declare Scope py_scope.
Delimit Scope py_scope with py.
Notation "x <- m ;; k" := (bind m (λ x, k))
  (at level 100, m at next level, right associativity) : py_scope.
Notation "m ;; k" := (bind m (λ _, k))
  (at level 100, right associativity) : py_scope.
Local Open Scope py_scope.

(** [try: body  except: handler; raise] *)
Definition try_except_reraise {A} (body : M A) (handler : M unit) : M A :=
  λ w, match body w with
       | Some (w', Raise e) =>
           match handler w' with
           | Some (w'', Return _) => Some (w'', Raise e)
           | Some (w'', Raise e') => Some (w'', Raise e')
           | None => None
           end
       | r => r
       end.

(** [for x in l: body(x)] *)
Fixpoint for_each {A B} (l : list A) (body : A → M B) : M unit :=
  match l with
  | [] => ret tt
  | x :: l' => body x ;; for_each l' body
  end.

(** The decorator [synchronized]: fetch or create the lock, then run the
    method under [with rlock], which releases on every exit. *)
Definition acquire (w : World) : World :=
  with_sync_lock (Some (S (default 0%nat (w_sync_lock w)))) w.

Definition release (w : World) : World :=
  with_sync_lock (Nat.pred <$> w_sync_lock w) w.

Definition synchronized {A} (func : M A) : M A :=
  λ w, match func (acquire w) with
       | Some (w', r) => Some (release w', r)
       | None => None
       end.

(** A statement that writes to table [t]. *)
Definition execute {A} (t : table) (stmt : Tables → Tables * A) : M A :=
  λ w, let '(db, a) := stmt (w_data w) in
       Some (with_event (EvWrite t (lock_held w)) (with_data db w), Return a).

(** [engine.contextual_connect().begin()], [commit()] and [rollback()]. *)
Definition begin_world (w : World) : World :=
  match w_tx_depth w with
  | O => with_event EvBegin (with_tx 1 (w_data w) w)
  | S d => with_tx (S (S d)) (w_tx_saved w) w
  end.

Definition commit_world (w : World) : World :=
  match w_tx_depth w with
  | O => w
  | 1%nat => with_event EvCommit (with_tx 0 (w_tx_saved w) w)
  | S d => with_tx d (w_tx_saved w) w
  end.

Definition rollback_world (w : World) : World :=
  match w_tx_depth w with
  | O => w
  | S _ => with_event EvRollback
             (with_tx 0 (w_tx_saved w) (with_data (w_tx_saved w) w))
  end.

Definition tx_begin : M unit := modify begin_world.
Definition tx_commit : M unit := modify commit_world.
Definition tx_rollback : M unit := modify rollback_world.

(** The heap. *)
Definition read_host (href : nat) : M Host.t :=
  λ w, match w_hosts w !! href with
       | Some h => Some (w, Return h)
       | None => None
       end.

Definition read_order (oref : nat) : M (Order.t (option nat)) :=
  λ w, match w_orders w !! oref with
       | Some o => Some (w, Return o)
       | None => None
       end.

Definition host_untouch (href : nat) : M unit :=
  modify (λ w, with_hosts (alter Host.untouch href (w_hosts w)) w).

Definition order_set_id (oref : nat) (i : Z) : M unit :=
  modify (λ w, with_orders (alter (λ o, Order.set_id o (Some i)) oref (w_orders w)) w).

(** ** OrderDB: writing *)

Definition __add_variable (host_id : option Z) (key : option string) (v : value)
    : M Z :=
  synchronized
    match host_id with
    | None => raise (AttributeError "host_id argument must not be None")
    | Some host_id =>
        match key with
        | None => raise (AttributeError "key argument must not be None")
        | Some key => execute TVariable (Engine.insert_variable host_id key v)
        end
    end.

Definition __save_variable (host_id : option Z) (key : option string) (v : value)
    : M unit :=
  synchronized
    match host_id with
    | None => raise (AttributeError "host_id argument must not be None")
    | Some host_id =>
        match key with
        | None => raise (AttributeError "key argument must not be None")
        | Some key =>
            thevar <- gets (λ w, Engine.select_variable host_id key (w_data w)) ;;
            match thevar with
            | None =>
                execute TVariable (Engine.insert_variable host_id key v) ;; ret tt
            | Some _ =>
                execute TVariable (λ db, (Engine.update_variable host_id key v db, tt))
            end
        end
    end.

(** [host.get_all().iteritems()]: the entries of the dictionary, each key
    once. *)
Definition iteritems (d : gmap string value) : list (string * value) :=
  map_to_list d.

Definition __add_host (order_id : option Z) (host : option nat) : M (option Z) :=
  synchronized
    match order_id with
    | None => raise (AttributeError "order_id argument must not be None")
    | Some order_id =>
        match host with
        | None => raise (AttributeError "host argument must not be None")
        | Some href =>
            h <- read_host href ;;
            if negb (Host.is_dirty h) then ret None
            else
              host_id <- execute THost
                (Engine.insert_host order_id (Host.get_name h) (Host.get_address h)) ;;
              for_each (iteritems (Host.get_all h))
                (λ kv, __add_variable (Some host_id) (Some kv.1) kv.2) ;;
              host_untouch href ;;
              ret (Some host_id)
        end
    end.

Definition __save_host (order_id : option Z) (host : option nat) : M (option Z) :=
  synchronized
    match order_id with
    | None => raise (AttributeError "order_id argument must not be None")
    | Some order_id =>
        match host with
        | None => raise (AttributeError "host argument must not be None")
        | Some href =>
            h <- read_host href ;;
            if negb (Host.is_dirty h) then ret None
            else
              thehost <- gets (λ w, Engine.select_host order_id (Host.get_address h)
                                                       (w_data w)) ;;
              host_id <-
                match thehost with
                | None =>
                    execute THost (Engine.insert_host order_id (Host.get_name h)
                                                      (Host.get_address h))
                | Some thehost =>
                    execute THost
                      (λ db, (Engine.update_host order_id (Host.get_address h)
                                                 (Host.get_name h) db,
                              hr_id thehost))
                end ;;
              for_each (iteritems (Host.get_all h))
                (λ kv, __save_variable (Some host_id) (Some kv.1) kv.2) ;;
              host_untouch href ;;
              ret (Some host_id)
        end
    end.

Definition __add_order (order : option nat) (recursive : bool) : M (option Z) :=
  synchronized
    match order with
    | None => raise (AttributeError "order argument must not be None")
    | Some oref =>
        o <- read_order oref ;;
        now <- gets w_now ;;
        id <- execute TOrder
          (Engine.insert_order (Order.get_service_name o) (Order.get_status o)
             (Order.get_closed_timestamp o) (Order.get_created_by o) now) ;;
        order_set_id oref id ;;
        if negb recursive then ret None
        else
          for_each (Order.get_hosts o) (λ host, __add_host (Some id) host) ;;
          ret (Some id)
    end.

Definition add_order (orders : option (arg (option nat))) (recursive : bool)
    : M unit :=
  match orders with
  | None => raise (AttributeError "order argument must not be None")
  | Some orders =>
      tx_begin ;;
      try_except_reraise
        (for_each (to_list orders) (λ order, __add_order order recursive) ;;
         tx_commit)
        tx_rollback
  end.

Definition close_open_orders : M unit :=
  now <- gets w_now ;;
  execute TOrder (λ db, (Engine.update_closed_null now db, tt)).

Definition clear_database : M bool :=
  synchronized
    (execute TOrder (λ db, (Engine.delete_orders db, tt)) ;; ret true).

(** ** OrderDB: reading *)

Definition __get_variable_from_row (v : variable_row) : string * value :=
  (vr_name v, vr_value v).

Definition __get_host_from_row (h : host_row) : Host.t :=
  let host := Host.new (hr_name h) in
  Host.set_address host (hr_address h).

Definition __get_order_from_row (r : order_row) : Order.t Host.t :=
  Order.Mk (Some (or_id r)) (or_service r) (or_status r) (Some (or_created r))
           (or_closed r) (or_created_by r) [].

(** The innermost loop of [__get_orders_from_query]:
    [while row and row[tbl_v.c.host_id]].  The cursor is the list of the rows
    not yet consumed; its head is [row], and [row = result.fetchone()] drops
    the head. *)
Fixpoint variables_loop (last_host_id : Z) (host : Host.t) (rows : list row)
    : Host.t * list row :=
  match rows with
  | [] => (host, [])
  | r :: rest =>
      match r_variable r with
      | Some v =>
          if truthy (Some (vr_host_id v)) then
            let '(key, val) := __get_variable_from_row v in
            let host := Host.set host key val in
            match rest with
            | [] => (host, [])
            | r' :: _ =>
                if bool_decide (Some last_host_id ≠ row_host_id r')
                then (host, rest)
                else variables_loop last_host_id host rest
            end
          else (host, rows)
      | None => (host, rows)
      end
  end.

(** [while row and row[tbl_h.c.id]].  The source attaches the host to the
    order before it sets the variables on it; the two share the object, so
    the order sees the finished host. *)
Fixpoint hosts_loop (fuel : nat) (last_order_id : Z) (order : Order.t Host.t)
    (rows : list row) : option (Order.t Host.t * list row) :=
  match fuel with
  | O => None
  | S fuel =>
      match rows with
      | [] => Some (order, [])
      | r :: rest =>
          match r_host r with
          | Some h =>
              if truthy (Some (hr_id h)) then
                if bool_decide (last_order_id ≠ row_order_id r) then Some (order, rows)
                else
                  let last_host_id := hr_id h in
                  let host := __get_host_from_row h in
                  if negb (truthy (row_variable_host_id r)) then
                    hosts_loop fuel last_order_id (Order.add_host order host) rest
                  else
                    let '(host, rows') := variables_loop last_host_id host rows in
                    hosts_loop fuel last_order_id (Order.add_host order host) rows'
              else Some (order, rows)
          | None => Some (order, rows)
          end
      end
  end.

(** [while row is not None] *)
Fixpoint orders_loop (fuel : nat) (joined : bool)
    (order_list : list (Order.t Host.t)) (rows : list row)
    : option (list (Order.t Host.t)) :=
  match fuel with
  | O => None
  | S fuel =>
      match rows with
      | [] => Some order_list
      | r :: rest =>
          let last_order_id := row_order_id r in
          if negb (truthy (Some last_order_id)) then Some order_list
          else
            let order := __get_order_from_row (r_order r) in
            if negb joined || negb (truthy (row_host_id r)) then
              orders_loop fuel joined (order_list ++ [order]) rest
            else
              match hosts_loop (S (length rows)) last_order_id order rows with
              | Some (order, []) => Some (order_list ++ [order])
              | Some (order, rows') =>
                  orders_loop fuel joined (order_list ++ [order]) rows'
              | None => None
              end
      end
  end.

Definition __get_orders_from_query (query : result_set)
    : option (list (Order.t Host.t)) :=
  match fetch query with
  | [] => Some []
  | rows => orders_loop (S (length rows)) (has_host_columns query) [] rows
  end.

Definition count_orders (db : Tables) : nat := length (t_order db).

(** The keyword criteria of [get_orders]; a field that is [None] is a key
    that [kwargs] does not have. *)
Record criteria := Criteria {
  kw_id : option (arg Z);
  kw_service : option (arg string);
  kw_status : option (arg string)
}.

Definition no_criteria : criteria := Criteria None None None.

(** [cond = None; for value in to_list(...): cond = sa.or_(cond, col == value)] *)
Definition field_cond {A} `{EqDecision A} (col : order_row → A) (values : list A)
    : Engine.clause order_row :=
  foldl (λ cond v, Engine.or_ cond (Some (λ r, bool_decide (col r = v)))) None values.

Definition search_conditions (kwargs : criteria) : Engine.clause order_row :=
  let whereclause := None in
  let whereclause :=
    match kw_id kwargs with
    | Some a => Engine.and_ whereclause (field_cond or_id (to_list a))
    | None => whereclause
    end in
  let whereclause :=
    match kw_service kwargs with
    | Some a => Engine.and_ whereclause (field_cond or_service (to_list a))
    | None => whereclause
    end in
  match kw_status kwargs with
  | Some a => Engine.and_ whereclause (field_cond or_status (to_list a))
  | None => whereclause
  end.

(** The select statement of [get_orders], evaluated on the tables. *)
Definition select_orders (offset limit : nat) (recursive : bool)
    (kwargs : criteria) (db : Tables) : result_set :=
  let whereclause := search_conditions kwargs in
  if recursive then
    let joined := Engine.outerjoin db in
    let order_select :=
      Engine.sql_limit offset limit
        (or_id <$> Engine.sql_where whereclause (t_order db)) in
    ResultSet true
      (Engine.order_by_desc row_order_id
         (r ← joined; order_id ← order_select;
          if decide (row_order_id r = order_id) then [r] else []))
  else
    ResultSet false
      ((λ o, Row o None None) <$>
         Engine.sql_limit offset limit
           (Engine.order_by_desc or_id (Engine.sql_where whereclause (t_order db)))).

Definition get_orders (offset limit : nat) (recursive : bool) (kwargs : criteria)
    : M (list (Order.t Host.t)) :=
  λ w, match __get_orders_from_query
               (select_orders offset limit recursive kwargs (w_data w)) with
       | Some order_list => Some (w, Return order_list)
       | None => None
       end.

Definition get_order (kwargs : criteria) : M (option (Order.t Host.t)) :=
  result <- get_orders 0 2 true kwargs ;;
  match result with
  | [] => ret None
  | [order] => ret (Some order)
  | _ => raise (Exception "Too many results")
  end.

(** ** OrderDB: saving *)

Definition __save_order (order : option nat) (recursive : bool) : M unit :=
  synchronized
    match order with
    | None => raise (AttributeError "order argument must not be None")
    | Some oref =>
        o <- read_order oref ;;
        theorder <-
          (if truthy (Order.id o)
           then get_order (Criteria (Scalar <$> Order.get_id o) None None)
           else ret None) ;;
        match theorder with
        | None => add_order (Some (Scalar order)) recursive
        | Some _ =>
            match Order.get_id o with
            | None => λ _, None (* [theorder] is only set when [order.id] is true *)
            | Some id =>
                execute TOrder
                  (λ db, (Engine.update_order id (Order.get_service_name o)
                            (Order.get_status o) (Order.get_closed_timestamp o)
                            (Order.get_created_by o) db, tt)) ;;
                if negb recursive then ret tt
                else for_each (Order.get_hosts o) (λ host, __save_host (Some id) host)
            end
        end
    end.

Definition save_order (orders : option (arg (option nat))) (recursive : bool)
    : M unit :=
  match orders with
  | None => raise (AttributeError "order argument must not be None")
  | Some orders =>
      tx_begin ;;
      try_except_reraise
        (for_each (to_list orders) (λ order, __save_order order recursive) ;;
         tx_commit)
        tx_rollback
  end.

(** ** What the tables hold *)

(** The aggregate that the tables hold for an order row: its hosts in table
    order, each with the variables that refer to it. *)
Definition load_host (db : Tables) (h : host_row) : Host.t :=
  foldl (λ host v, Host.set host (vr_name v) (vr_value v))
        (__get_host_from_row h) (Engine.variables_of db (hr_id h)).

Definition load_order (db : Tables) (o : order_row) : Order.t Host.t :=
  Order.Mk (Some (or_id o)) (or_service o) (or_status o) (Some (or_created o))
           (or_closed o) (or_created_by o)
           (load_host db <$> Engine.hosts_of db (or_id o)).

(** The primary keys are positive and unique. *)
Definition keys_ok (db : Tables) : Prop :=
  NoDup (or_id <$> t_order db) ∧ Forall (λ o, 0 < or_id o) (t_order db) ∧
  NoDup (hr_id <$> t_host db) ∧ Forall (λ h, 0 < hr_id h) (t_host db) ∧
  NoDup (vr_id <$> t_variable db) ∧ Forall (λ v, 0 < vr_id v) (t_variable db).

(** The foreign keys refer to rows that exist. *)
Definition refs_ok (db : Tables) : Prop :=
  Forall (λ h, hr_order_id h ∈ or_id <$> t_order db) (t_host db) ∧
  Forall (λ v, vr_host_id v ∈ hr_id <$> t_host db) (t_variable db).

Definition db_ok (db : Tables) : Prop := keys_ok db ∧ refs_ok db.

#[global] Instance keys_ok_dec db : Decision (keys_ok db).
Proof. unfold keys_ok. apply _. Defined.

#[global] Instance db_ok_dec db : Decision (db_ok db).
Proof. unfold db_ok, refs_ok. apply _. Defined.

(** The rows that follow a group belong to another order and another host. *)
Definition group_end (order_id : Z) (host_ids : list Z) (rest : list row) : Prop :=
  match rest with
  | [] => True
  | r :: _ => row_order_id r ≠ order_id ∧ ∀ i, i ∈ host_ids → row_host_id r ≠ Some i
  end.

Definition variable_rows (o : order_row) (h : host_row) (vs : list variable_row)
    : list row :=
  (λ v, Row o (Some h) (Some v)) <$> vs.

(** What [__add_host] and [__add_order] leave in the tables. *)
Definition store_variables (host_id : Z) (kvs : list (string * value)) (db : Tables)
    : Tables :=
  foldl (λ db kv, (Engine.insert_variable host_id kv.1 kv.2 db).1) db kvs.

Definition store_host (order_id : Z) (h : Host.t) (db : Tables) : Tables :=
  let '(db, host_id) :=
    Engine.insert_host order_id (Host.name h) (Host.address h) db in
  store_variables host_id (iteritems (Host.vars h)) db.

Definition store_hosts (order_id : Z) (hs : list Host.t) (db : Tables) : Tables :=
  foldl (λ db h, store_host order_id h db) db hs.

(** The transaction boundaries in a log. *)
Definition is_tx_event (e : event) : bool :=
  match e with
  | EvWrite _ _ => false
  | _ => true
  end.

Definition tx_events (log : list event) : list event :=
  filter (λ e, is_tx_event e) log.

(** Two states that differ at most in the lock and in the writes logged. *)
Definition agree (w1 w2 : World) : Prop :=
  w_data w1 = w_data w2 ∧ w_tx_depth w1 = w_tx_depth w2 ∧
  w_tx_saved w1 = w_tx_saved w2 ∧ w_now w1 = w_now w2 ∧
  w_hosts w1 = w_hosts w2 ∧ w_orders w1 = w_orders w2 ∧
  tx_events (w_log w1) = tx_events (w_log w2).

(** The name and value of the variables of a host, in table order. *)
Definition var_items (db : Tables) (host_id : Z) : list (string * value) :=
  (λ v, (vr_name v, vr_value v)) <$> Engine.variables_of db host_id.

(** A host as it comes back from the tables. *)
Definition reload (h : Host.t) : Host.t :=
  Host.Mk (Host.name h) (Host.address h) (Host.vars h) true.

(** The tables after [__add_order]. *)
Definition store_order (o : Order.t (option nat)) (hs : list Host.t)
    (now : timestamp) (db : Tables) : Tables :=
  let '(db, id) :=
    Engine.insert_order (Order.service o) (Order.status o) (Order.closed o)
                        (Order.created_by o) now db in
  store_hosts id hs db.

(** The order rows that the statement of [get_orders] selects, before they
    are sorted. *)
Definition selected (offset limit : nat) (kwargs : criteria) (db : Tables)
    : list order_row :=
  Engine.sql_limit offset limit
    (Engine.sql_where (search_conditions kwargs) (t_order db)).

(** The hosts of a caller's order, read from the heap. *)
Definition order_hosts (w : World) (o : Order.t (option nat)) : option (list Host.t) :=
  mapM (λ r : option nat, href ← r; w_hosts w !! href) (Order.hosts o).

(** The heap after [untouch] on each of the hosts. *)
Definition untouch_hosts (hrefs : list (option nat)) (heap : gmap nat Host.t)
    : gmap nat Host.t :=
  foldl (λ m r, match r with
                | Some href => alter Host.untouch href m
                | None => m
                end) heap hrefs.

(** What identifies a host for the caller: name, address and variables. *)
Definition host_view (h : Host.t) : string * string * gmap string value :=
  (Host.name h, Host.address h, Host.vars h).

(** The identifier columns of a row, and the outline of an order. *)
Definition row_ids (r : row) : Z * option Z * option Z :=
  (row_order_id r, row_host_id r, row_variable_host_id r).

Definition order_shape (o : Order.t Host.t) : option Z * nat :=
  (Order.id o, length (Order.hosts o)).

Definition shapes (l : list (Order.t Host.t)) : list (option Z * nat) :=
  order_shape <$> l.

(** The order rows that satisfy the criteria of a query. *)
Definition matching (kwargs : criteria) (db : Tables) : list order_row :=
  Engine.sql_where (search_conditions kwargs) (t_order db).

Definition clause_holds {A} (c : Engine.clause A) (r : A) : Prop :=
  match c with
  | None => True
  | Some p => p r
  end.

#[global] Instance clause_holds_dec {A} (c : Engine.clause A) r :
  Decision (clause_holds c r).
Proof. destruct c; apply _. Defined.

(** The filter as the specification words it: a field that is given matches
    when the column equals one of its values, the fields that are given must
    all match, a field that is not given does not constrain. *)
Definition field_matches {A} (crit : option (arg A)) (x : A) : Prop :=
  match crit with
  | None => True
  | Some a => x ∈ to_list a
  end.

Definition criteria_match (kwargs : criteria) (o : order_row) : Prop :=
  field_matches (kw_id kwargs) (or_id o)
  ∧ field_matches (kw_service kwargs) (or_service o)
  ∧ field_matches (kw_status kwargs) (or_status o).

(** The filter of the code: as above, but a field that is given an empty
    list does not constrain either. *)
Definition field_holds {A} (crit : option (arg A)) (x : A) : Prop :=
  match crit with
  | None => True
  | Some a => to_list a = [] ∨ x ∈ to_list a
  end.

Definition criteria_hold (kwargs : criteria) (o : order_row) : Prop :=
  field_holds (kw_id kwargs) (or_id o)
  ∧ field_holds (kw_service kwargs) (or_service o)
  ∧ field_holds (kw_status kwargs) (or_status o).

Definition criteria_nonempty (kwargs : criteria) : Prop :=
  (∀ a, kw_id kwargs = Some a → to_list a ≠ [])
  ∧ (∀ a, kw_service kwargs = Some a → to_list a ≠ [])
  ∧ (∀ a, kw_status kwargs = Some a → to_list a ≠ []).

#[global] Instance field_matches_dec {A} `{EqDecision A} (crit : option (arg A)) x :
  Decision (field_matches crit x).
Proof. unfold field_matches. destruct crit; apply _. Defined.

#[global] Instance criteria_match_dec kwargs o : Decision (criteria_match kwargs o).
Proof. unfold criteria_match. apply _. Defined.

#[global] Instance field_holds_dec {A} `{EqDecision A} (crit : option (arg A)) x :
  Decision (field_holds crit x).
Proof. unfold field_holds. destruct crit; apply _. Defined.

#[global] Instance criteria_hold_dec kwargs o : Decision (criteria_hold kwargs o).
Proof. unfold criteria_hold. apply _. Defined.

(** A computation that leaves the transaction and the clock alone. *)
Definition tx_neutral {A} (m : M A) : Prop :=
  ∀ w w' r, m w = Some (w', r) →
    w_tx_depth w' = w_tx_depth w ∧ w_tx_saved w' = w_tx_saved w
    ∧ w_now w' = w_now w ∧ tx_events (w_log w') = tx_events (w_log w).

Definition is_raise {A} (r : outcome A) : Prop :=
  match r with
  | Raise _ => True
  | Return _ => False
  end.

(** A computation that runs inside an open transaction: it leaves the
    transaction alone, or it raises after a rollback to its begin. *)
Definition tx_nested {A} (m : M A) : Prop :=
  ∀ w w' r, m w = Some (w', r) → (0 < w_tx_depth w)%nat →
    w_tx_saved w' = w_tx_saved w ∧ w_now w' = w_now w
    ∧ ((w_tx_depth w' = w_tx_depth w ∧ tx_events (w_log w') = tx_events (w_log w))
       ∨ is_raise r ∧ w_tx_depth w' = O ∧ w_data w' = w_tx_saved w
          ∧ tx_events (w_log w') = tx_events (w_log w) ++ [EvRollback]).

(** The body of the [try] block of [add_order] and of [save_order]. *)
Definition add_batch (orders : arg (option nat)) (recursive : bool) : M unit :=
  (for_each (to_list orders) (λ order, __add_order order recursive) ;; tx_commit)%py.

Definition save_batch (orders : arg (option nat)) (recursive : bool) : M unit :=
  (for_each (to_list orders) (λ order, __save_order order recursive) ;; tx_commit)%py.

(** Upsert by natural key, as the specification words it: when a row with
    the key exists it is updated, otherwise a row is inserted. *)
Definition upsert_variable (host_id : Z) (name : string) (v : value) (db : Tables)
    : Tables :=
  if decide (Exists (λ x, vr_host_id x = host_id ∧ vr_name x = name) (t_variable db))
  then Engine.update_variable host_id name v db
  else (Engine.insert_variable host_id name v db).1.

Definition upsert_variables (host_id : Z) (kvs : list (string * value)) (db : Tables)
    : Tables :=
  foldl (λ db kv, upsert_variable host_id kv.1 kv.2 db) db kvs.

Definition upsert_host_row (order_id : Z) (h : Host.t) (db : Tables) : Tables * Z :=
  match list_find (λ x, hr_order_id x = order_id ∧ hr_address x = Host.address h)
                  (t_host db) with
  | Some (_, row) =>
      (Engine.update_host order_id (Host.address h) (Host.name h) db, hr_id row)
  | None => Engine.insert_host order_id (Host.name h) (Host.address h) db
  end.

(** A host write is a no-op unless the host is dirty. *)
Definition save_host (order_id : Z) (h : Host.t) (db : Tables) : Tables :=
  if Host.dirty h then
    let '(db, host_id) := upsert_host_row order_id h db in
    upsert_variables host_id (iteritems (Host.vars h)) db
  else db.

Definition save_hosts (order_id : Z) (hs : list Host.t) (db : Tables) : Tables :=
  foldl (λ db h, save_host order_id h db) db hs.

(** Two states with the same tables, clock and heap. *)
Definition same_store (w1 w2 : World) : Prop :=
  w_data w1 = w_data w2 ∧ w_now w1 = w_now w2
  ∧ w_hosts w1 = w_hosts w2 ∧ w_orders w1 = w_orders w2.

(** A computation that depends on the tables, the clock and the heap only,
    and treats the rest of the state alike. *)
Definition store_only {A} (m : M A) : Prop :=
  ∀ w1 w2, same_store w1 w2 →
    match m w1, m w2 with
    | Some (w1', r1), Some (w2', r2) => r1 = r2 ∧ same_store w1' w2'
    | None, None => True
    | _, _ => False
    end.

(** Every reference that a batch reaches is in the heap. *)
Definition heap_closed (w : World) (orders : list (option nat)) : Prop :=
  ∀ oref, Some oref ∈ orders →
    ∃ o, w_orders w !! oref = Some o
         ∧ ∀ href, Some href ∈ Order.hosts o → is_Some (w_hosts w !! href).

(** Two heaps with the same hosts allocated and the same host list in each
    order. *)
Definition same_shape (w w' : World) : Prop :=
  (∀ href, is_Some (w_hosts w' !! href) ↔ is_Some (w_hosts w !! href))
  ∧ ∀ oref, Order.hosts <$> w_orders w' !! oref = Order.hosts <$> w_orders w !! oref.

Definition shape_neutral {A} (m : M A) : Prop :=
  ∀ w w' r, m w = Some (w', r) → same_shape w w'.

(** The host references of a list are in the heap. *)
Definition hosts_valid (hosts : list (option nat)) (w : World) : Prop :=
  ∀ href, Some href ∈ hosts → is_Some (w_hosts w !! href).

(** ** Sample states *)

(** Two stored orders: order 1 with two hosts (the first with two variables,
    the second with none) and order 2 without hosts. *)
Definition sample_tables : Tables :=
  MkTables
    [OrderRow 1 "backup" "open" 10 None "alice";
     OrderRow 2 "upgrade" "pending" 20 None "bob"]
    [HostRow 1 1 "10.0.0.1" "r1"; HostRow 2 1 "10.0.0.2" "r2"]
    [VariableRow 1 1 "os" "ios"; VariableRow 2 1 "site" "lab"].

Definition world_of (db : Tables) : World :=
  MkWorld db 0 no_rows None [] 100 ∅ ∅.

Definition sample_world : World := world_of sample_tables.

(** A caller's order with two dirty hosts, and one with a clean host. *)
Definition sample_host_a : Host.t :=
  Host.Mk "core1" "192.0.2.1" (<["os":="junos"]> (<["rack":="7"]> ∅)) true.
Definition sample_host_b : Host.t := Host.Mk "core2" "192.0.2.2" ∅ true.
Definition sample_host_clean : Host.t :=
  Host.Mk "edge1" "192.0.2.9" (<["os":="eos"]> ∅) false.

Definition sample_order : Order.t (option nat) :=
  Order.Mk None "audit" "new" None None "carol" [Some 0%nat; Some 1%nat].
Definition sample_order_clean : Order.t (option nat) :=
  Order.Mk (Some 1) "backup" "closed" None (Some 50) "dave" [Some 2%nat].
Definition sample_order_broken : Order.t (option nat) :=
  Order.Mk None "audit" "new" None None "carol" [Some 0%nat; Some 1%nat; None].

Definition sample_heap_world : World :=
  MkWorld sample_tables 0 no_rows None [] 100
    (<[0%nat:=sample_host_a]> (<[1%nat:=sample_host_b]> (<[2%nat:=sample_host_clean]> ∅)))
    (<[0%nat:=sample_order]> (<[1%nat:=sample_order_clean]>
       (<[2%nat:=sample_order_broken]> ∅))).

(** The state after [add_order] on the order whose last host is [None]. *)
Definition sample_failed_world : World :=
  Eval vm_compute in
    match add_order (Some (Scalar (Some 2%nat))) true sample_heap_world with
    | Some (w', _) => w'
    | None => sample_heap_world
    end.

(** ** Specifications of computations *)

(** [hoare P m Q E]: from a state in [P], when [m] returns [a] the state is
    in [Q a], and when [m] raises the state is in [E]. *)
Definition hoare {A} (P : World → Prop) (m : M A) (Q : A → World → Prop)
    (E : World → Prop) : Prop :=
  ∀ w w' r, P w → m w = Some (w', r) →
    match r with
    | Return a => Q a w'
    | Raise _ => E w'
    end.

(** [m] keeps the invariant [I], on return and on raise. *)
Definition keeps {A} (I : World → Prop) (m : M A) : Prop :=
  hoare I m (λ _, I) I.

(** A predicate on states that does not look at the lock or at the log. *)
Definition store_pred (P : World → Prop) : Prop :=
  ∀ w l log,
    P w → P (MkWorld (w_data w) (w_tx_depth w) (w_tx_saved w) l log (w_now w)
                     (w_hosts w) (w_orders w)).

(** The tables that the connection sees, and those that a rollback would
    restore, have proper keys. *)
Definition tables_ok (w : World) : Prop :=
  db_ok (w_data w) ∧ (w_tx_depth w ≠ O → db_ok (w_tx_saved w)).

(** The columns that [db_ok] looks at. *)
Definition refs_key_h (h : host_row) : Z * Z := (hr_id h, hr_order_id h).
Definition refs_key_v (v : variable_row) : Z * Z := (vr_id v, vr_host_id v).

(** [tables_ok], and the order (and the host) that a row is about to refer
    to is stored. *)
Definition order_stored (order_id : Z) (w : World) : Prop :=
  tables_ok w ∧ order_id ∈ or_id <$> t_order (w_data w).

Definition host_stored (order_id host_id : Z) (w : World) : Prop :=
  order_stored order_id w ∧ host_id ∈ hr_id <$> t_host (w_data w).

(** What identifies a row and is never rewritten by an update. *)
Definition order_key (o : order_row) : Z * timestamp := (or_id o, or_created o).
Definition host_key (h : host_row) : Z * Z * string :=
  (hr_id h, hr_order_id h, hr_address h).
Definition variable_key (v : variable_row) : Z * Z * string :=
  (vr_id v, vr_host_id v, vr_name v).

(** Every row of [db] is in [db'], at the same place and with the same key. *)
Definition grows (db db' : Tables) : Prop :=
  (order_key <$> t_order db) `prefix_of` (order_key <$> t_order db')
  ∧ (host_key <$> t_host db) `prefix_of` (host_key <$> t_host db')
  ∧ (variable_key <$> t_variable db) `prefix_of` (variable_key <$> t_variable db').

Definition grown_from (db : Tables) (w : World) : Prop :=
  grows db (w_data w) ∧ (w_tx_depth w ≠ O → grows db (w_tx_saved w)).

(** The number of times that the calling thread holds the lock. *)
Definition lock_count (w : World) : nat := default 0%nat (w_sync_lock w).

Definition write_locked (e : event) : Prop :=
  match e with
  | EvWrite _ locked => locked = true
  | _ => True
  end.

#[global] Instance write_locked_dec e : Decision (write_locked e).
Proof. destruct e; apply _. Defined.

(** The lock is held [n] times and every write since [log] was made under
    it. *)
Definition writes_locked (n : nat) (log : list event) (w : World) : Prop :=
  lock_count w = n ∧ ∃ evs, w_log w = log ++ evs ∧ Forall write_locked evs.

(** A statement that keeps [I] when it is run on the tables of a state. *)
Definition statement_keeps (I : World → Prop) (stmt : Tables → Tables) : Prop :=
  ∀ w, I w → I (with_data (stmt (w_data w)) w).

(** The order table has [n] rows; it has between [lo] and [hi] rows. *)
Definition order_count (n : nat) (w : World) : Prop :=
  count_orders (w_data w) = n.

Definition order_count_within (lo hi : nat) (w : World) : Prop :=
  (lo ≤ count_orders (w_data w) ≤ hi)%nat.

(** The order at [oref] has [None] among its hosts. *)
Definition none_host (oref : nat) (w : World) : Prop :=
  ∃ hosts, Order.hosts <$> w_orders w !! oref = Some hosts ∧ None ∈ hosts.

(** ** More sample states *)

(** The state after [add_order] on the order with two dirty hosts. *)
Definition sample_added_world : World :=
  Eval vm_compute in
    match add_order (Some (Scalar (Some 0%nat))) true sample_heap_world with
    | Some (w', _) => w'
    | None => sample_heap_world
    end.

(** A caller's copy of the stored order 1 with a new status, one host that
    is stored under its address and one that is not. *)
Definition sample_host_r1 : Host.t :=
  Host.Mk "r1-renamed" "10.0.0.1" (<["os":="xr"]> (<["owner":="noc"]> ∅)) true.
Definition sample_order_update : Order.t (option nat) :=
  Order.Mk (Some 1) "backup" "done" None (Some 60) "erin" [Some 3%nat; Some 0%nat].

Definition sample_update_world : World :=
  MkWorld sample_tables 0 no_rows None [] 100
    (<[0%nat:=sample_host_a]> (<[3%nat:=sample_host_r1]> ∅))
    (<[3%nat:=sample_order_update]> ∅).

(** The state after [save_order] on that copy. *)
Definition sample_updated_world : World :=
  Eval vm_compute in
    match save_order (Some (Scalar (Some 3%nat))) true sample_update_world with
    | Some (w', _) => w'
    | None => sample_update_world
    end.

(** The number of rows that OFFSET and LIMIT let through out of [K]. *)
Definition window_size (offset limit K : nat) : nat :=
  match limit with
  | O => K - offset
  | _ => limit `min` (K - offset)
  end.

(** A list of ids in strictly descending order. *)
Fixpoint descending (ids : list Z) : Prop :=
  match ids with
  | [] => True
  | x :: ids => Forall (λ y, y < x) ids ∧ descending ids
  end.

(** The hosts that [__add_host] writes: those that are dirty. *)
Definition dirty_hosts (hs : list Host.t) : list Host.t :=
  filter (λ h, Host.dirty h = true) hs.

(** ** The table map ([OrderDB.__init__], [__add_table],
       [__update_table_names], [set_table_prefix], [get_table_prefix]) *)

(** A table of the metadata: its name, the names of its columns, and its
    foreign key (the columns that refer and the columns referred to). *)
Record Table := MkTable {
  tbl_name : string;
  tbl_columns : list string;
  tbl_foreign_key : option (list string * list string)
}.

Inductive schema_error := AlreadyDefined (name : string).

(** The attributes of an [OrderDB] that name its tables; [metadata] is the
    set of the names of the tables defined in [self.metadata]. *)
Record Schema := MkSchema {
  _table_prefix : string;
  _table_map : gmap string Table;
  metadata : gset string
}.

(** [sa.Table(name, self.metadata, columns...)]: defines the table in the
    metadata.  sqlalchemy refuses to define a table with columns under a name
    that the metadata has already ("Table ... is already defined for this
    MetaData instance"). *)
Definition sa_Table (name : string) (columns : list string)
    (foreign_key : option (list string * list string)) (md : gset string)
    : schema_error + Table * gset string :=
  if decide (name ∈ md) then inl (AlreadyDefined name)
  else inr (MkTable name columns foreign_key, {[name]} ∪ md).

(** [s[n:]] *)
Fixpoint slice_from (n : nat) (s : string) : string :=
  match n, s with
  | O, _ => s
  | S n, String _ s' => slice_from n s'
  | S _, EmptyString => EmptyString
  end.

Definition __add_table (table : Table) (db : Schema) : Schema :=
  let pfx := _table_prefix db in
  MkSchema (_table_prefix db)
           (<[slice_from (String.length pfx) (tbl_name table) := table]> (_table_map db))
           (metadata db).

Definition with_metadata (md : gset string) (db : Schema) : Schema :=
  MkSchema (_table_prefix db) (_table_map db) md.

Definition __update_table_names (db : Schema) : schema_error + Schema :=
  let pfx := _table_prefix db in
  match sa_Table (pfx +:+ "order")
                 ["id"; "service"; "status"; "created"; "closed"; "created_by"]
                 None (metadata db) with
  | inl e => inl e
  | inr (table, md) =>
      let db := __add_table table (with_metadata md db) in
      match sa_Table (pfx +:+ "host") ["id"; "order_id"; "address"; "name"]
                     (Some (["order_id"], [pfx +:+ "order.id"])) (metadata db) with
      | inl e => inl e
      | inr (table, md) =>
          let db := __add_table table (with_metadata md db) in
          match sa_Table (pfx +:+ "variable") ["id"; "host_id"; "name"; "value"]
                         (Some (["host_id"], [pfx +:+ "host.id"])) (metadata db) with
          | inl e => inl e
          | inr (table, md) => inr (__add_table table (with_metadata md db))
          end
      end
  end.

(** [OrderDB.__init__]: a fresh metadata, the default prefix, an empty
    map. *)
Definition __init__ : schema_error + Schema :=
  __update_table_names (MkSchema "exscriptd_" ∅ ∅).

Definition set_table_prefix (prefix : string) (db : Schema) : schema_error + Schema :=
  __update_table_names (MkSchema prefix (_table_map db) (metadata db)).

Definition get_table_prefix (db : Schema) : string := _table_prefix db.

(** The keys under which the methods look their tables up. *)
Definition table_keys : list string := ["order"; "host"; "variable"].

(** * Exscript.interpreter.Program: the variables of a program

    A shallow embedding of [Program.init] of
    [src/Exscript/interpreter/Program.py].  The method updates the dictionary
    [self.init_variables] in place; it is modelled as a function on that
    dictionary. *)

Module Program.

(** The Python values that the keyword arguments carry. *)
#[local] Set Warnings "-register-all".
Inductive pyval :=
  | Str (s : string)
  | Int (z : Z)
  | List (l : list pyval).

(** [type(v) == type([])] *)
Definition is_list (v : pyval) : bool :=
  match v with
  | List _ => true
  | _ => false
  end.

(** [s.find(c)] for a character [c]: the index of its first occurrence,
    or -1. *)
Fixpoint find (c : Ascii.ascii) (s : string) : Z :=
  match s with
  | EmptyString => -1
  | String a s' =>
      if decide (a = c) then 0
      else let i := find c s' in if decide (i = -1) then -1 else 1 + i
  end.

(** [s.startswith(c)] for a character [c]. *)
Definition startswith (c : Ascii.ascii) (s : string) : bool :=
  match s with
  | String a _ => bool_decide (a = c)
  | EmptyString => false
  end.

(** The body of the loop of [init] for the entry [key], [kwargs[key]]. *)
Definition init_key (init_variables : gmap string pyval) (item : string * pyval)
    : gmap string pyval :=
  let '(key, v) := item in
  if bool_decide (0 ≤ find "."%char key) || startswith "_"%char key then init_variables
  else if is_list v then <[key := v]> init_variables
  else <[key := List [v]]> init_variables.

(** [for key in kwargs]: the keys of the dictionary, each once. *)
Definition init (kwargs : gmap string pyval) (init_variables : gmap string pyval)
    : gmap string pyval :=
  foldl init_key init_variables (map_to_list kwargs).

(** The keys that [init] passes over, and the value that it stores. *)
Definition skipped (key : string) : bool :=
  bool_decide (0 ≤ find "."%char key) || startswith "_"%char key.

Definition as_list (v : pyval) : pyval := if is_list v then v else List [v].

End Program.

(** Keyword arguments for [Program.init]. *)
Definition sample_kwargs : gmap string Program.pyval :=
  <["hostname" := Program.Str "r1"]>
    (<["_secret" := Program.Str "x"]>
       (<["net.mask" := Program.Int 24]>
          (<["tags" := Program.List [Program.Str "core"; Program.Str "lab"]]> ∅))).

(** The host and variable tables and the caller's hosts are [hosts],
    [variables] and [heap], now and after a rollback. *)
Definition hosts_alone (hosts : list host_row) (variables : list variable_row)
    (heap : gmap nat Host.t) (w : World) : Prop :=
  t_host (w_data w) = hosts ∧ t_variable (w_data w) = variables ∧ w_hosts w = heap
  ∧ (w_tx_depth w ≠ O →
     t_host (w_tx_saved w) = hosts ∧ t_variable (w_tx_saved w) = variables).

(** The variable [k] of the host [host_id] is stored with the value [v]:
    there is a row for it, and every row for it has that value. *)
Definition var_is (host_id : Z) (k : string) (v : value) (db : Tables) : Prop :=
  (∃ x, x ∈ t_variable db ∧ vr_host_id x = host_id ∧ vr_name x = k)
  ∧ ∀ x, x ∈ t_variable db → vr_host_id x = host_id → vr_name x = k → vr_value x = v.

(** The host [h] is stored under the order [order_id]: a host row of the
    order has its address and its name, and each of its variables is stored
    for that row. *)
Definition host_is (order_id : Z) (h : Host.t) (db : Tables) : Prop :=
  ∃ row, row ∈ t_host db ∧ hr_order_id row = order_id
    ∧ hr_address row = Host.address h ∧ hr_name row = Host.name h
    ∧ ∀ k v, Host.vars h !! k = Some v → var_is (hr_id row) k v db.

(** The host [h2] is not written, or is written under another address
    than [h]. *)
Definition apart (h h2 : Host.t) : Prop :=
  Host.dirty h2 = false ∨ Host.address h2 ≠ Host.address h.

(** * Proofs *)

(** ** The row grouper terminates *)

Lemma variables_loop_le last_host_id host rows :
  (length (variables_loop last_host_id host rows).2 ≤ length rows)%nat.
Proof.
  revert host. induction rows as [|r rest IH]; intros host; simpl; [lia|].
  destruct (r_variable r) as [v|]; simpl; [|lia].
  destruct (bool_decide (vr_host_id v ≠ 0)); simpl; [|lia].
  destruct rest as [|r' rest']; [simpl; lia|].
  destruct (bool_decide (Some last_host_id ≠ row_host_id r')); [simpl; lia|].
  specialize (IH (Host.set host (vr_name v) (vr_value v))). cbn [length] in *. lia.
Qed.

Lemma variables_loop_lt last_host_id host r rest :
  truthy (row_variable_host_id r) = true →
  (length (variables_loop last_host_id host (r :: rest)).2 < length (r :: rest))%nat.
Proof.
  unfold row_variable_host_id. intros Hv. simpl.
  destruct (r_variable r) as [v|]; simpl in *; [|done].
  rewrite Hv. destruct rest as [|r' rest']; [simpl; lia|].
  destruct (bool_decide (Some last_host_id ≠ row_host_id r')); [simpl; lia|].
  pose proof (variables_loop_le last_host_id (Host.set host (vr_name v) (vr_value v))
                (r' :: rest')) as Hle.
  cbn [length] in *. lia.
Qed.

Lemma hosts_loop_le fuel last_order_id order rows order' rows' :
  hosts_loop fuel last_order_id order rows = Some (order', rows') →
  (length rows' ≤ length rows)%nat.
Proof.
  revert order rows. induction fuel as [|fuel IH]; intros order rows Hl; [done|].
  destruct rows as [|r rest]; cbn [hosts_loop] in Hl; [by simplify_eq|].
  destruct (r_host r) as [h|]; [|by simplify_eq].
  destruct (truthy (Some (hr_id h))); [|by simplify_eq].
  destruct (bool_decide (last_order_id ≠ row_order_id r)); [by simplify_eq|].
  destruct (truthy (row_variable_host_id r)) eqn:Hv; cbn [negb] in Hl.
  - pose proof (variables_loop_lt (hr_id h) (__get_host_from_row h) r rest Hv) as Hlt.
    destruct (variables_loop _ _ _) as [host rows1]. apply IH in Hl.
    cbn [snd length] in *. lia.
  - apply IH in Hl. cbn [length]. lia.
Qed.

Lemma hosts_loop_lt fuel order r rest order' rows' :
  truthy (row_host_id r) = true →
  hosts_loop fuel (row_order_id r) order (r :: rest) = Some (order', rows') →
  (length rows' < length (r :: rest))%nat.
Proof.
  intros Hh Hl. destruct fuel as [|fuel]; [done|]. cbn [hosts_loop] in Hl.
  unfold row_host_id in Hh. destruct (r_host r) as [h|]; [|done].
  cbn [fmap option_fmap option_map] in Hh.
  rewrite Hh in Hl. rewrite bool_decide_eq_false_2 in Hl by (intros ?; done).
  destruct (truthy (row_variable_host_id r)) eqn:Hv; cbn [negb] in Hl.
  - pose proof (variables_loop_lt (hr_id h) (__get_host_from_row h) r rest Hv) as Hlt.
    destruct (variables_loop _ _ _) as [host rows1]. apply hosts_loop_le in Hl.
    cbn [snd length] in *. lia.
  - apply hosts_loop_le in Hl. cbn [length]. lia.
Qed.

Lemma hosts_loop_total fuel last_order_id order rows :
  (length rows < fuel)%nat →
  is_Some (hosts_loop fuel last_order_id order rows).
Proof.
  revert order rows. induction fuel as [|fuel IH]; intros order rows Hlen; [lia|].
  destruct rows as [|r rest]; cbn [hosts_loop]; [by eauto|].
  destruct (r_host r) as [h|]; [|by eauto].
  destruct (truthy (Some (hr_id h))); [|by eauto].
  destruct (bool_decide (last_order_id ≠ row_order_id r)); [by eauto|].
  destruct (truthy (row_variable_host_id r)) eqn:Hv; cbn [negb].
  - pose proof (variables_loop_lt (hr_id h) (__get_host_from_row h) r rest Hv) as Hlt.
    destruct (variables_loop _ _ _) as [host rows']. apply IH.
    cbn [snd length] in *. lia.
  - apply IH. cbn [length] in *. lia.
Qed.

Lemma orders_loop_total fuel joined order_list rows :
  (length rows < fuel)%nat →
  is_Some (orders_loop fuel joined order_list rows).
Proof.
  revert order_list rows. induction fuel as [|fuel IH]; intros order_list rows Hlen; [lia|].
  destruct rows as [|r rest]; [by eauto|].
  cbn [orders_loop].
  destruct (negb (truthy (Some (row_order_id r)))); [by eauto|].
  destruct (negb joined || negb (truthy (row_host_id r))) eqn:Hc.
  - apply IH. simpl in *. lia.
  - apply orb_false_iff in Hc as [_ Hh]. apply negb_false_iff in Hh.
    destruct (hosts_loop_total (S (length (r :: rest))) (row_order_id r)
                (__get_order_from_row (r_order r)) (r :: rest)) as [[o' rows'] Hl]; [lia|].
    rewrite Hl. pose proof (hosts_loop_lt _ _ _ _ _ _ Hh Hl).
    destruct rows'; [by eauto|]. apply IH. simpl in *. lia.
Qed.

Lemma get_orders_from_query_total query : is_Some (__get_orders_from_query query).
Proof.
  unfold __get_orders_from_query. destruct (fetch query) as [|r rest]; [by eauto|].
  apply orders_loop_total. lia.
Qed.

(** ** Grouping the rows of a join *)

Lemma Forall_filter_self {A} (P : A → Prop) `{∀ x, Decision (P x)} (l : list A) :
  Forall P (filter P l).
Proof. apply Forall_forall. intros x Hx. by apply list_elem_of_filter in Hx as [? _]. Qed.

Lemma truthy_Some z : z ≠ 0 → truthy (Some z) = true.
Proof. intros. unfold truthy. by apply bool_decide_eq_true_2. Qed.

Lemma variables_loop_group o h vs host rest :
  vs ≠ [] → hr_id h ≠ 0 → Forall (λ v, vr_host_id v = hr_id h) vs →
  match rest with [] => True | r :: _ => row_host_id r ≠ Some (hr_id h) end →
  variables_loop (hr_id h) host (variable_rows o h vs ++ rest)
  = (foldl (λ host v, Host.set host (vr_name v) (vr_value v)) host vs, rest).
Proof.
  intros Hne Hh Hvs Hrest. revert host.
  induction vs as [|v vs IH]; intros host; [done|].
  apply Forall_cons in Hvs as [Hv Hvs].
  cbn [variable_rows fmap list_fmap app variables_loop r_variable].
  rewrite Hv, truthy_Some by done.
  cbn [__get_variable_from_row foldl].
  destruct vs as [|v' vs].
  - cbn [fmap list_fmap app foldl]. destruct rest as [|r' rest]; [done|].
    rewrite bool_decide_eq_true_2; [done|]. intros Heq. by apply Hrest.
  - cbn [fmap list_fmap app].
    rewrite bool_decide_eq_false_2 by (intros Hx; by apply Hx).
    apply (IH ltac:(done) Hvs).
Qed.

Lemma join_host_length db o h : (0 < length (Engine.join_host db o h))%nat.
Proof.
  unfold Engine.join_host. destruct (Engine.variables_of db (hr_id h)); simpl; lia.
Qed.

Lemma hosts_loop_stop fuel order_id host_ids order rest :
  group_end order_id host_ids rest →
  hosts_loop (S fuel) order_id order rest = Some (order, rest).
Proof.
  intros Hend. destruct rest as [|r rest]; [done|]. destruct Hend as [Ho _].
  cbn [hosts_loop]. destruct (r_host r) as [h|]; [|done].
  destruct (truthy (Some (hr_id h))); [|done].
  by rewrite bool_decide_eq_true_2 by done.
Qed.

Lemma hosts_loop_host db fuel o h order rest :
  hr_id h ≠ 0 →
  match rest with [] => True | r :: _ => row_host_id r ≠ Some (hr_id h) end →
  hosts_loop (S fuel) (or_id o) order (Engine.join_host db o h ++ rest)
  = hosts_loop fuel (or_id o) (Order.add_host order (load_host db h)) rest.
Proof.
  intros Hh Hrest. unfold Engine.join_host, load_host.
  pose proof (Forall_filter_self (λ v, vr_host_id v = hr_id h) (t_variable db)) as Hvs.
  fold (Engine.variables_of db (hr_id h)) in Hvs.
  destruct (Engine.variables_of db (hr_id h)) as [|v vs] eqn:Hvars.
  - cbn [app hosts_loop r_host]. rewrite truthy_Some by done.
    rewrite bool_decide_eq_false_2 by (intros Hx; by apply Hx). done.
  - pose proof (variables_loop_group o h (v :: vs) (__get_host_from_row h) rest
                  ltac:(done) Hh Hvs Hrest) as Hg.
    cbn [variable_rows fmap list_fmap app] in Hg.
    cbn [fmap list_fmap app hosts_loop r_host].
    rewrite truthy_Some by done.
    rewrite bool_decide_eq_false_2 by (intros Hx; by apply Hx).
    apply Forall_cons in Hvs as [Hv _].
    unfold row_variable_host_id. cbn [r_variable fmap option_fmap option_map].
    rewrite Hv, truthy_Some by done. cbn [negb].
    by rewrite Hg.
Qed.

Lemma foldl_add_host {H} (order : Order.t H) (hs : list H) :
  foldl Order.add_host order hs
  = Order.Mk (Order.id order) (Order.service order) (Order.status order)
             (Order.created order) (Order.closed order) (Order.created_by order)
             (Order.hosts order ++ hs).
Proof.
  revert order. induction hs as [|h hs IH]; intros order.
  - cbn [foldl]. rewrite app_nil_r. by destruct order.
  - cbn [foldl]. rewrite IH. unfold Order.add_host. cbn. by rewrite <- app_assoc.
Qed.

Lemma join_host_head db o h rest :
  ∃ r rows, Engine.join_host db o h ++ rest = r :: rows
    ∧ r_order r = o ∧ r_host r = Some h.
Proof.
  unfold Engine.join_host. destruct (Engine.variables_of db (hr_id h)) as [|v vs].
  - eexists _, _. by split.
  - eexists _, _. by split.
Qed.

Lemma join_order_head db o rest :
  ∃ r rows, Engine.join_order db o ++ rest = r :: rows
    ∧ r_order r = o
    ∧ match r_host r with
      | Some h => h ∈ Engine.hosts_of db (or_id o)
      | None => Engine.hosts_of db (or_id o) = []
      end.
Proof.
  unfold Engine.join_order. destruct (Engine.hosts_of db (or_id o)) as [|h hs].
  - eexists _, _. by split.
  - cbn [mbind list_bind]. rewrite <- app_assoc.
    destruct (join_host_head db o h ((hs ≫= Engine.join_host db o) ++ rest))
      as (r & rows & -> & Ho & Hh).
    eexists _, _. split; [done|]. rewrite Hh. repeat split; try done. by left.
Qed.

Lemma bind_join_host_length db o hs :
  (length hs ≤ length (hs ≫= Engine.join_host db o))%nat.
Proof.
  induction hs as [|h hs IH]; [done|]. cbn [mbind list_bind]. rewrite length_app.
  pose proof (join_host_length db o h). cbn [length]. lia.
Qed.

Lemma hosts_loop_group db fuel o hs order rest :
  NoDup (hr_id <$> hs) → Forall (λ h, hr_id h ≠ 0) hs →
  group_end (or_id o) (hr_id <$> hs) rest →
  (length hs < fuel)%nat →
  hosts_loop fuel (or_id o) order ((hs ≫= Engine.join_host db o) ++ rest)
  = Some (foldl Order.add_host order (load_host db <$> hs), rest).
Proof.
  revert fuel order. induction hs as [|h hs IH]; intros fuel order Hnd Hnz Hend Hfuel.
  - destruct fuel as [|fuel]; [simpl in Hfuel; lia|].
    by apply (hosts_loop_stop _ _ []).
  - destruct fuel as [|fuel]; [simpl in Hfuel; lia|].
    rewrite fmap_cons in Hnd. apply NoDup_cons in Hnd as [Hh Hnd].
    apply Forall_cons in Hnz as [Hhz Hnz].
    cbn [mbind list_bind]. rewrite <- app_assoc.
    rewrite hosts_loop_host; [|done|].
    + cbn [fmap list_fmap foldl]. apply IH; [done|done| |simpl in Hfuel; lia].
      destruct rest as [|r rest]; [done|]. destruct Hend as [Ho Hi].
      split; [done|]. intros i Hin. apply Hi. rewrite fmap_cons. by right.
    + destruct hs as [|h' hs].
      * cbn [mbind list_bind app]. destruct rest as [|r rest]; [done|].
        destruct Hend as [_ Hi]. apply Hi. rewrite fmap_cons. by left.
      * cbn [mbind list_bind]. rewrite <- app_assoc.
        destruct (join_host_head db o h' ((hs ≫= Engine.join_host db o) ++ rest))
          as (r & rows & -> & _ & Hr).
        unfold row_host_id. rewrite Hr. cbn. intros [= Heq]. apply Hh.
        rewrite fmap_cons, Heq. by left.
Qed.

Lemma NoDup_fmap_inj_on {A B} (f : A → B) (l : list A) x y :
  NoDup (f <$> l) → x ∈ l → y ∈ l → f x = f y → x = y.
Proof.
  induction l as [|a l IH]; intros Hnd Hx Hy Heq; [by apply elem_of_nil in Hx|].
  rewrite fmap_cons in Hnd. apply NoDup_cons in Hnd as [Ha Hnd].
  apply elem_of_cons in Hx as [->|Hx]; apply elem_of_cons in Hy as [->|Hy]; try done.
  - exfalso. apply Ha. rewrite Heq. by apply list_elem_of_fmap_2.
  - exfalso. apply Ha. rewrite <- Heq. by apply list_elem_of_fmap_2.
  - by apply IH.
Qed.

Lemma NoDup_fmap_filter {A B} (f : A → B) (P : A → Prop) `{∀ x, Decision (P x)}
    (l : list A) :
  NoDup (f <$> l) → NoDup (f <$> filter P l).
Proof.
  induction l as [|a l IH]; intros Hnd; [done|].
  rewrite fmap_cons in Hnd. apply NoDup_cons in Hnd as [Ha Hnd].
  rewrite filter_cons. destruct (decide (P a)); [|by apply IH].
  rewrite fmap_cons. apply NoDup_cons. split; [|by apply IH].
  intros Hin. apply Ha. apply list_elem_of_fmap in Hin as (x & -> & Hx).
  apply list_elem_of_filter in Hx as [_ Hx]. by apply list_elem_of_fmap_2.
Qed.

Lemma join_order_length db o : (0 < length (Engine.join_order db o))%nat.
Proof.
  destruct (join_order_head db o []) as (r & rows & Heq & _).
  rewrite app_nil_r in Heq. rewrite Heq. simpl. lia.
Qed.

Lemma orders_loop_group db L fuel order_list :
  NoDup (hr_id <$> t_host db) → Forall (λ h, hr_id h ≠ 0) (t_host db) →
  NoDup (or_id <$> L) → Forall (λ o, or_id o ≠ 0) L →
  (length L < fuel)%nat →
  orders_loop fuel true order_list (L ≫= Engine.join_order db)
  = Some (order_list ++ (load_order db <$> L)).
Proof.
  intros Hhnd Hhnz. revert fuel order_list.
  induction L as [|o L IH]; intros fuel order_list Hnd Hnz Hfuel.
  { destruct fuel; [simpl in Hfuel; lia|]. cbn. by rewrite app_nil_r. }
  destruct fuel as [|fuel]; [simpl in Hfuel; lia|].
  rewrite fmap_cons in Hnd. apply NoDup_cons in Hnd as [Ho Hnd].
  apply Forall_cons in Hnz as [Hoz Hnz].
  assert (Hend : group_end (or_id o) (hr_id <$> Engine.hosts_of db (or_id o))
                   (L ≫= Engine.join_order db)).
  { destruct L as [|o' L]; [done|]. cbn [mbind list_bind].
    destruct (join_order_head db o' (L ≫= Engine.join_order db))
      as (r & rows & -> & Hr & Hh).
    unfold group_end, row_order_id, row_host_id. rewrite Hr. split.
    - intros Heq. apply Ho. rewrite fmap_cons, Heq. by left.
    - intros i Hi. destruct (r_host r) as [h'|]; [|done]. cbn. intros [= Heq].
      apply list_elem_of_fmap in Hi as (h & -> & Hin).
      apply list_elem_of_filter in Hin as [Hho Hin].
      apply list_elem_of_filter in Hh as [Hho' Hin'].
      assert (h' = h) as -> by by eapply NoDup_fmap_inj_on.
      apply Ho. rewrite fmap_cons, <- Hho', Hho. by left. }
  cbn [mbind list_bind fmap list_fmap]. unfold Engine.join_order at 1, load_order at 1.
  destruct (Engine.hosts_of db (or_id o)) as [|h hs] eqn:Hhosts.
  - cbn [app orders_loop]. unfold row_order_id, row_host_id. cbn [r_order r_host].
    rewrite truthy_Some by done. cbn.
    rewrite IH by (done || simpl in Hfuel; lia). by rewrite <- app_assoc.
  - assert (Hsub : ∀ x, x ∈ h :: hs → x ∈ t_host db).
    { intros x Hx. rewrite <- Hhosts in Hx. by apply list_elem_of_filter in Hx as [_ ?]. }
    assert (Hhs_nd : NoDup (hr_id <$> h :: hs)).
    { rewrite <- Hhosts. by apply NoDup_fmap_filter. }
    assert (Hhs_nz : Forall (λ h, hr_id h ≠ 0) (h :: hs)).
    { apply Forall_forall. intros x Hx. rewrite Forall_forall in Hhnz. by apply Hhnz, Hsub. }
    pose proof (hosts_loop_group db (S (length (((h :: hs) ≫= Engine.join_host db o)
                   ++ (L ≫= Engine.join_order db))))
                  o (h :: hs) (__get_order_from_row o) (L ≫= Engine.join_order db)
                  Hhs_nd Hhs_nz Hend) as Hg.
    destruct (join_host_head db o h ((hs ≫= Engine.join_host db o)
                 ++ (L ≫= Engine.join_order db))) as (r & rows & Hrows & Hr & Hh).
    assert (Hlen : (length (h :: hs) ≤ length ((h :: hs) ≫= Engine.join_host db o))%nat)
      by apply bind_join_host_length.
    cbn [mbind list_bind] in Hg, Hlen |- *. rewrite <- app_assoc in Hg |- *.
    rewrite Hrows in Hg |- *. cbn [orders_loop].
    unfold row_order_id, row_host_id. rewrite Hr, Hh.
    cbn [fmap option_fmap option_map]. rewrite !truthy_Some by (done || by inversion Hhs_nz).
    cbn [negb orb]. unfold row_order_id in Hg. rewrite Hg.
    2:{ rewrite <- Hrows, !length_app. rewrite length_app in Hlen.
        cbn [length] in *. lia. }
    rewrite foldl_add_host. cbn [__get_order_from_row Order.id Order.service Order.status
      Order.created Order.closed Order.created_by Order.hosts app].
    assert (Hfuel' : (length L < fuel)%nat) by (simpl in Hfuel; lia).
    specialize (IH fuel (order_list ++ [load_order db o]) Hnd Hnz Hfuel').
    assert (Hload : load_order db o
                    = Order.Mk (Some (or_id o)) (or_service o) (or_status o)
                        (Some (or_created o)) (or_closed o) (or_created_by o)
                        (load_host db <$> h :: hs)).
    { unfold load_order. by rewrite Hhosts. }
    rewrite <- app_assoc, Hload in IH.
    clear Hg Hrows Hend.
    destruct (L ≫= Engine.join_order db) as [|r' rows'] eqn:HL; [|apply IH].
    destruct fuel; [lia|]. apply IH.
Qed.

(** ** Sorting a joined result *)

Section order_by.
Context {A B : Type} (keyA : A → Z) (keyB : B → Z) (f : A → list B).
Hypothesis f_key : ∀ a, Forall (λ b, keyB b = keyA a) (f a).
Hypothesis f_nonempty : ∀ a, f a ≠ [].

Lemma insert_desc_front (x : B) (ys : list B) :
  match ys with [] => True | y :: _ => keyB y ≤ keyB x end →
  Engine.insert_desc keyB x ys = x :: ys.
Proof.
  destruct ys as [|y ys]; [done|]. intros Hy. cbn [Engine.insert_desc].
  by rewrite bool_decide_eq_true_2.
Qed.

Lemma insert_desc_pass (x : B) (ys zs : list B) :
  Forall (λ y, keyB x < keyB y) ys →
  Engine.insert_desc keyB x (ys ++ zs) = ys ++ Engine.insert_desc keyB x zs.
Proof.
  induction 1 as [|y ys Hy _ IH]; [done|]. cbn [app Engine.insert_desc].
  rewrite bool_decide_eq_false_2 by lia. by rewrite IH.
Qed.

Lemma insert_group_front (k : Z) (xs ys : list B) :
  Forall (λ x, keyB x = k) xs →
  match ys with [] => True | y :: _ => keyB y ≤ k end →
  foldr (Engine.insert_desc keyB) ys xs = xs ++ ys.
Proof.
  intros Hxs Hys. induction Hxs as [|x xs Hx Hxs IH]; [done|].
  cbn [foldr app]. rewrite IH. apply insert_desc_front.
  destruct xs as [|x' xs].
  - cbn [app]. destruct ys; [done|]. lia.
  - apply Forall_cons in Hxs as [Hx' _]. cbn [app]. lia.
Qed.

Lemma insert_group_pass (k : Z) (xs ys zs : list B) :
  Forall (λ x, keyB x = k) xs → Forall (λ y, k < keyB y) ys →
  foldr (Engine.insert_desc keyB) (ys ++ zs) xs
  = ys ++ foldr (Engine.insert_desc keyB) zs xs.
Proof.
  intros Hxs Hys. induction Hxs as [|x xs Hx Hxs IH]; [done|].
  cbn [foldr]. rewrite IH. apply insert_desc_pass.
  eapply Forall_impl; [exact Hys|]. intros y Hy. cbn in Hy. lia.
Qed.

Lemma insert_group (a : A) (S : list A) :
  foldr (Engine.insert_desc keyB) (S ≫= f) (f a) = Engine.insert_desc keyA a S ≫= f.
Proof.
  induction S as [|b S IH].
  - cbn [mbind list_bind Engine.insert_desc]. rewrite app_nil_r.
    rewrite (insert_group_front (keyA a)); [by rewrite app_nil_r|apply f_key|done].
  - cbn [mbind list_bind Engine.insert_desc]. case_bool_decide as Hk.
    + cbn [mbind list_bind]. apply (insert_group_front (keyA a)); [apply f_key|].
      pose proof (f_key b) as Hb. pose proof (f_nonempty b) as Hne.
      destruct (f b) as [|y ys]; [done|]. apply Forall_cons in Hb as [Hy _].
      cbn [app]. lia.
    + cbn [mbind list_bind]. rewrite (insert_group_pass (keyA a)); [by rewrite IH|apply f_key|].
      eapply Forall_impl; [apply f_key|]. intros y Hy. cbn in Hy. lia.
Qed.

Lemma order_by_desc_bind (L : list A) :
  Engine.order_by_desc keyB (L ≫= f) = Engine.order_by_desc keyA L ≫= f.
Proof.
  unfold Engine.order_by_desc. induction L as [|a L IH]; [done|].
  cbn [mbind list_bind foldr]. rewrite foldr_app, IH. apply insert_group.
Qed.

End order_by.

Lemma insert_desc_length {A} (key : A → Z) x (l : list A) :
  length (Engine.insert_desc key x l) = S (length l).
Proof.
  induction l as [|y l IH]; [done|]. cbn [Engine.insert_desc].
  case_bool_decide; cbn [length]; [done|]. by rewrite IH.
Qed.

Lemma order_by_desc_length {A} (key : A → Z) (l : list A) :
  length (Engine.order_by_desc key l) = length l.
Proof.
  unfold Engine.order_by_desc. induction l as [|x l IH]; [done|].
  cbn [foldr]. by rewrite insert_desc_length, IH.
Qed.

Lemma insert_desc_perm {A} (key : A → Z) x (l : list A) :
  Engine.insert_desc key x l ≡ₚ x :: l.
Proof.
  induction l as [|y l IH]; [done|]. cbn [Engine.insert_desc].
  case_bool_decide; [done|]. rewrite IH. apply Permutation_swap.
Qed.

Lemma order_by_desc_perm {A} (key : A → Z) (l : list A) :
  Engine.order_by_desc key l ≡ₚ l.
Proof.
  unfold Engine.order_by_desc. induction l as [|x l IH]; [done|].
  cbn [foldr]. by rewrite insert_desc_perm, IH.
Qed.

(** ** The rows of the select statement *)

Lemma join_order_rows db o : Forall (λ r, row_order_id r = or_id o) (Engine.join_order db o).
Proof.
  unfold Engine.join_order. destruct (Engine.hosts_of db (or_id o)) as [|h hs].
  { by repeat constructor. }
  apply Forall_forall. intros r Hr. apply list_elem_of_bind in Hr as (h' & Hr & _).
  unfold Engine.join_host in Hr. destruct (Engine.variables_of db (hr_id h')).
  - by apply list_elem_of_singleton in Hr as ->.
  - by apply list_elem_of_fmap in Hr as (v' & -> & _).
Qed.

Lemma bind_match_ids (x : Z) (r : row) (ids : list Z) :
  NoDup ids →
  (order_id ← ids; if decide (x = order_id) then [r] else [])
  = if decide (x ∈ ids) then [r] else [].
Proof.
  induction 1 as [|i ids Hi Hnd IH]; [done|]. cbn [mbind list_bind]. rewrite IH.
  destruct (decide (x = i)), (decide (x ∈ ids)), (decide (x ∈ i :: ids));
    simplify_eq; try done; set_solver.
Qed.

Lemma bind_join_select db (L : list order_row) (ids : list Z) :
  NoDup ids →
  (r ← L ≫= Engine.join_order db; order_id ← ids;
   if decide (row_order_id r = order_id) then [r] else [])
  = filter (λ o, or_id o ∈ ids) L ≫= Engine.join_order db.
Proof.
  intros Hnd. induction L as [|o L IH]; [done|].
  cbn [mbind list_bind]. rewrite bind_app, IH, filter_cons.
  pose proof (join_order_rows db o) as Hrows.
  assert (Engine.join_order db o ≫= (λ r, order_id ← ids;
            if decide (row_order_id r = order_id) then [r] else [])
          = if decide (or_id o ∈ ids) then Engine.join_order db o else []) as ->.
  { induction Hrows as [|r rows Hr _ IHr]; [by destruct (decide _)|].
    cbn [mbind list_bind]. rewrite IHr, bind_match_ids, Hr by done.
    by destruct (decide _). }
  by destruct (decide _).
Qed.

Lemma filter_ext_in {A} (P Q : A → Prop) `{∀ x, Decision (P x)} `{∀ x, Decision (Q x)}
    (l : list A) :
  (∀ x, x ∈ l → P x ↔ Q x) → filter P l = filter Q l.
Proof.
  induction l as [|x l IH]; intros Hext; [done|]. rewrite !filter_cons.
  rewrite IH by (intros y Hy; apply Hext; by right).
  destruct (decide (P x)) as [HP|HP], (decide (Q x)) as [HQ|HQ]; try done.
  - exfalso. apply HQ, Hext; [by left|done].
  - exfalso. apply HP, Hext; [by left|done].
Qed.

Lemma filter_sublist_keys {A} (key : A → Z) (W L : list A) :
  W `sublist_of` L → NoDup (key <$> L) →
  filter (λ x, key x ∈ key <$> W) L = W.
Proof.
  induction 1 as [|x W L Hsub IH|x W L Hsub IH]; intros Hnd; [done| |].
  - rewrite fmap_cons in Hnd. apply NoDup_cons in Hnd as [Hx Hnd].
    rewrite filter_cons, decide_True by (rewrite fmap_cons; by left). f_equal.
    rewrite <- (IH Hnd) at 1. apply filter_ext_in. intros y Hy.
    rewrite fmap_cons, elem_of_cons. split; [|by right].
    intros [Heq|?]; [|done]. exfalso. apply Hx. rewrite <- Heq.
    by apply list_elem_of_fmap_2.
  - rewrite fmap_cons in Hnd. apply NoDup_cons in Hnd as [Hx Hnd].
    rewrite filter_cons, decide_False; [by apply IH|].
    intros Hin. apply Hx. eapply elem_of_sublist; [exact Hin|]. by apply fmap_sublist.
Qed.

(** ** Primary keys *)

Lemma next_id_gt ids x : x ∈ ids → x < Engine.next_id ids.
Proof.
  unfold Engine.next_id. induction ids as [|i ids IH]; intros Hx.
  - by apply elem_of_nil in Hx.
  - cbn [foldr]. apply elem_of_cons in Hx as [->|Hx]; [lia|]. specialize (IH Hx). lia.
Qed.

Lemma next_id_pos ids : 0 < Engine.next_id ids.
Proof.
  unfold Engine.next_id. induction ids as [|i ids IH]; cbn [foldr]; lia.
Qed.

Lemma next_id_fresh ids : Engine.next_id ids ∉ ids.
Proof. intros Hin. apply next_id_gt in Hin. lia. Qed.

Lemma NoDup_snoc_fresh {A} (key : A → Z) (l : list A) (x : A) :
  NoDup (key <$> l) → key x ∉ key <$> l → NoDup (key <$> l ++ [x]).
Proof.
  intros Hnd Hx. rewrite fmap_app. apply NoDup_app. split; [done|]. split.
  - intros y Hy Hy'. apply list_elem_of_singleton in Hy'. cbn in Hy'. by subst.
  - apply NoDup_singleton.
Qed.

(** ** Dictionaries *)

Lemma foldl_insert_list_to_map (l : list (string * value)) (m : gmap string value) :
  foldl (λ m kv, <[kv.1:=kv.2]> m) m l = list_to_map (reverse l) ∪ m.
Proof.
  revert m. induction l as [|[k v] l IH]; intros m.
  - cbn. by rewrite (left_id_L ∅ (∪)).
  - cbn [foldl]. rewrite IH, reverse_cons, list_to_map_app. cbn [list_to_map foldr].
    rewrite <- (assoc_L (∪)). f_equal. cbn.
    by rewrite insert_union_singleton_l, insert_empty.
Qed.

Lemma foldl_insert_items (m : gmap string value) :
  foldl (λ m kv, <[kv.1:=kv.2]> m) ∅ (map_to_list m) = m.
Proof.
  rewrite foldl_insert_list_to_map, (right_id_L ∅ (∪)).
  rewrite <- (list_to_map_to_list m) at 2. apply list_to_map_proper.
  - rewrite fmap_reverse, reverse_Permutation. apply NoDup_fst_map_to_list.
  - apply reverse_Permutation.
Qed.

Lemma foldl_host_set n a m (kvs : list (string * value)) :
  foldl (λ host kv, Host.set host kv.1 kv.2) (Host.Mk n a m true) kvs
  = Host.Mk n a (foldl (λ m kv, <[kv.1:=kv.2]> m) m kvs) true.
Proof.
  revert m. induction kvs as [|kv kvs IH]; intros m; [done|].
  cbn [foldl]. unfold Host.set at 2. cbn [Host.name Host.address Host.vars]. apply IH.
Qed.

Lemma load_host_items db h :
  load_host db h
  = foldl (λ host kv, Host.set host kv.1 kv.2) (__get_host_from_row h)
          (var_items db (hr_id h)).
Proof.
  unfold load_host, var_items. generalize (__get_host_from_row h).
  induction (Engine.variables_of db (hr_id h)) as [|v vs IH]; intros host; [done|].
  cbn [fmap list_fmap foldl]. apply IH.
Qed.

Lemma var_items_insert_variable host_id k v db x :
  var_items (Engine.insert_variable host_id k v db).1 x
  = var_items db x ++ (if decide (host_id = x) then [(k, v)] else []).
Proof.
  unfold var_items, Engine.variables_of. cbn [Engine.insert_variable fst t_variable].
  rewrite filter_app, fmap_app. f_equal. rewrite filter_cons, filter_nil.
  cbn [vr_host_id]. by destruct (decide (host_id = x)).
Qed.

Lemma var_items_store_variables host_id kvs db x :
  var_items (store_variables host_id kvs db) x
  = var_items db x ++ (if decide (host_id = x) then kvs else []).
Proof.
  unfold store_variables. revert db. induction kvs as [|[k v] kvs IH]; intros db.
  - cbn [foldl]. destruct (decide _); by rewrite app_nil_r.
  - cbn [foldl]. rewrite IH, var_items_insert_variable. cbn [fst snd].
    rewrite <- app_assoc. by destruct (decide _).
Qed.

Lemma store_variables_tables host_id kvs db :
  t_order (store_variables host_id kvs db) = t_order db
  ∧ t_host (store_variables host_id kvs db) = t_host db.
Proof.
  unfold store_variables. revert db. induction kvs as [|kv kvs IH]; intros db; [done|].
  cbn [foldl]. destruct (IH (Engine.insert_variable host_id kv.1 kv.2 db).1) as [-> ->].
  done.
Qed.

Lemma insert_variable_ok host_id k v db :
  db_ok db → host_id ∈ hr_id <$> t_host db →
  db_ok (Engine.insert_variable host_id k v db).1.
Proof.
  intros [(Ho & Hop & Hh & Hhp & Hv & Hvp) [Hfh Hfv]] Hin.
  cbn [Engine.insert_variable fst]. split; [repeat split; cbn; try done|split; cbn; try done].
  - apply NoDup_snoc_fresh; [done|]. cbn. apply next_id_fresh.
  - apply Forall_app. split; [done|]. repeat constructor. cbn. apply next_id_pos.
  - apply Forall_app. split; [done|]. by repeat constructor.
Qed.

Lemma store_variables_ok host_id kvs db :
  db_ok db → host_id ∈ hr_id <$> t_host db → db_ok (store_variables host_id kvs db).
Proof.
  unfold store_variables. revert db. induction kvs as [|kv kvs IH]; intros db Hok Hin; [done|].
  cbn [foldl]. apply IH; [by apply insert_variable_ok|done].
Qed.

Lemma filter_none {A} (P : A → Prop) `{∀ x, Decision (P x)} (l : list A) :
  Forall (λ x, ¬ P x) l → filter P l = [].
Proof.
  induction 1 as [|x l Hx _ IH]; [done|]. by rewrite filter_cons, decide_False.
Qed.

Lemma filter_all {A} (P : A → Prop) `{∀ x, Decision (P x)} (l : list A) :
  Forall P l → filter P l = l.
Proof.
  induction 1 as [|x l Hx _ IH]; [done|]. by rewrite filter_cons, decide_True, IH.
Qed.

Lemma var_items_fresh db host_id :
  refs_ok db → host_id ∉ hr_id <$> t_host db → var_items db host_id = [].
Proof.
  intros [_ Hfv] Hfresh. unfold var_items, Engine.variables_of.
  rewrite filter_none; [done|]. eapply Forall_impl; [exact Hfv|].
  intros v Hv Heq. cbn in Hv. by rewrite Heq in Hv.
Qed.

Lemma hosts_of_fresh db order_id :
  refs_ok db → order_id ∉ or_id <$> t_order db → Engine.hosts_of db order_id = [].
Proof.
  intros [Hfh _] Hfresh. unfold Engine.hosts_of.
  rewrite filter_none; [done|]. eapply Forall_impl; [exact Hfh|].
  intros h Hh Heq. cbn in Hh. by rewrite Heq in Hh.
Qed.

Lemma store_host_spec order_id h db :
  db_ok db → order_id ∈ or_id <$> t_order db →
  let db' := store_host order_id h db in
  let row := HostRow (Engine.next_id (hr_id <$> t_host db)) order_id
                     (Host.address h) (Host.name h) in
  db_ok db' ∧ t_order db' = t_order db ∧ t_host db' = t_host db ++ [row]
  ∧ load_host db' row = reload h
  ∧ ∀ x, x ∈ hr_id <$> t_host db → var_items db' x = var_items db x.
Proof.
  intros Hok Hin. unfold store_host. cbn [Engine.insert_host].
  set (host_id := Engine.next_id (hr_id <$> t_host db)).
  set (row := HostRow host_id order_id (Host.address h) (Host.name h)).
  set (db1 := MkTables (t_order db) (t_host db ++ [row]) (t_variable db)).
  assert (Hok1 : db_ok db1).
  { destruct Hok as [(Ho & Hop & Hh & Hhp & Hv & Hvp) [Hfh Hfv]].
    split; [repeat split; cbn; try done|split; cbn].
    - apply NoDup_snoc_fresh; [done|]. cbn. apply next_id_fresh.
    - apply Forall_app. split; [done|]. repeat constructor. cbn. apply next_id_pos.
    - apply Forall_app. split; [done|]. by repeat constructor.
    - eapply Forall_impl; [exact Hfv|]. intros v Hv'. cbn in *.
      rewrite fmap_app. apply elem_of_app. by left. }
  assert (Hrow : host_id ∈ hr_id <$> t_host db1).
  { cbn. rewrite fmap_app. apply elem_of_app. right. by left. }
  cbn zeta. destruct (store_variables_tables host_id (iteritems (Host.vars h)) db1) as [Hto Hth].
  split; [by apply store_variables_ok|]. split; [done|]. split; [done|]. split.
  - rewrite load_host_items, var_items_store_variables. cbn [hr_id row].
    rewrite decide_True by done.
    assert (var_items db1 host_id = []) as ->.
    { change (var_items db1 host_id) with (var_items db host_id).
      apply var_items_fresh; [apply Hok|apply next_id_fresh]. }
    cbn [app]. unfold __get_host_from_row, Host.new, Host.set_address.
    cbn [hr_name hr_address Host.name Host.address Host.vars row].
    rewrite foldl_host_set. unfold iteritems. by rewrite foldl_insert_items.
  - intros x Hx. rewrite var_items_store_variables.
    rewrite decide_False, app_nil_r; [done|].
    intros <-. by apply (next_id_fresh (hr_id <$> t_host db)).
Qed.

Lemma load_host_ext db db' h :
  var_items db' (hr_id h) = var_items db (hr_id h) → load_host db' h = load_host db h.
Proof. intros Heq. by rewrite !load_host_items, Heq. Qed.

Lemma store_hosts_spec order_id hs db :
  db_ok db → order_id ∈ or_id <$> t_order db →
  let db' := store_hosts order_id hs db in
  db_ok db' ∧ t_order db' = t_order db
  ∧ (∃ rows, t_host db' = t_host db ++ rows
       ∧ Forall (λ r, hr_order_id r = order_id) rows
       ∧ load_host db' <$> rows = reload <$> hs)
  ∧ ∀ x, x ∈ hr_id <$> t_host db → var_items db' x = var_items db x.
Proof.
  unfold store_hosts. revert db. induction hs as [|h hs IH]; intros db Hok Hin.
  { cbn [foldl]. split; [done|]. split; [done|]. split; [|done].
    exists []. by rewrite app_nil_r. }
  cbn [foldl].
  destruct (store_host_spec order_id h db Hok Hin) as (Hok1 & Ho1 & Hh1 & Hload1 & Hv1).
  set (db1 := store_host order_id h db) in *.
  set (row := HostRow _ _ _ _) in *.
  destruct (IH db1 Hok1) as (Hok' & Ho' & (rows & Hh' & Hrows & Hload') & Hv').
  { by rewrite Ho1. }
  cbn zeta in *.
  set (db' := foldl _ db1 hs) in *.
  split; [done|]. split; [congruence|]. split.
  - exists (row :: rows). split; [|split].
    + rewrite Hh', Hh1, <- app_assoc. done.
    + by constructor.
    + cbn [fmap list_fmap]. f_equal; [|done]. rewrite <- Hload1.
      apply load_host_ext, Hv'. rewrite Hh1, fmap_app. apply elem_of_app. right. by left.
  - intros x Hx. rewrite Hv'; [by apply Hv1|].
    rewrite Hh1, fmap_app. apply elem_of_app. by left.
Qed.

Lemma insert_order_ok service status closed created_by now db :
  db_ok db → db_ok (Engine.insert_order service status closed created_by now db).1.
Proof.
  intros [(Ho & Hop & Hh & Hhp & Hv & Hvp) [Hfh Hfv]].
  cbn [Engine.insert_order fst]. split; [repeat split; cbn; try done|split; cbn; try done].
  - apply NoDup_snoc_fresh; [done|]. cbn. apply next_id_fresh.
  - apply Forall_app. split; [done|]. repeat constructor. cbn. apply next_id_pos.
  - eapply Forall_impl; [exact Hfh|]. intros h Hh'. cbn in *.
    rewrite fmap_app. apply elem_of_app. by left.
Qed.

Lemma store_order_spec o hs now db :
  db_ok db →
  let id := Engine.next_id (or_id <$> t_order db) in
  let row := OrderRow id (Order.service o) (Order.status o) now (Order.closed o)
                      (Order.created_by o) in
  let db' := store_order o hs now db in
  db_ok db' ∧ t_order db' = t_order db ++ [row]
  ∧ load_order db' row
    = Order.Mk (Some id) (Order.service o) (Order.status o) (Some now)
               (Order.closed o) (Order.created_by o) (reload <$> hs).
Proof.
  intros Hok. unfold store_order.
  pose proof (insert_order_ok (Order.service o) (Order.status o) (Order.closed o)
                (Order.created_by o) now db Hok) as Hok1.
  cbn [Engine.insert_order fst] in *.
  set (id := Engine.next_id (or_id <$> t_order db)) in *.
  set (row := OrderRow id _ _ _ _ _) in *.
  set (db1 := MkTables (t_order db ++ [row]) (t_host db) (t_variable db)) in *.
  cbn zeta.
  destruct (store_hosts_spec id hs db1 Hok1) as (Hok' & Ho' & (rows & Hh' & Hrows & Hload') & Hv').
  { cbn. rewrite fmap_app. apply elem_of_app. right. by left. }
  cbn zeta in *. set (db' := store_hosts id hs db1) in *.
  split; [done|]. split; [done|].
  unfold load_order. cbn [or_id or_service or_status or_created or_closed or_created_by row].
  f_equal. unfold Engine.hosts_of. rewrite Hh', filter_app.
  assert (filter (λ h, hr_order_id h = id) (t_host db1) = []) as ->.
  { apply (hosts_of_fresh db id); [apply Hok|apply next_id_fresh]. }
  cbn [app]. by rewrite filter_all.
Qed.

(** ** Running the write path *)

Lemma agree_refl w : agree w w.
Proof. by repeat split. Qed.

Lemma agree_trans w1 w2 w3 : agree w1 w2 → agree w2 w3 → agree w1 w3.
Proof. unfold agree. intros H1 H2. destruct_and!. repeat split; congruence. Qed.

Lemma tx_events_write log t b : tx_events (log ++ [EvWrite t b]) = tx_events log.
Proof. unfold tx_events. rewrite filter_app. cbn. by rewrite app_nil_r. Qed.

Ltac world_simpl :=
  cbn [w_data w_tx_depth w_tx_saved w_now w_hosts w_orders w_log w_sync_lock
       with_data with_tx with_sync_lock with_event with_hosts with_orders
       acquire release fst snd] in *.

Ltac agree_tac :=
  unfold agree in *; destruct_and?; world_simpl;
  rewrite ?tx_events_write in *;
  repeat split; try congruence.

Lemma run_add_variable host_id key v w :
  ∃ w' id, __add_variable (Some host_id) (Some key) v w = Some (w', Return id)
    ∧ agree w' (with_data (Engine.insert_variable host_id key v (w_data w)).1 w).
Proof.
  eexists _, _. split; [reflexivity|]. agree_tac.
Qed.

Lemma run_store_variables host_id kvs w :
  ∃ w', for_each kvs (λ kv, __add_variable (Some host_id) (Some kv.1) kv.2) w
        = Some (w', Return tt)
    ∧ agree w' (with_data (store_variables host_id kvs (w_data w)) w).
Proof.
  revert w. induction kvs as [|kv kvs IH]; intros w.
  { eexists. split; [reflexivity|]. agree_tac. }
  cbn [for_each]. unfold bind at 1.
  destruct (run_add_variable host_id kv.1 kv.2 w) as (w1 & id & -> & Hag).
  destruct (IH w1) as (w' & -> & Hag').
  eexists. split; [reflexivity|].
  unfold store_variables in *. cbn [foldl]. agree_tac.
Qed.

Lemma run_add_host_clean order_id href h w :
  w_hosts w !! href = Some h → Host.dirty h = false →
  ∃ w', __add_host (Some order_id) (Some href) w = Some (w', Return None)
    ∧ agree w' w ∧ w_log w' = w_log w.
Proof.
  intros Hh Hd. unfold __add_host, synchronized, bind at 1, read_host.
  cbn [acquire with_sync_lock w_hosts]. rewrite Hh. unfold Host.is_dirty. rewrite Hd.
  eexists. split; [reflexivity|]. split; [agree_tac|done].
Qed.

Lemma run_add_host_dirty order_id href h w :
  w_hosts w !! href = Some h → Host.dirty h = true →
  ∃ w' host_id, __add_host (Some order_id) (Some href) w = Some (w', Return (Some host_id))
    ∧ agree w' (with_hosts (alter Host.untouch href (w_hosts w))
                  (with_data (store_host order_id h (w_data w)) w)).
Proof.
  intros Hh Hd. unfold __add_host, synchronized, bind at 1, read_host.
  cbn [acquire with_sync_lock w_hosts]. rewrite Hh. unfold Host.is_dirty. rewrite Hd.
  cbn [negb]. unfold bind at 1, execute, Host.get_name, Host.get_address, Host.get_all.
  cbn [Engine.insert_host]. world_simpl. unfold bind at 1.
  match goal with |- context [for_each ?kvs _ ?w1] =>
    destruct (run_store_variables (Engine.next_id (hr_id <$> t_host (w_data w))) kvs w1)
      as (w2 & Hrun & Hag) end.
  rewrite Hrun. unfold bind at 1, host_untouch, modify, ret.
  eexists _, _. split; [reflexivity|].
  unfold store_host. cbn [Engine.insert_host]. agree_tac.
Qed.

(** ** What [get_orders] returns *)

Lemma sql_where_sublist {A} (c : Engine.clause A) (l : list A) :
  Engine.sql_where c l `sublist_of` l.
Proof. destruct c; [apply sublist_filter|done]. Qed.

Lemma sql_limit_sublist {A} offset limit (l : list A) :
  Engine.sql_limit offset limit l `sublist_of` l.
Proof.
  unfold Engine.sql_limit. destruct limit.
  - apply sublist_drop.
  - etrans; [apply sublist_take|apply sublist_drop].
Qed.

Lemma sql_limit_fmap {A B} (f : A → B) offset limit (l : list A) :
  Engine.sql_limit offset limit (f <$> l) = f <$> Engine.sql_limit offset limit l.
Proof.
  unfold Engine.sql_limit. destruct limit; by rewrite ?fmap_take, ?fmap_drop.
Qed.

Lemma selected_sublist offset limit kwargs db :
  selected offset limit kwargs db `sublist_of` t_order db.
Proof. etrans; [apply sql_limit_sublist|apply sql_where_sublist]. Qed.

Lemma select_orders_recursive offset limit kwargs db :
  NoDup (or_id <$> t_order db) →
  select_orders offset limit true kwargs db
  = ResultSet true
      (Engine.order_by_desc or_id (selected offset limit kwargs db)
         ≫= Engine.join_order db).
Proof.
  intros Hnd. unfold select_orders, Engine.outerjoin.
  rewrite sql_limit_fmap. fold (selected offset limit kwargs db).
  pose proof (selected_sublist offset limit kwargs db) as Hsub.
  rewrite bind_join_select
    by (eapply sublist_NoDup; [exact Hnd|exact (fmap_sublist or_id _ _ Hsub)]).
  rewrite (filter_sublist_keys or_id) by done. f_equal.
  apply (order_by_desc_bind or_id row_order_id (Engine.join_order db)).
  - apply join_order_rows.
  - intros o Hnil. pose proof (join_order_length db o) as Hlen.
    rewrite Hnil in Hlen. simpl in Hlen. lia.
Qed.

Lemma bind_join_order_length db (L : list order_row) :
  (length L ≤ length (L ≫= Engine.join_order db))%nat.
Proof.
  induction L as [|o L IH]; [done|]. cbn [mbind list_bind]. rewrite length_app.
  pose proof (join_order_length db o). cbn [length]. lia.
Qed.

Lemma get_orders_from_join db (L : list order_row) :
  NoDup (hr_id <$> t_host db) → Forall (λ h, hr_id h ≠ 0) (t_host db) →
  NoDup (or_id <$> L) → Forall (λ o, or_id o ≠ 0) L →
  __get_orders_from_query (ResultSet true (L ≫= Engine.join_order db))
  = Some (load_order db <$> L).
Proof.
  intros Hhnd Hhnz Hnd Hnz. unfold __get_orders_from_query.
  cbn [fetch has_host_columns].
  destruct (L ≫= Engine.join_order db) as [|r rows] eqn:HL.
  - destruct L as [|o L]; [done|]. cbn [mbind list_bind] in HL.
    pose proof (join_order_length db o) as Hlen.
    apply app_eq_nil in HL as [HL _]. rewrite HL in Hlen. simpl in Hlen. lia.
  - rewrite <- HL. rewrite (orders_loop_group db L); [done|done|done|done|done|].
    pose proof (bind_join_order_length db L). lia.
Qed.

Lemma Forall_pos_nonzero {A} (key : A → Z) (l : list A) :
  Forall (λ x, 0 < key x) l → Forall (λ x, key x ≠ 0) l.
Proof. intros H. eapply Forall_impl; [exact H|]. intros x Hx. cbn in Hx. lia. Qed.

(** On tables with proper keys the recursive query returns the selected
    orders, newest first, each with what the tables hold for it. *)
Lemma get_orders_recursive offset limit kwargs w :
  keys_ok (w_data w) →
  get_orders offset limit true kwargs w
  = Some (w, Return (load_order (w_data w)
                       <$> Engine.order_by_desc or_id
                             (selected offset limit kwargs (w_data w)))).
Proof.
  intros (Ho & Hop & Hh & Hhp & _). unfold get_orders.
  rewrite select_orders_recursive by done.
  pose proof (selected_sublist offset limit kwargs (w_data w)) as Hsub.
  rewrite get_orders_from_join; [done|done|by apply Forall_pos_nonzero| |].
  - rewrite order_by_desc_perm.
    eapply sublist_NoDup; [exact Ho|exact (fmap_sublist or_id _ _ Hsub)].
  - rewrite order_by_desc_perm. apply Forall_pos_nonzero.
    rewrite Forall_forall in Hop |- *. intros o Hin. apply Hop.
    by eapply elem_of_sublist.
Qed.

Lemma orders_loop_plain (L : list order_row) fuel order_list :
  Forall (λ o, or_id o ≠ 0) L → (length L < fuel)%nat →
  orders_loop fuel false order_list ((λ o, Row o None None) <$> L)
  = Some (order_list ++ (__get_order_from_row <$> L)).
Proof.
  revert fuel order_list. induction L as [|o L IH]; intros fuel order_list Hnz Hfuel.
  { destruct fuel; [simpl in Hfuel; lia|]. cbn. by rewrite app_nil_r. }
  destruct fuel as [|fuel]; [simpl in Hfuel; lia|].
  apply Forall_cons in Hnz as [Hoz Hnz].
  cbn [fmap list_fmap orders_loop]. unfold row_order_id. cbn [r_order].
  rewrite truthy_Some by done. cbn [negb orb].
  rewrite IH by (done || simpl in Hfuel; lia). by rewrite <- app_assoc.
Qed.

Lemma get_orders_plain offset limit kwargs w :
  Forall (λ o, 0 < or_id o) (t_order (w_data w)) →
  get_orders offset limit false kwargs w
  = Some (w, Return (__get_order_from_row
                       <$> Engine.sql_limit offset limit
                             (Engine.order_by_desc or_id
                                (Engine.sql_where (search_conditions kwargs)
                                   (t_order (w_data w)))))).
Proof.
  intros Hop. unfold get_orders, select_orders, __get_orders_from_query.
  cbn [fetch has_host_columns].
  remember (Engine.sql_limit offset limit
              (Engine.order_by_desc or_id
                 (Engine.sql_where (search_conditions kwargs) (t_order (w_data w)))))
    as L eqn:HL.
  assert (Hnz : Forall (λ o, or_id o ≠ 0) L).
  { apply Forall_pos_nonzero. rewrite Forall_forall in Hop |- *. intros o Hin.
    apply Hop. rewrite HL in Hin.
    eapply elem_of_sublist in Hin; [|apply sql_limit_sublist].
    rewrite order_by_desc_perm in Hin.
    eapply elem_of_sublist; [exact Hin|apply sql_where_sublist]. }
  clear HL. destruct L as [|o L]; [done|].
  pose proof (orders_loop_plain (o :: L) (S (length (o :: L))) [] Hnz ltac:(lia)) as Hrun.
  rewrite fmap_cons in Hrun |- *. cbn [length] in Hrun |- *.
  rewrite length_fmap, Hrun. by rewrite fmap_cons.
Qed.

Lemma selected_limit_2 kwargs db :
  selected 0 2 kwargs db = take 2 (matching kwargs db).
Proof. done. Qed.

Lemma heap_lookup_others (heap heap' : gmap nat Host.t) (hrefs : list (option nat)) hs :
  (∀ href, Some href ∈ hrefs → heap' !! href = heap !! href) →
  Forall2 (λ (r : option nat) h, (href ← r; heap !! href) = Some h) hrefs hs →
  Forall2 (λ (r : option nat) h, (href ← r; heap' !! href) = Some h) hrefs hs.
Proof.
  intros Hsame Hm. induction Hm as [|r h hrefs hs Hr Hm IH]; constructor.
  - destruct r as [href|]; [|done]. cbn in *. rewrite Hsame; [done|by left].
  - apply IH. intros href Hin. apply Hsame. by right.
Qed.

Lemma run_store_hosts order_id hrefs hs w :
  mapM (λ r : option nat, href ← r; w_hosts w !! href) hrefs = Some hs →
  NoDup hrefs → Forall (λ h, Host.dirty h = true) hs →
  ∃ w', for_each hrefs (λ host, __add_host (Some order_id) host) w = Some (w', Return tt)
    ∧ agree w' (with_hosts (untouch_hosts hrefs (w_hosts w))
                  (with_data (store_hosts order_id hs (w_data w)) w)).
Proof.
  intros Hm. apply mapM_Some in Hm. revert hs w Hm.
  induction hrefs as [|r hrefs IH]; intros hs w Hm Hnd Hd.
  { apply Forall2_nil_inv_l in Hm as ->. eexists. split; [reflexivity|]. agree_tac. }
  apply Forall2_cons_inv_l in Hm as (h & hs' & Hr & Hm & ->).
  apply NoDup_cons in Hnd as [Hr' Hnd]. apply Forall_cons in Hd as [Hdh Hd].
  destruct r as [href|]; [|done]. cbn in Hr.
  cbn [for_each]. unfold bind at 1.
  destruct (run_add_host_dirty order_id href h w Hr Hdh) as (w1 & host_id & -> & Hag).
  destruct (IH hs' w1) as (w' & -> & Hag'); [|done|done|].
  - apply (heap_lookup_others (w_hosts w)); [|done].
    intros href' Hin. destruct Hag as (_ & _ & _ & _ & -> & _). world_simpl.
    rewrite lookup_alter_ne; [done|]. intros ->. by apply Hr'.
  - eexists. split; [reflexivity|].
    unfold untouch_hosts, store_hosts in *. cbn [foldl]. agree_tac.
Qed.

Lemma run_add_order oref o hs w :
  w_orders w !! oref = Some o → order_hosts w o = Some hs →
  NoDup (Order.hosts o) → Forall (λ h, Host.dirty h = true) hs →
  ∃ w', __add_order (Some oref) true w
        = Some (w', Return (Some (Engine.next_id (or_id <$> t_order (w_data w)))))
    ∧ agree w'
        (with_orders (alter (λ o, Order.set_id o
                                (Some (Engine.next_id (or_id <$> t_order (w_data w)))))
                            oref (w_orders w))
           (with_hosts (untouch_hosts (Order.hosts o) (w_hosts w))
              (with_data (store_order o hs (w_now w) (w_data w)) w))).
Proof.
  intros Ho Hhs Hnd Hd. unfold __add_order, synchronized, bind at 1, read_order.
  cbn [acquire with_sync_lock w_orders]. rewrite Ho.
  unfold bind at 1, gets. unfold bind at 1, execute.
  unfold Order.get_service_name, Order.get_status, Order.get_closed_timestamp,
    Order.get_created_by, Order.get_hosts.
  cbn [Engine.insert_order]. world_simpl. unfold bind at 1, order_set_id, modify.
  cbn [negb]. unfold bind at 1.
  match goal with |- context [for_each _ _ ?w1] =>
    destruct (run_store_hosts (Engine.next_id (or_id <$> t_order (w_data w)))
                (Order.hosts o) hs w1 Hhs Hnd Hd) as (w2 & Hrun & Hag) end.
  rewrite Hrun. unfold ret.
  eexists. split; [reflexivity|].
  unfold store_order. cbn [Engine.insert_order]. agree_tac.
Qed.

Lemma run_tx_begin w :
  ∃ wb, tx_begin w = Some (wb, Return tt)
    ∧ w_data wb = w_data w ∧ w_hosts wb = w_hosts w ∧ w_orders wb = w_orders w
    ∧ w_now wb = w_now w ∧ w_tx_depth wb = S (w_tx_depth w)
    ∧ w_tx_saved wb = (if w_tx_depth w is O then w_data w else w_tx_saved w)
    ∧ tx_events (w_log wb)
      = tx_events (w_log w) ++ (if w_tx_depth w is O then [EvBegin] else []).
Proof.
  unfold tx_begin, modify, begin_world. eexists. split; [reflexivity|].
  destruct (w_tx_depth w); world_simpl; repeat split; try done.
  - unfold tx_events. by rewrite filter_app.
  - by rewrite app_nil_r.
Qed.

Lemma run_tx_commit w d :
  w_tx_depth w = S d →
  ∃ wc, tx_commit w = Some (wc, Return tt)
    ∧ w_data wc = w_data w ∧ w_hosts wc = w_hosts w ∧ w_orders wc = w_orders w
    ∧ w_now wc = w_now w ∧ w_tx_depth wc = d ∧ w_tx_saved wc = w_tx_saved w
    ∧ tx_events (w_log wc)
      = tx_events (w_log w) ++ (if d is O then [EvCommit] else []).
Proof.
  intros Hd. unfold tx_commit, modify, commit_world. eexists. split; [reflexivity|].
  rewrite Hd. destruct d; world_simpl; repeat split; try done.
  - unfold tx_events. by rewrite filter_app.
  - by rewrite app_nil_r.
Qed.

Lemma run_add_order_scalar oref o hs w :
  w_orders w !! oref = Some o → order_hosts w o = Some hs →
  NoDup (Order.hosts o) → Forall (λ h, Host.dirty h = true) hs →
  ∃ w', add_order (Some (Scalar (Some oref))) true w = Some (w', Return tt)
    ∧ w_data w' = store_order o hs (w_now w) (w_data w)
    ∧ w_hosts w' = untouch_hosts (Order.hosts o) (w_hosts w)
    ∧ w_orders w'
      = alter (λ o, Order.set_id o (Some (Engine.next_id (or_id <$> t_order (w_data w)))))
              oref (w_orders w)
    ∧ w_tx_depth w' = w_tx_depth w.
Proof.
  intros Ho Hhs Hnd Hd. unfold add_order, to_list. unfold bind at 1.
  destruct (run_tx_begin w) as (wb & -> & Hbd & Hbh & Hbo & Hbn & Hbt & _).
  unfold try_except_reraise. cbn [for_each]. unfold bind at 1. unfold bind at 1.
  destruct (run_add_order oref o hs wb) as (w1 & -> & Hag);
    [by rewrite Hbo|by unfold order_hosts; rewrite Hbh|done|done|].
  unfold ret.
  destruct (run_tx_commit w1 (w_tx_depth w)) as (wc & -> & Hcd & Hch & Hco & Hcn & Hct & _).
  { destruct Hag as (_ & -> & _). world_simpl. done. }
  eexists. split; [reflexivity|].
  destruct Hag as (Hd1 & _ & _ & _ & Hh1 & Ho1 & _). world_simpl.
  rewrite Hbd, ?Hbn in Hd1. rewrite Hbh in Hh1. rewrite Hbd, Hbo in Ho1.
  repeat split; congruence.
Qed.

(** ** The grouper looks at identifiers only *)

Lemma orders_loop_acc fuel joined order_list rows :
  orders_loop fuel joined order_list rows
  = (order_list ++.) <$> orders_loop fuel joined [] rows.
Proof.
  revert order_list rows. induction fuel as [|fuel IH]; intros order_list rows; [done|].
  destruct rows as [|r rest]; cbn [orders_loop].
  { cbn. by rewrite app_nil_r. }
  destruct (negb (truthy (Some (row_order_id r)))).
  { cbn. by rewrite app_nil_r. }
  destruct (negb joined || negb (truthy (row_host_id r))).
  { rewrite IH, (IH ([] ++ _)). destruct (orders_loop fuel joined [] rest); [|done].
    cbn. by rewrite <- app_assoc. }
  destruct (hosts_loop _ _ _ _) as [[order rows']|]; [|done].
  destruct rows' as [|r' rows']; [done|].
  rewrite IH, (IH ([] ++ _)). destruct (orders_loop fuel joined [] (r' :: rows')); [|done].
  cbn. by rewrite <- app_assoc.
Qed.

Lemma row_ids_inv r1 r2 :
  row_ids r1 = row_ids r2 →
  row_order_id r1 = row_order_id r2
  ∧ row_host_id r1 = row_host_id r2
  ∧ row_variable_host_id r1 = row_variable_host_id r2.
Proof. unfold row_ids. intros [= -> -> ->]. done. Qed.

Lemma variables_loop_ids last_host_id host1 host2 rows1 rows2 :
  Forall2 (λ r1 r2, row_ids r1 = row_ids r2) rows1 rows2 →
  Forall2 (λ r1 r2, row_ids r1 = row_ids r2)
    (variables_loop last_host_id host1 rows1).2
    (variables_loop last_host_id host2 rows2).2.
Proof.
  intros Hrows. revert host1 host2.
  induction Hrows as [|r1 r2 rows1 rows2 Hr Hrows IH]; intros host1 host2; [done|].
  apply row_ids_inv in Hr as Hr'. destruct Hr' as (_ & _ & Hv).
  unfold row_variable_host_id in Hv. cbn [variables_loop].
  destruct (r_variable r1) as [v1|], (r_variable r2) as [v2|]; try done;
    [|by constructor].
  cbn in Hv. injection Hv as Hv. rewrite Hv.
  destruct (truthy (Some (vr_host_id v2))); [|by constructor].
  cbn [__get_variable_from_row].
  destruct Hrows as [|r1' r2' rows1 rows2 Hr1 Hrows]; [done|].
  apply row_ids_inv in Hr1 as Hr1'. destruct Hr1' as (_ & Hh & _). rewrite Hh.
  destruct (bool_decide _); [by constructor|]. apply IH.
Qed.

Lemma hosts_loop_ids fuel last_order_id order1 order2 rows1 rows2 :
  Forall2 (λ r1 r2, row_ids r1 = row_ids r2) rows1 rows2 →
  length (Order.hosts order1) = length (Order.hosts order2) →
  match hosts_loop fuel last_order_id order1 rows1,
        hosts_loop fuel last_order_id order2 rows2 with
  | Some (o1, rest1), Some (o2, rest2) =>
      length (Order.hosts o1) = length (Order.hosts o2)
      ∧ Order.id o1 = Order.id order1 ∧ Order.id o2 = Order.id order2
      ∧ Forall2 (λ r1 r2, row_ids r1 = row_ids r2) rest1 rest2
  | None, None => True
  | _, _ => False
  end.
Proof.
  revert order1 order2 rows1 rows2.
  induction fuel as [|fuel IH]; intros order1 order2 rows1 rows2 Hrows Hlen; [done|].
  destruct Hrows as [|r1 r2 rows1 rows2 Hr Hrows]; [done|].
  apply row_ids_inv in Hr as Hr'. destruct Hr' as (Ho & Hh & Hv).
  unfold row_host_id in Hh. cbn [hosts_loop].
  destruct (r_host r1) as [h1|], (r_host r2) as [h2|]; try done;
    [|by repeat split; try constructor].
  cbn in Hh. injection Hh as Hh. rewrite Hh, Ho, Hv.
  destruct (truthy (Some (hr_id h2))); [|by repeat split; try constructor].
  destruct (bool_decide _); [by repeat split; try constructor|].
  destruct (truthy (row_variable_host_id r2)); cbn [negb].
  - pose proof (variables_loop_ids (hr_id h2) (__get_host_from_row h1)
                  (__get_host_from_row h2) (r1 :: rows1) (r2 :: rows2)
                  ltac:(by constructor)) as Hvl.
    destruct (variables_loop _ _ (r1 :: rows1)) as [host1 rest1].
    destruct (variables_loop _ _ (r2 :: rows2)) as [host2 rest2].
    specialize (IH (Order.add_host order1 host1) (Order.add_host order2 host2)
                  rest1 rest2 Hvl).
    cbn in IH. rewrite !length_app in IH. cbn in IH.
    by apply IH; lia.
  - specialize (IH (Order.add_host order1 (__get_host_from_row h1))
                  (Order.add_host order2 (__get_host_from_row h2)) rows1 rows2 Hrows).
    cbn in IH. rewrite !length_app in IH. cbn in IH.
    by apply IH; lia.
Qed.

Lemma orders_loop_ids fuel joined acc1 acc2 rows1 rows2 :
  Forall2 (λ r1 r2, row_ids r1 = row_ids r2) rows1 rows2 →
  shapes acc1 = shapes acc2 →
  shapes <$> orders_loop fuel joined acc1 rows1
  = shapes <$> orders_loop fuel joined acc2 rows2.
Proof.
  revert acc1 acc2 rows1 rows2.
  induction fuel as [|fuel IH]; intros acc1 acc2 rows1 rows2 Hrows Hacc; [done|].
  destruct Hrows as [|r1 r2 rows1 rows2 Hr Hrows]; [by cbn; rewrite Hacc|].
  apply row_ids_inv in Hr as Hr'. destruct Hr' as (Ho & Hh & Hv).
  cbn [orders_loop]. rewrite Ho, Hh.
  destruct (negb (truthy (Some (row_order_id r2)))); [by cbn; rewrite Hacc|].
  assert (Hacc' : ∀ o1 o2, order_shape o1 = order_shape o2 →
            shapes (acc1 ++ [o1]) = shapes (acc2 ++ [o2])).
  { intros o1 o2 Heq. unfold shapes in *. rewrite !fmap_app, Hacc. cbn. by rewrite Heq. }
  destruct (negb joined || negb (truthy (row_host_id r2))).
  { apply IH; [done|]. apply Hacc'. unfold order_shape, row_order_id in *. cbn.
    by rewrite Ho. }
  cbn [length]. rewrite (Forall2_length _ _ _ Hrows).
  pose proof (hosts_loop_ids (S (length (r2 :: rows2))) (row_order_id r2)
                (__get_order_from_row (r_order r1)) (__get_order_from_row (r_order r2))
                (r1 :: rows1) (r2 :: rows2) ltac:(by constructor) eq_refl) as Hhl.
  cbn [length] in Hhl |- *.
  destruct (hosts_loop _ _ _ (r1 :: rows1)) as [[o1 rest1]|],
           (hosts_loop _ _ _ (r2 :: rows2)) as [[o2 rest2]|]; try done.
  destruct Hhl as (Hlen & Hid1 & Hid2 & Hrest).
  assert (Hshape : order_shape o1 = order_shape o2).
  { unfold order_shape. rewrite Hlen, Hid1, Hid2. cbn. unfold row_order_id in Ho. by rewrite Ho. }
  destruct Hrest as [|r1' r2' rest1 rest2 Hr1 Hrest].
  - cbn. f_equal. by apply Hacc'.
  - apply IH; [by constructor|by apply Hacc'].
Qed.

Lemma get_orders_from_query_ids joined rows1 rows2 :
  row_ids <$> rows1 = row_ids <$> rows2 →
  shapes <$> __get_orders_from_query (ResultSet joined rows1)
  = shapes <$> __get_orders_from_query (ResultSet joined rows2).
Proof.
  intros Hids.
  assert (Hrows : Forall2 (λ r1 r2, row_ids r1 = row_ids r2) rows1 rows2).
  { revert rows2 Hids. induction rows1 as [|r1 rows1 IH]; intros [|r2 rows2] Hids;
      try done. rewrite !fmap_cons in Hids.
    apply (inj2 cons) in Hids as [Hr Hids]. constructor; [exact Hr|by apply IH]. }
  unfold __get_orders_from_query. cbn [fetch has_host_columns].
  destruct Hrows as [|r1 r2 rows1 rows2 Hr Hrows]; [done|].
  cbn [length]. rewrite (Forall2_length _ _ _ Hrows).
  apply orders_loop_ids; [by constructor|done].
Qed.

(** ** The search conditions *)

Lemma clause_holds_or {A} (a b : Engine.clause A) (r : A) :
  b ≠ None →
  clause_holds (Engine.or_ a b) r ↔ (a ≠ None ∧ clause_holds a r) ∨ clause_holds b r.
Proof.
  destruct a as [p|], b as [q|]; try done; cbn; intros _.
  - rewrite orb_True. split; [intros [?|?]; [left|right]; done|tauto].
  - tauto.
Qed.

Lemma clause_holds_and {A} (a b : Engine.clause A) (r : A) :
  clause_holds (Engine.and_ a b) r ↔ clause_holds a r ∧ clause_holds b r.
Proof.
  destruct a as [p|], b as [q|]; cbn; rewrite ?andb_True; tauto.
Qed.

Lemma field_cond_foldl {A} `{EqDecision A} (col : order_row → A) (values : list A)
    (c : Engine.clause order_row) :
  let c' := foldl (λ cond v, Engine.or_ cond (Some (λ r, bool_decide (col r = v))))
                  c values in
  (c' = None ↔ c = None ∧ values = [])
  ∧ ∀ r, c' ≠ None →
      clause_holds c' r ↔ (c ≠ None ∧ clause_holds c r) ∨ col r ∈ values.
Proof.
  revert c. induction values as [|v values IH]; intros c; cbn [foldl].
  { split; [naive_solver|]. intros r Hc. rewrite elem_of_nil. naive_solver. }
  destruct (IH (Engine.or_ c (Some (λ r, bool_decide (col r = v))))) as [Hnone Hholds].
  cbn zeta in *. split.
  - rewrite Hnone. split; [|naive_solver]. intros [Hor _]. by destruct c.
  - intros r Hc. rewrite (Hholds r Hc), clause_holds_or by done. cbn.
    rewrite bool_decide_spec, elem_of_cons.
    assert (Engine.or_ c (Some (λ r, bool_decide (col r = v))) ≠ None) by by destruct c.
    naive_solver.
Qed.

Lemma field_cond_holds {A} `{EqDecision A} (col : order_row → A) (crit : arg A) r :
  clause_holds (field_cond col (to_list crit)) r ↔ field_holds (Some crit) (col r).
Proof.
  unfold field_cond, field_holds.
  destruct (field_cond_foldl col (to_list crit) None) as [Hnone Hholds]. cbn zeta in *.
  destruct (to_list crit) as [|v vs] eqn:Hvs.
  - cbn. naive_solver.
  - rewrite Hholds by (rewrite Hnone; naive_solver). naive_solver.
Qed.

Lemma search_conditions_hold kwargs o :
  clause_holds (search_conditions kwargs) o ↔ criteria_hold kwargs o.
Proof.
  unfold search_conditions, criteria_hold.
  destruct kwargs as [[i|] [s|] [t|]]; cbn [kw_id kw_service kw_status];
    rewrite ?clause_holds_and, ?field_cond_holds; cbn; naive_solver.
Qed.

Lemma sql_where_filter {A} (c : Engine.clause A) (l : list A) :
  Engine.sql_where c l = filter (clause_holds c) l.
Proof.
  destruct c as [p|]; cbn; [done|]. by rewrite filter_all by by apply Forall_true.
Qed.

Lemma matching_filter kwargs db :
  matching kwargs db = filter (criteria_hold kwargs) (t_order db).
Proof.
  unfold matching. rewrite sql_where_filter. apply filter_ext_in.
  intros o _. apply search_conditions_hold.
Qed.

Lemma criteria_hold_match kwargs o :
  criteria_nonempty kwargs → criteria_hold kwargs o ↔ criteria_match kwargs o.
Proof.
  intros (Hi & Hs & Ht). unfold criteria_hold, criteria_match, field_holds, field_matches.
  destruct kwargs as [[i|] [s|] [t|]]; cbn [kw_id kw_service kw_status] in *;
    naive_solver.
Qed.

(** ** Transactions and the write path *)

Create HintDb tx discriminated.

Lemma tx_neutral_ret {A} (a : A) : tx_neutral (ret a).
Proof. intros w w' r [= <- <-]. done. Qed.

Lemma tx_neutral_raise {A} e : tx_neutral (raise (A:=A) e).
Proof. intros w w' r [= <- <-]. done. Qed.

Lemma tx_neutral_gets {A} (f : World → A) : tx_neutral (gets f).
Proof. intros w w' r [= <- <-]. done. Qed.

Lemma tx_neutral_bind {A B} (m : M A) (k : A → M B) :
  tx_neutral m → (∀ a, tx_neutral (k a)) → tx_neutral (bind m k).
Proof.
  intros Hm Hk w w' r. unfold bind. destruct (m w) as [[w1 [a|e]]|] eqn:Hrun; [| |done].
  - intros Hk'. destruct (Hm _ _ _ Hrun) as (? & ? & ? & ?).
    destruct (Hk a _ _ _ Hk') as (? & ? & ? & ?). repeat split; congruence.
  - intros [= <- <-]. by apply (Hm _ _ _ Hrun).
Qed.

Lemma tx_neutral_for_each {A B} (l : list A) (body : A → M B) :
  (∀ a, tx_neutral (body a)) → tx_neutral (for_each l body).
Proof.
  intros Hbody. induction l as [|x l IH]; cbn [for_each].
  - apply tx_neutral_ret.
  - apply tx_neutral_bind; [apply Hbody|done].
Qed.

Lemma tx_neutral_synchronized {A} (func : M A) :
  tx_neutral func → tx_neutral (synchronized func).
Proof.
  intros Hf w w' r. unfold synchronized.
  destruct (func (acquire w)) as [[w1 r1]|] eqn:Hrun; [|done].
  intros [= <- <-]. by apply (Hf _ _ _ Hrun).
Qed.

Lemma tx_neutral_execute {A} t (stmt : Tables → Tables * A) : tx_neutral (execute t stmt).
Proof.
  intros w w' r. unfold execute. destruct (stmt (w_data w)) as [db a].
  intros [= <- <-]. world_simpl. by rewrite tx_events_write.
Qed.

Lemma tx_neutral_read_host href : tx_neutral (read_host href).
Proof.
  intros w w' r. unfold read_host. destruct (w_hosts w !! href); [|done].
  by intros [= <- <-].
Qed.

Lemma tx_neutral_read_order oref : tx_neutral (read_order oref).
Proof.
  intros w w' r. unfold read_order. destruct (w_orders w !! oref); [|done].
  by intros [= <- <-].
Qed.

Lemma tx_neutral_host_untouch href : tx_neutral (host_untouch href).
Proof. by intros w w' r [= <- <-]. Qed.

Lemma tx_neutral_order_set_id oref i : tx_neutral (order_set_id oref i).
Proof. by intros w w' r [= <- <-]. Qed.

Lemma tx_neutral_get_orders offset limit recursive kwargs :
  tx_neutral (get_orders offset limit recursive kwargs).
Proof.
  intros w w' r. unfold get_orders. destruct (__get_orders_from_query _); [|done].
  by intros [= <- <-].
Qed.

#[global] Hint Resolve tx_neutral_ret tx_neutral_raise tx_neutral_gets
  tx_neutral_bind tx_neutral_for_each tx_neutral_synchronized tx_neutral_execute
  tx_neutral_read_host tx_neutral_read_order tx_neutral_host_untouch
  tx_neutral_order_set_id tx_neutral_get_orders : tx.

Ltac tx_neutral_tac :=
  repeat first
    [ progress (intros)
    | apply tx_neutral_synchronized | apply tx_neutral_bind
    | apply tx_neutral_for_each
    | match goal with |- tx_neutral (match ?x with _ => _ end) => destruct x end
    | match goal with |- tx_neutral (if ?x then _ else _) => destruct x end
    | solve [eauto with tx] ].

Lemma tx_neutral_add_variable host_id key v : tx_neutral (__add_variable host_id key v).
Proof. unfold __add_variable. tx_neutral_tac. Qed.

Lemma tx_neutral_save_variable host_id key v : tx_neutral (__save_variable host_id key v).
Proof. unfold __save_variable. tx_neutral_tac. Qed.

#[global] Hint Resolve tx_neutral_add_variable tx_neutral_save_variable : tx.

Lemma tx_neutral_add_host order_id host : tx_neutral (__add_host order_id host).
Proof. unfold __add_host. tx_neutral_tac. Qed.

Lemma tx_neutral_save_host order_id host : tx_neutral (__save_host order_id host).
Proof. unfold __save_host. tx_neutral_tac. Qed.

#[global] Hint Resolve tx_neutral_add_host tx_neutral_save_host : tx.

Lemma tx_neutral_add_order order recursive : tx_neutral (__add_order order recursive).
Proof. unfold __add_order. tx_neutral_tac. Qed.

Lemma tx_neutral_get_order kwargs : tx_neutral (get_order kwargs).
Proof. unfold get_order. tx_neutral_tac. Qed.

#[global] Hint Resolve tx_neutral_add_order tx_neutral_get_order : tx.

Lemma tx_events_snoc log e :
  is_tx_event e = true → tx_events (log ++ [e]) = tx_events log ++ [e].
Proof.
  intros He. unfold tx_events. rewrite filter_app, filter_cons, filter_nil.
  by rewrite decide_True by by rewrite He.
Qed.

Lemma tx_neutral_nested {A} (m : M A) : tx_neutral m → tx_nested m.
Proof.
  intros Hm w w' r Hrun _. destruct (Hm _ _ _ Hrun) as (? & ? & ? & ?).
  split; [done|]. split; [done|]. by left.
Qed.

Lemma tx_nested_bind {A B} (m : M A) (k : A → M B) :
  tx_nested m → (∀ a, tx_nested (k a)) → tx_nested (bind m k).
Proof.
  intros Hm Hk w w' r. unfold bind.
  destruct (m w) as [[w1 [a|e]]|] eqn:Hrun; [| |done]; intros Hk' Hpos.
  - destruct (Hm _ _ _ Hrun Hpos) as (Hs & Hn & [[Hd He]|[[] _]]).
    destruct (Hk a _ _ _ Hk') as (Hs' & Hn' & Hcase); [lia|].
    split; [congruence|]. split; [congruence|].
    destruct Hcase as [[? ?]|(? & ? & ? & ?)]; [left|right]; repeat split;
      try done; congruence.
  - injection Hk' as <- <-. destruct (Hm _ _ _ Hrun Hpos) as (Hs & Hn & Hcase).
    split; [done|]. split; [done|].
    destruct Hcase as [?|(_ & ?)]; [by left|by right].
Qed.

Lemma tx_nested_for_each {A B} (l : list A) (body : A → M B) :
  (∀ a, tx_nested (body a)) → tx_nested (for_each l body).
Proof.
  intros Hbody. induction l as [|x l IH]; cbn [for_each].
  - apply tx_neutral_nested, tx_neutral_ret.
  - apply tx_nested_bind; [apply Hbody|done].
Qed.

Lemma tx_nested_synchronized {A} (func : M A) :
  tx_nested func → tx_nested (synchronized func).
Proof.
  intros Hf w w' r. unfold synchronized.
  destruct (func (acquire w)) as [[w1 r1]|] eqn:Hrun; [|done].
  intros [= <- <-] Hpos. by apply (Hf _ _ _ Hrun).
Qed.

Lemma tx_nested_add_order orders recursive : tx_nested (add_order orders recursive).
Proof.
  destruct orders as [orders|]; [|apply tx_neutral_nested, tx_neutral_raise].
  intros w w' r Hrun Hpos. unfold add_order, bind at 1 in Hrun.
  destruct (run_tx_begin w) as (wb & Hb & Hbd & _ & _ & Hbn & Hbt & Hbs & Hbe).
  rewrite Hb in Hrun. destruct (w_tx_depth w) as [|d] eqn:Hd; [lia|].
  rewrite app_nil_r in Hbe. unfold try_except_reraise in Hrun.
  pose proof (tx_neutral_for_each (to_list orders) (λ order, __add_order order recursive)
                ltac:(intros; apply tx_neutral_add_order)) as Hloop.
  unfold bind at 1 in Hrun.
  destruct (for_each _ _ wb) as [[w1 [[]|e]]|] eqn:Hfor; [| |done];
    destruct (Hloop _ _ _ Hfor) as (H1d & H1s & H1n & H1e).
  - destruct (run_tx_commit w1 (S d)) as (wc & Hc & _ & _ & _ & Hcn & Hct & Hcs & Hce);
      [congruence|]. rewrite Hc in Hrun. injection Hrun as <- <-.
    rewrite app_nil_r in Hce.
    split; [congruence|]. split; [congruence|]. left. split; congruence.
  - unfold tx_rollback, modify, rollback_world in Hrun. rewrite H1d, Hbt in Hrun.
    injection Hrun as <- <-. world_simpl.
    split; [congruence|]. split; [congruence|]. right.
    split; [done|]. split; [done|]. split; [congruence|].
    rewrite tx_events_snoc by done. congruence.
Qed.

Lemma tx_nested_save_order order recursive : tx_nested (__save_order order recursive).
Proof.
  unfold __save_order. apply tx_nested_synchronized.
  destruct order as [oref|]; [|apply tx_neutral_nested, tx_neutral_raise].
  apply tx_nested_bind; [apply tx_neutral_nested, tx_neutral_read_order|]. intros o.
  apply tx_nested_bind.
  { apply tx_neutral_nested. destruct (truthy (Order.id o)); eauto with tx. }
  intros [theorder|]; [|apply tx_nested_add_order].
  destruct (Order.get_id o) as [id|]; [|by intros w w' r [=]].
  apply tx_neutral_nested. tx_neutral_tac.
Qed.

(** [tx_begin], the [try] block, and the handler, when no transaction is
    open: one transaction, committed on return and rolled back on an
    exception. *)
Lemma run_transaction (body : M unit) w w' r :
  tx_nested body → w_tx_depth w = O →
  (tx_begin ;; try_except_reraise (body ;; tx_commit) tx_rollback) w = Some (w', r) →
  w_tx_depth w' = O
  ∧ match r with
    | Return _ => tx_events (w_log w') = tx_events (w_log w) ++ [EvBegin; EvCommit]
    | Raise e =>
        w_data w' = w_data w
        ∧ tx_events (w_log w') = tx_events (w_log w) ++ [EvBegin; EvRollback]
        ∧ ∃ wb w1, tx_begin w = Some (wb, Return tt)
                   ∧ (body ;; tx_commit) wb = Some (w1, Raise e)
    end.
Proof.
  intros Hbody Hd Hrun. unfold bind at 1 in Hrun.
  destruct (run_tx_begin w) as (wb & Hb & Hbd & _ & _ & Hbn & Hbt & Hbs & Hbe).
  rewrite Hb in Hrun. rewrite Hd in *. unfold try_except_reraise in Hrun.
  destruct ((body ;; tx_commit) wb) as [[w1 r1]|] eqn:Htry; [|done].
  unfold bind in Htry. destruct (body wb) as [[w2 [[]|e]]|] eqn:Hrun2; [| |done].
  - destruct (Hbody _ _ _ Hrun2) as (H2s & H2n & [[H2d H2e]|[[] _]]); [lia|].
    destruct (run_tx_commit w2 O) as (wc & Hc & _ & _ & _ & Hcn & Hct & Hcs & Hce);
      [congruence|]. rewrite Hc in Htry. injection Htry as <- <-. injection Hrun as <- <-.
    split; [done|]. rewrite Hce, H2e, Hbe, <- app_assoc. done.
  - injection Htry as <- <-.
    destruct (Hbody _ _ _ Hrun2) as (H2s & H2n & Hcase); [lia|].
    unfold tx_rollback, modify, rollback_world in Hrun.
    destruct Hcase as [[H2d H2e]|(_ & H2d & H2data & H2e)].
    + rewrite H2d, Hbt in Hrun. injection Hrun as <- <-. world_simpl.
      split; [done|]. split; [congruence|]. split.
      * rewrite tx_events_snoc by done. rewrite H2e, Hbe, <- app_assoc. done.
      * exists wb, w2. split; [done|]. unfold bind. by rewrite Hrun2.
    + rewrite H2d in Hrun. injection Hrun as <- <-.
      split; [done|]. split; [congruence|]. split.
      * rewrite H2e, Hbe, <- app_assoc. done.
      * exists wb, w2. split; [done|]. unfold bind. by rewrite Hrun2.
Qed.

(** ** Running the save path *)

Lemma head_filter_None {A} (P : A → Prop) `{∀ x, Decision (P x)} (l : list A) :
  head (filter P l) = None ↔ ¬ Exists P l.
Proof.
  induction l as [|x l IH]; [rewrite Exists_nil; cbn; tauto|].
  rewrite filter_cons, Exists_cons. destruct (decide (P x)); cbn; [|tauto].
  split; [done|tauto].
Qed.

Lemma head_filter_Exists {A} (P : A → Prop) `{∀ x, Decision (P x)} (l : list A) x :
  head (filter P l) = Some x → Exists P l.
Proof.
  intros Hsome. destruct (decide (Exists P l)) as [|Hn]; [done|].
  apply (proj2 (head_filter_None P l)) in Hn. congruence.
Qed.

Lemma head_filter_find {A} (P : A → Prop) `{∀ x, Decision (P x)} (l : list A) :
  head (filter P l) = snd <$> list_find P l.
Proof.
  induction l as [|x l IH]; [done|]. rewrite filter_cons. cbn [list_find].
  destruct (decide (P x)); [done|]. rewrite IH. by destruct (list_find P l) as [[]|].
Qed.

Lemma run_save_variable host_id key v w :
  ∃ w', __save_variable (Some host_id) (Some key) v w = Some (w', Return tt)
    ∧ agree w' (with_data (upsert_variable host_id key v (w_data w)) w).
Proof.
  unfold __save_variable, synchronized, bind at 1, gets, upsert_variable.
  unfold Engine.select_variable. world_simpl.
  destruct (head _) as [thevar|] eqn:Hsel.
  - apply head_filter_Exists in Hsel. rewrite decide_True by done.
    eexists. split; [reflexivity|]. agree_tac.
  - apply head_filter_None in Hsel. rewrite decide_False by done.
    eexists. split; [reflexivity|]. agree_tac.
Qed.

Lemma run_save_variables host_id kvs w :
  ∃ w', for_each kvs (λ kv, __save_variable (Some host_id) (Some kv.1) kv.2) w
        = Some (w', Return tt)
    ∧ agree w' (with_data (upsert_variables host_id kvs (w_data w)) w).
Proof.
  revert w. induction kvs as [|kv kvs IH]; intros w.
  { eexists. split; [reflexivity|]. agree_tac. }
  cbn [for_each]. unfold bind at 1.
  destruct (run_save_variable host_id kv.1 kv.2 w) as (w1 & -> & Hag).
  destruct (IH w1) as (w' & -> & Hag').
  eexists. split; [reflexivity|].
  unfold upsert_variables in *. cbn [foldl]. agree_tac.
Qed.

Lemma alter_untouch_clean (heap : gmap nat Host.t) href h :
  heap !! href = Some h → Host.dirty h = false → alter Host.untouch href heap = heap.
Proof.
  intros Hh Hd. apply map_eq. intros i. rewrite lookup_alter.
  destruct (decide (href = i)) as [<-|]; [|done]. rewrite Hh. cbn. f_equal.
  destruct h as [n a vs d]. cbn in Hd. by subst d.
Qed.

Lemma run_save_host order_id href h w :
  w_hosts w !! href = Some h →
  ∃ w' r, __save_host (Some order_id) (Some href) w = Some (w', Return r)
    ∧ agree w' (with_hosts (alter Host.untouch href (w_hosts w))
                  (with_data (save_host order_id h (w_data w)) w))
    ∧ (Host.dirty h = false → w_log w' = w_log w).
Proof.
  intros Hh. unfold __save_host, synchronized, bind at 1, read_host, save_host.
  cbn [acquire with_sync_lock w_hosts]. rewrite Hh. unfold Host.is_dirty.
  destruct (Host.dirty h) eqn:Hd; cbn [negb].
  2:{ eexists _, _. split; [reflexivity|]. split; [|done].
      rewrite (alter_untouch_clean _ _ h) by done. agree_tac. }
  unfold bind at 1, gets, Engine.select_host, upsert_host_row,
    Host.get_name, Host.get_address, Host.get_all. world_simpl.
  rewrite head_filter_find.
  destruct (list_find _ _) as [[i thehost]|] eqn:Hfind; cbn [fmap option_fmap option_map snd].
  - unfold bind at 1, execute. world_simpl. unfold bind at 1.
    match goal with |- context [for_each ?kvs _ ?w1] =>
      destruct (run_save_variables (hr_id thehost) kvs w1) as (w2 & Hrun & Hag) end.
    rewrite Hrun. unfold bind at 1, host_untouch, modify, ret.
    eexists _, _. split; [reflexivity|]. split; [|done]. agree_tac.
  - unfold bind at 1, execute. cbn [Engine.insert_host]. world_simpl. unfold bind at 1.
    match goal with |- context [for_each ?kvs _ ?w1] =>
      destruct (run_save_variables (Engine.next_id (hr_id <$> t_host (w_data w))) kvs w1)
        as (w2 & Hrun & Hag) end.
    rewrite Hrun. unfold bind at 1, host_untouch, modify, ret.
    eexists _, _. split; [reflexivity|]. split; [|done]. agree_tac.
Qed.

Lemma run_save_hosts order_id hrefs hs w :
  mapM (λ r : option nat, href ← r; w_hosts w !! href) hrefs = Some hs →
  NoDup hrefs →
  ∃ w', for_each hrefs (λ host, __save_host (Some order_id) host) w = Some (w', Return tt)
    ∧ agree w' (with_hosts (untouch_hosts hrefs (w_hosts w))
                  (with_data (save_hosts order_id hs (w_data w)) w))
    ∧ (Forall (λ h, Host.dirty h = false) hs → w_log w' = w_log w).
Proof.
  intros Hm. apply mapM_Some in Hm. revert hs w Hm.
  induction hrefs as [|r hrefs IH]; intros hs w Hm Hnd.
  { apply Forall2_nil_inv_l in Hm as ->. eexists. split; [reflexivity|].
    split; [agree_tac|done]. }
  apply Forall2_cons_inv_l in Hm as (h & hs' & Hr & Hm & ->).
  apply NoDup_cons in Hnd as [Hr' Hnd].
  destruct r as [href|]; [|done]. cbn in Hr.
  cbn [for_each]. unfold bind at 1.
  destruct (run_save_host order_id href h w Hr) as (w1 & r1 & -> & Hag & Hlog).
  destruct (IH hs' w1) as (w' & -> & Hag' & Hlog'); [|done|].
  - apply (heap_lookup_others (w_hosts w)); [|done].
    intros href' Hin. destruct Hag as (_ & _ & _ & _ & -> & _). world_simpl.
    rewrite lookup_alter_ne; [done|]. intros ->. by apply Hr'.
  - eexists. split; [reflexivity|]. split.
    + unfold untouch_hosts, save_hosts in *. cbn [foldl]. agree_tac.
    + intros [Hc Hcs]%Forall_cons. rewrite Hlog', Hlog; done.
Qed.

(** ** Computations that look at the store only *)

Lemma same_store_refl w : same_store w w.
Proof. by repeat split. Qed.

Lemma store_only_ret {A} (a : A) : store_only (ret a).
Proof. intros w1 w2 Hs. by cbn. Qed.

Lemma store_only_raise {A} e : store_only (raise (A:=A) e).
Proof. intros w1 w2 Hs. by cbn. Qed.

Lemma store_only_gets {A} (f : World → A) :
  (∀ w1 w2, same_store w1 w2 → f w1 = f w2) → store_only (gets f).
Proof. intros Hf w1 w2 Hs. cbn. split; [|done]. f_equal. by apply Hf. Qed.

Lemma store_only_bind {A B} (m : M A) (k : A → M B) :
  store_only m → (∀ a, store_only (k a)) → store_only (bind m k).
Proof.
  intros Hm Hk w1 w2 Hs. unfold bind. specialize (Hm w1 w2 Hs).
  destruct (m w1) as [[w1' [a1|e1]]|], (m w2) as [[w2' [a2|e2]]|]; try done;
    destruct Hm as [[= <-] Hs']; [by apply Hk|done].
Qed.

Lemma store_only_for_each {A B} (l : list A) (body : A → M B) :
  (∀ a, store_only (body a)) → store_only (for_each l body).
Proof.
  intros Hbody. induction l as [|x l IH]; cbn [for_each].
  - apply store_only_ret.
  - apply store_only_bind; [apply Hbody|done].
Qed.

Lemma store_only_synchronized {A} (func : M A) :
  store_only func → store_only (synchronized func).
Proof.
  intros Hf w1 w2 Hs. unfold synchronized.
  specialize (Hf (acquire w1) (acquire w2) Hs).
  destruct (func (acquire w1)) as [[w1' r1]|], (func (acquire w2)) as [[w2' r2]|];
    try done.
Qed.

Lemma store_only_execute {A} t (stmt : Tables → Tables * A) : store_only (execute t stmt).
Proof.
  intros w1 w2 (Hd & Hn & Hh & Ho). unfold execute. rewrite Hd.
  destruct (stmt (w_data w2)) as [db a]. by repeat split.
Qed.

Lemma store_only_read_host href : store_only (read_host href).
Proof.
  intros w1 w2 Hs. unfold read_host. destruct Hs as (Hd & Hn & Hh & Ho). rewrite Hh.
  destruct (w_hosts w2 !! href); [|done]. by repeat split.
Qed.

Lemma store_only_read_order oref : store_only (read_order oref).
Proof.
  intros w1 w2 Hs. unfold read_order. destruct Hs as (Hd & Hn & Hh & Ho). rewrite Ho.
  destruct (w_orders w2 !! oref); [|done]. by repeat split.
Qed.

Lemma store_only_host_untouch href : store_only (host_untouch href).
Proof.
  intros w1 w2 (Hd & Hn & Hh & Ho). cbn. split; [done|]. repeat split; try done.
  cbn. by rewrite Hh.
Qed.

Lemma store_only_order_set_id oref i : store_only (order_set_id oref i).
Proof.
  intros w1 w2 (Hd & Hn & Hh & Ho). cbn. split; [done|]. repeat split; try done.
  cbn. by rewrite Ho.
Qed.

Create HintDb store discriminated.

#[global] Hint Resolve store_only_ret store_only_raise store_only_execute
  store_only_read_host store_only_read_order store_only_host_untouch
  store_only_order_set_id : store.

Ltac store_only_tac :=
  repeat first
    [ progress (intros)
    | apply store_only_synchronized | apply store_only_bind
    | apply store_only_for_each
    | apply store_only_gets;
      let Hd := fresh in intros ? ? (Hd & ? & _); (done || by rewrite Hd)
    | match goal with |- store_only (match ?x with _ => _ end) => destruct x end
    | match goal with |- store_only (if ?x then _ else _) => destruct x end
    | solve [eauto with store] ].

Lemma store_only_add_variable host_id key v : store_only (__add_variable host_id key v).
Proof. unfold __add_variable. store_only_tac. Qed.

#[global] Hint Resolve store_only_add_variable : store.

Lemma store_only_add_host order_id host : store_only (__add_host order_id host).
Proof. unfold __add_host. store_only_tac. Qed.

#[global] Hint Resolve store_only_add_host : store.

Lemma store_only_add_order order recursive : store_only (__add_order order recursive).
Proof. unfold __add_order. store_only_tac. Qed.

(** ** Looking an order up by its id *)

Lemma filter_key_unique {A} (key : A → Z) (l : list A) x :
  NoDup (key <$> l) → x ∈ l → filter (λ y, key y = key x) l = [x].
Proof.
  induction l as [|a l IH]; intros Hnd Hin; [by apply elem_of_nil in Hin|].
  rewrite fmap_cons in Hnd. apply NoDup_cons in Hnd as [Ha Hnd].
  rewrite filter_cons. apply elem_of_cons in Hin as [->|Hin].
  - rewrite decide_True by done. f_equal. apply filter_none, Forall_forall.
    intros y Hy Heq. apply Ha. rewrite <- Heq. by apply list_elem_of_fmap_2.
  - rewrite decide_False; [by apply IH|]. intros Heq. apply Ha. rewrite Heq.
    by apply list_elem_of_fmap_2.
Qed.

Lemma matching_by_id id db :
  matching (Criteria (Some (Scalar id)) None None) db
  = filter (λ o, or_id o = id) (t_order db).
Proof.
  rewrite matching_filter. apply filter_ext_in. intros o _.
  unfold criteria_hold, field_holds. cbn [kw_id kw_service kw_status to_list].
  rewrite list_elem_of_singleton. split; [by intros ([[=]|?] & _)|auto].
Qed.

Lemma get_order_found w o :
  keys_ok (w_data w) → o ∈ t_order (w_data w) →
  get_order (Criteria (Some (Scalar (or_id o))) None None) w
  = Some (w, Return (Some (load_order (w_data w) o))).
Proof.
  intros Hok Hin. unfold get_order, bind.
  rewrite get_orders_recursive, selected_limit_2, matching_by_id by done.
  rewrite (filter_key_unique or_id) by (done || apply Hok). done.
Qed.

Lemma get_order_missing w id :
  keys_ok (w_data w) → id ∉ or_id <$> t_order (w_data w) →
  get_order (Criteria (Some (Scalar id)) None None) w = Some (w, Return None).
Proof.
  intros Hok Hnin. unfold get_order, bind.
  rewrite get_orders_recursive, selected_limit_2, matching_by_id by done.
  rewrite filter_none; [done|]. apply Forall_forall. intros o Hin Heq.
  apply Hnin. rewrite <- Heq. by apply list_elem_of_fmap_2.
Qed.

(** ** Saving an order that is in the tables *)

Lemma run_save_order_found recursive oref o id row hs w :
  keys_ok (w_data w) → w_orders w !! oref = Some o → Order.id o = Some id →
  row ∈ t_order (w_data w) → or_id row = id →
  order_hosts w o = Some hs → NoDup (Order.hosts o) →
  ∃ w', __save_order (Some oref) recursive w = Some (w', Return tt)
    ∧ agree w'
        (with_hosts (if recursive then untouch_hosts (Order.hosts o) (w_hosts w)
                     else w_hosts w)
           (with_data
              ((if recursive then save_hosts id hs else λ db, db)
                 (Engine.update_order id (Order.service o) (Order.status o)
                    (Order.closed o) (Order.created_by o) (w_data w))) w))
    ∧ (Forall (λ h, Host.dirty h = false) hs →
       w_log w' = w_log w ++ [EvWrite TOrder true]).
Proof.
  intros Hok Ho Hid Hrow <- Hhs Hnd.
  assert (Hpos : 0 < or_id row).
  { destruct Hok as (_ & Hop & _). rewrite Forall_forall in Hop. by apply Hop. }
  unfold __save_order, synchronized, bind at 1, read_order.
  cbn [acquire with_sync_lock w_orders]. rewrite Ho.
  unfold bind at 1, Order.get_id. rewrite Hid, truthy_Some by lia.
  cbn [fmap option_fmap option_map]. rewrite get_order_found by done.
  unfold bind at 1, execute, Order.get_service_name, Order.get_status,
    Order.get_closed_timestamp, Order.get_created_by, Order.get_hosts.
  world_simpl. destruct recursive; cbn [negb].
  - match goal with |- context [for_each _ _ ?w1] =>
      destruct (run_save_hosts (or_id row) (Order.hosts o) hs w1 Hhs Hnd)
        as (w2 & Hrun & Hag & Hlog)
    end.
    rewrite Hrun. eexists. split; [reflexivity|]. split; [agree_tac|].
    intros Hclean. world_simpl. by rewrite (Hlog Hclean).
  - eexists. split; [reflexivity|]. split; [agree_tac|]. done.
Qed.

Lemma run_save_order_scalar_found recursive oref o id row hs w :
  keys_ok (w_data w) → w_tx_depth w = O → w_orders w !! oref = Some o →
  Order.id o = Some id → row ∈ t_order (w_data w) → or_id row = id →
  order_hosts w o = Some hs → NoDup (Order.hosts o) →
  ∃ w', save_order (Some (Scalar (Some oref))) recursive w = Some (w', Return tt)
    ∧ w_data w'
      = (if recursive then save_hosts id hs else λ db, db)
          (Engine.update_order id (Order.service o) (Order.status o)
             (Order.closed o) (Order.created_by o) (w_data w))
    ∧ w_hosts w' = (if recursive then untouch_hosts (Order.hosts o) (w_hosts w)
                    else w_hosts w)
    ∧ w_orders w' = w_orders w
    ∧ (Forall (λ h, Host.dirty h = false) hs →
       w_log w' = w_log w ++ [EvBegin; EvWrite TOrder true; EvCommit]).
Proof.
  intros Hok Hd Ho Hid Hrow Hrid Hhs Hnd.
  unfold save_order, to_list. unfold bind at 1, tx_begin, modify, begin_world. rewrite Hd.
  unfold try_except_reraise. cbn [for_each]. unfold bind at 1. unfold bind at 1.
  match goal with |- context [__save_order _ _ ?wb] =>
    destruct (run_save_order_found recursive oref o id row hs wb)
      as (w1 & -> & Hag & Hlog); try done end.
  unfold ret, tx_commit, modify, commit_world.
  destruct Hag as (Hd1 & Ht1 & Hs1 & _ & Hh1 & Ho1 & _). world_simpl.
  rewrite Ht1. eexists. split; [reflexivity|]. world_simpl.
  repeat split; try done.
  intros Hclean. rewrite (Hlog Hclean). world_simpl. by rewrite <- !app_assoc.
Qed.

(** ** Saving an order that is not in the tables *)

Lemma add_order_unfold orders recursive w :
  add_order (Some orders) recursive w
  = match for_each (to_list orders) (λ order, __add_order order recursive)
            (begin_world w) with
    | Some (w1, Return _) => Some (commit_world w1, Return tt)
    | Some (w1, Raise e) => Some (rollback_world w1, Raise e)
    | None => None
    end.
Proof.
  unfold add_order, bind at 1, tx_begin, modify, try_except_reraise, bind at 1.
  destruct (for_each _ _ _) as [[w1 [[]|e]]|]; done.
Qed.

Lemma begin_world_store w : same_store (begin_world w) w.
Proof. unfold begin_world. by destruct (w_tx_depth w). Qed.

Lemma commit_world_store w : same_store (commit_world w) w.
Proof. unfold commit_world. by destruct (w_tx_depth w) as [|[|d]]. Qed.

Lemma same_store_sym w1 w2 : same_store w1 w2 → same_store w2 w1.
Proof. intros (? & ? & ? & ?). by repeat split. Qed.

Lemma same_store_trans w1 w2 w3 : same_store w1 w2 → same_store w2 w3 → same_store w1 w3.
Proof. intros (? & ? & ? & ?) (? & ? & ? & ?). repeat split; congruence. Qed.

(** When the order has no id, or an id that is not in the tables,
    [save_order] ends like [add_order]: same outcome, same tables, same
    heap. *)
Lemma save_order_falls_back recursive oref o w :
  keys_ok (w_data w) → w_tx_depth w = O → w_orders w !! oref = Some o →
  (∀ id, Order.id o = Some id → id = 0 ∨ id ∉ or_id <$> t_order (w_data w)) →
  match save_order (Some (Scalar (Some oref))) recursive w,
        add_order (Some (Scalar (Some oref))) recursive w with
  | Some (w1, r1), Some (w2, r2) =>
      r1 = r2 ∧ same_store w1 w2 ∧ w_tx_depth w1 = w_tx_depth w2
  | None, None => True
  | _, _ => False
  end.
Proof.
  intros Hok Hd Ho Hid.
  rewrite add_order_unfold.
  unfold save_order, bind at 1, tx_begin, modify, try_except_reraise.
  unfold to_list at 1. cbn [for_each]. unfold bind at 1. unfold bind at 1.
  unfold __save_order, synchronized at 1, bind at 1, read_order.
  assert (Hwb : w_orders (acquire (begin_world w)) !! oref = Some o).
  { unfold begin_world. rewrite Hd. done. }
  rewrite Hwb. unfold bind at 1.
  assert (Hnone : (if truthy (Order.id o)
                   then get_order (Criteria (Scalar <$> Order.get_id o) None None)
                   else ret None) (acquire (begin_world w))
                  = Some (acquire (begin_world w), Return None)).
  { destruct (truthy (Order.id o)) eqn:Htr; [|done].
    unfold Order.get_id. destruct (Order.id o) as [id|] eqn:Hoid; [|done].
    cbn in Htr. apply bool_decide_eq_true in Htr.
    destruct (Hid id eq_refl) as [->|Hnin]; [done|].
    apply get_order_missing; unfold begin_world; by rewrite Hd. }
  rewrite Hnone. rewrite add_order_unfold.
  set (loop := for_each (to_list (Scalar (Some oref)))
                 (λ order, __add_order order recursive)).
  pose proof (store_only_for_each (to_list (Scalar (Some oref)))
                (λ order, __add_order order recursive)
                ltac:(intros; apply store_only_add_order)
                (begin_world (acquire (begin_world w))) (begin_world w)) as Hsim.
  pose proof (tx_neutral_for_each (to_list (Scalar (Some oref)))
                (λ order, __add_order order recursive)
                ltac:(intros; apply tx_neutral_add_order)) as Hneutral.
  fold loop in Hsim, Hneutral.
  specialize (Hsim ltac:(unfold begin_world; rewrite Hd; done)).
  destruct (loop (begin_world (acquire (begin_world w)))) as [[w1 r1]|] eqn:Hrun1,
           (loop (begin_world w)) as [[w2 r2]|] eqn:Hrun2; try done.
  destruct Hsim as [<- Hs].
  destruct (Hneutral _ _ _ Hrun1) as (H1d & H1s & _).
  destruct (Hneutral _ _ _ Hrun2) as (H2d & H2s & _).
  unfold begin_world in H1d, H1s, H2d, H2s. rewrite Hd in *. world_simpl.
  destruct r1 as [[]|e].
  - unfold ret, tx_commit, modify. unfold commit_world. world_simpl.
    rewrite H1d, H2d. world_simpl. split; [done|]. split; [|done].
    destruct Hs as (? & ? & ? & ?). by repeat split.
  - unfold tx_rollback, modify. unfold rollback_world. world_simpl.
    rewrite H1d, H2d. world_simpl. split; [done|]. split; [|done].
    destruct Hs as (? & ? & ? & ?). repeat split; try done. world_simpl. congruence.
Qed.

(** ** The write path returns *)

Lemma same_shape_refl w : same_shape w w.
Proof. by split. Qed.

Lemma same_shape_trans w1 w2 w3 : same_shape w1 w2 → same_shape w2 w3 → same_shape w1 w3.
Proof.
  intros [Hh1 Ho1] [Hh2 Ho2]. split.
  - intros href. by rewrite Hh2, Hh1.
  - intros oref. by rewrite Ho2, Ho1.
Qed.

Lemma shape_neutral_ret {A} (a : A) : shape_neutral (ret a).
Proof. intros w w' r [= <- <-]. apply same_shape_refl. Qed.

Lemma shape_neutral_raise {A} e : shape_neutral (raise (A:=A) e).
Proof. intros w w' r [= <- <-]. apply same_shape_refl. Qed.

Lemma shape_neutral_gets {A} (f : World → A) : shape_neutral (gets f).
Proof. intros w w' r [= <- <-]. apply same_shape_refl. Qed.

Lemma shape_neutral_modify (f : World → World) :
  (∀ w, same_shape w (f w)) → shape_neutral (modify f).
Proof. intros Hf w w' r [= <- <-]. apply Hf. Qed.

Lemma shape_neutral_bind {A B} (m : M A) (k : A → M B) :
  shape_neutral m → (∀ a, shape_neutral (k a)) → shape_neutral (bind m k).
Proof.
  intros Hm Hk w w' r. unfold bind. destruct (m w) as [[w1 [a|e]]|] eqn:Hrun; [| |done].
  - intros Hk'. eapply same_shape_trans; [by eapply Hm|by eapply Hk].
  - intros [= <- <-]. by eapply Hm.
Qed.

Lemma shape_neutral_for_each {A B} (l : list A) (body : A → M B) :
  (∀ a, shape_neutral (body a)) → shape_neutral (for_each l body).
Proof.
  intros Hbody. induction l as [|x l IH]; cbn [for_each].
  - apply shape_neutral_ret.
  - apply shape_neutral_bind; [apply Hbody|done].
Qed.

Lemma shape_neutral_synchronized {A} (func : M A) :
  shape_neutral func → shape_neutral (synchronized func).
Proof.
  intros Hf w w' r. unfold synchronized.
  destruct (func (acquire w)) as [[w1 r1]|] eqn:Hrun; [|done].
  intros [= <- <-]. by apply (Hf _ _ _ Hrun).
Qed.

Lemma shape_neutral_try {A} (body : M A) (handler : M unit) :
  shape_neutral body → shape_neutral handler →
  shape_neutral (try_except_reraise body handler).
Proof.
  intros Hb Hh w w' r. unfold try_except_reraise.
  destruct (body w) as [[w1 [a|e]]|] eqn:Hrun; [| |done].
  - intros [= <- <-]. by eapply Hb.
  - destruct (handler w1) as [[w2 [[]|e']]|] eqn:Hrun2; [| |done];
      intros [= <- <-]; (eapply same_shape_trans; [by eapply Hb|by eapply Hh]).
Qed.

Lemma shape_neutral_execute {A} t (stmt : Tables → Tables * A) :
  shape_neutral (execute t stmt).
Proof.
  intros w w' r. unfold execute. destruct (stmt (w_data w)) as [db a].
  intros [= <- <-]. by split.
Qed.

Lemma shape_neutral_read_host href : shape_neutral (read_host href).
Proof.
  intros w w' r. unfold read_host. destruct (w_hosts w !! href); [|done].
  intros [= <- <-]. apply same_shape_refl.
Qed.

Lemma shape_neutral_read_order oref : shape_neutral (read_order oref).
Proof.
  intros w w' r. unfold read_order. destruct (w_orders w !! oref); [|done].
  intros [= <- <-]. apply same_shape_refl.
Qed.

Lemma shape_neutral_host_untouch href : shape_neutral (host_untouch href).
Proof.
  apply shape_neutral_modify. intros w. split; [|done]. intros i. world_simpl.
  rewrite lookup_alter. destruct (decide (href = i)) as [->|]; [|done].
  by rewrite fmap_is_Some.
Qed.

Lemma shape_neutral_order_set_id oref i : shape_neutral (order_set_id oref i).
Proof.
  apply shape_neutral_modify. intros w. split; [done|]. intros j. world_simpl.
  rewrite lookup_alter. destruct (decide (oref = j)) as [->|]; [|done].
  by destruct (w_orders w !! j).
Qed.

Lemma shape_neutral_get_orders offset limit recursive kwargs :
  shape_neutral (get_orders offset limit recursive kwargs).
Proof.
  intros w w' r. unfold get_orders. destruct (__get_orders_from_query _); [|done].
  intros [= <- <-]. apply same_shape_refl.
Qed.

Lemma shape_neutral_tx_begin : shape_neutral tx_begin.
Proof.
  apply shape_neutral_modify. intros w. unfold begin_world.
  destruct (w_tx_depth w); by split.
Qed.

Lemma shape_neutral_tx_commit : shape_neutral tx_commit.
Proof.
  apply shape_neutral_modify. intros w. unfold commit_world.
  destruct (w_tx_depth w) as [|[|d]]; by split.
Qed.

Lemma shape_neutral_tx_rollback : shape_neutral tx_rollback.
Proof.
  apply shape_neutral_modify. intros w. unfold rollback_world.
  destruct (w_tx_depth w); by split.
Qed.

Create HintDb shape discriminated.

#[global] Hint Resolve shape_neutral_ret shape_neutral_raise shape_neutral_gets
  shape_neutral_execute shape_neutral_read_host shape_neutral_read_order
  shape_neutral_host_untouch shape_neutral_order_set_id shape_neutral_get_orders
  shape_neutral_tx_begin shape_neutral_tx_commit shape_neutral_tx_rollback : shape.

Ltac shape_neutral_tac :=
  repeat first
    [ progress (intros)
    | apply shape_neutral_synchronized | apply shape_neutral_bind
    | apply shape_neutral_for_each | apply shape_neutral_try
    | match goal with |- shape_neutral (match ?x with _ => _ end) => destruct x end
    | match goal with |- shape_neutral (if ?x then _ else _) => destruct x end
    | solve [eauto with shape] ].

Lemma shape_neutral_add_variable host_id key v : shape_neutral (__add_variable host_id key v).
Proof. unfold __add_variable. shape_neutral_tac. Qed.

Lemma shape_neutral_save_variable host_id key v :
  shape_neutral (__save_variable host_id key v).
Proof. unfold __save_variable. shape_neutral_tac. Qed.

#[global] Hint Resolve shape_neutral_add_variable shape_neutral_save_variable : shape.

Lemma shape_neutral_add_host order_id host : shape_neutral (__add_host order_id host).
Proof. unfold __add_host. shape_neutral_tac. Qed.

Lemma shape_neutral_save_host order_id host : shape_neutral (__save_host order_id host).
Proof. unfold __save_host. shape_neutral_tac. Qed.

#[global] Hint Resolve shape_neutral_add_host shape_neutral_save_host : shape.

Lemma shape_neutral_add_order order recursive : shape_neutral (__add_order order recursive).
Proof. unfold __add_order. shape_neutral_tac. Qed.

Lemma shape_neutral_get_order kwargs : shape_neutral (get_order kwargs).
Proof. unfold get_order. shape_neutral_tac. Qed.

#[global] Hint Resolve shape_neutral_add_order shape_neutral_get_order : shape.

Lemma shape_neutral_add_orders orders recursive :
  shape_neutral (add_order orders recursive).
Proof. unfold add_order. shape_neutral_tac. Qed.

#[global] Hint Resolve shape_neutral_add_orders : shape.

Lemma shape_neutral_save_order order recursive :
  shape_neutral (__save_order order recursive).
Proof.
  unfold __save_order. shape_neutral_tac. by intros w w' r [=].
Qed.

Lemma heap_closed_shape w w' orders :
  same_shape w w' → heap_closed w orders → heap_closed w' orders.
Proof.
  intros [Hh Ho] Hc oref Hin. destruct (Hc oref Hin) as (o & Hlook & Hhosts).
  specialize (Ho oref). rewrite Hlook in Ho. cbn in Ho.
  destruct (w_orders w' !! oref) as [o'|]; [|done]. injection Ho as Ho.
  exists o'. split; [done|]. intros href Hin'. apply Hh, Hhosts. by rewrite <- Ho.
Qed.
(** ** The write path returns *)

Lemma bind_returns {A B} (m : M A) (k : A → M B) w :
  is_Some (m w) → (∀ w1 a, m w = Some (w1, Return a) → is_Some (k a w1)) →
  is_Some (bind m k w).
Proof.
  intros [[w1 [a|e]] Hrun] Hk; unfold bind; rewrite Hrun; [by eapply Hk|by eexists].
Qed.

Lemma for_each_returns {A B} (P : World → Prop) (l : list A) (body : A → M B) :
  (∀ a w, a ∈ l → P w → is_Some (body a w)) →
  (∀ a w w' r, body a w = Some (w', r) → P w → P w') →
  ∀ w, P w → is_Some (for_each l body w).
Proof.
  intros Hbody Hpres. induction l as [|x l IH]; intros w HP; [by eexists|].
  cbn [for_each]. apply bind_returns; [apply Hbody; [by left|done]|].
  intros w1 a Hrun. apply IH.
  - intros a' w' Hin. apply Hbody. by right.
  - by eapply Hpres.
Qed.

Lemma synchronized_returns {A} (func : M A) w :
  is_Some (func (acquire w)) → is_Some (synchronized func w).
Proof. intros [[w1 r] Hrun]. unfold synchronized. rewrite Hrun. by eexists. Qed.

Lemma try_returns {A} (body : M A) (handler : M unit) w :
  is_Some (body w) → (∀ w1, is_Some (handler w1)) →
  is_Some (try_except_reraise body handler w).
Proof.
  intros [[w1 [a|e]] Hrun] Hh; unfold try_except_reraise; rewrite Hrun; [by eexists|].
  destruct (Hh w1) as [[w2 [[]|e']] ->]; by eexists.
Qed.

Lemma add_variable_returns host_id key v w : is_Some (__add_variable host_id key v w).
Proof.
  unfold __add_variable. apply synchronized_returns.
  destruct host_id, key; by eexists.
Qed.

Lemma save_variable_returns host_id key v w : is_Some (__save_variable host_id key v w).
Proof.
  unfold __save_variable. apply synchronized_returns.
  destruct host_id as [host_id|], key as [key|]; try by eexists.
  unfold bind at 1, gets. destruct (Engine.select_variable _ _ _); by eexists.
Qed.

Lemma add_host_returns order_id host w :
  (∀ href, host = Some href → is_Some (w_hosts w !! href)) →
  is_Some (__add_host order_id host w).
Proof.
  intros Hvalid. unfold __add_host. apply synchronized_returns.
  destruct order_id as [order_id|]; [|by eexists].
  destruct host as [href|]; [|by eexists].
  destruct (Hvalid href eq_refl) as [h Hh].
  unfold bind at 1, read_host. world_simpl. rewrite Hh.
  destruct (negb (Host.is_dirty h)); [by eexists|].
  apply bind_returns; [by eexists|]. intros w1 host_id _.
  apply bind_returns; [|by eexists].
  apply (for_each_returns (λ _, True)); [|done|done].
  intros kv w2 _ _. apply add_variable_returns.
Qed.

Lemma save_host_returns order_id host w :
  (∀ href, host = Some href → is_Some (w_hosts w !! href)) →
  is_Some (__save_host order_id host w).
Proof.
  intros Hvalid. unfold __save_host. apply synchronized_returns.
  destruct order_id as [order_id|]; [|by eexists].
  destruct host as [href|]; [|by eexists].
  destruct (Hvalid href eq_refl) as [h Hh].
  unfold bind at 1, read_host. world_simpl. rewrite Hh.
  destruct (negb (Host.is_dirty h)); [by eexists|].
  unfold bind at 1, gets.
  apply bind_returns; [by destruct (Engine.select_host _ _ _); eexists|].
  intros w1 host_id _.
  apply bind_returns; [|by eexists].
  apply (for_each_returns (λ _, True)); [|done|done].
  intros kv w2 _ _. apply save_variable_returns.
Qed.

Lemma hosts_valid_shape hosts w w' :
  same_shape w w' → hosts_valid hosts w → hosts_valid hosts w'.
Proof. intros [Hh _] Hv href Hin. by apply Hh, Hv. Qed.

Lemma add_hosts_returns order_id hosts w :
  hosts_valid hosts w →
  is_Some (for_each hosts (λ host, __add_host order_id host) w).
Proof.
  apply (for_each_returns (hosts_valid hosts)).
  - intros host w1 Hin Hv. apply add_host_returns. intros href ->. by apply Hv.
  - intros host w1 w2 r Hrun. apply hosts_valid_shape.
    by eapply shape_neutral_add_host.
Qed.

Lemma save_hosts_returns order_id hosts w :
  hosts_valid hosts w →
  is_Some (for_each hosts (λ host, __save_host order_id host) w).
Proof.
  apply (for_each_returns (hosts_valid hosts)).
  - intros host w1 Hin Hv. apply save_host_returns. intros href ->. by apply Hv.
  - intros host w1 w2 r Hrun. apply hosts_valid_shape.
    by eapply shape_neutral_save_host.
Qed.

Lemma add_order_inner_returns order recursive w :
  heap_closed w [order] → is_Some (__add_order order recursive w).
Proof.
  intros Hc. unfold __add_order. apply synchronized_returns.
  destruct order as [oref|]; [|by eexists].
  destruct (Hc oref ltac:(by left)) as (o & Ho & Hhosts).
  unfold bind at 1, read_order. world_simpl. rewrite Ho.
  unfold bind at 1, gets. unfold bind at 1, execute.
  destruct (Engine.insert_order _ _ _ _ _ _) as [db id].
  unfold bind at 1, order_set_id, modify.
  destruct (negb recursive); [by eexists|].
  apply bind_returns; [|by eexists]. apply add_hosts_returns.
  intros href Hin. world_simpl. by apply Hhosts.
Qed.

Lemma heap_closed_elem w orders order :
  heap_closed w orders → order ∈ orders → heap_closed w [order].
Proof.
  intros Hc Hin oref Hin'. apply list_elem_of_singleton in Hin' as <-. by apply Hc.
Qed.

(** [add_order] returns or raises whenever the references of the batch are
    in the heap. *)
Lemma add_order_returns orders recursive w :
  (∀ l, orders = Some l → heap_closed w (to_list l)) →
  is_Some (add_order orders recursive w).
Proof.
  intros Hc. unfold add_order. destruct orders as [orders|]; [|by eexists].
  specialize (Hc orders eq_refl).
  apply bind_returns; [by eexists|]. intros wb [] [= <-].
  apply try_returns; [|by eexists].
  apply bind_returns; [|by eexists].
  apply (for_each_returns (λ w, heap_closed w (to_list orders))).
  - intros order w1 Hin Hc1. apply add_order_inner_returns. by eapply heap_closed_elem.
  - intros order w1 w2 r Hrun. apply heap_closed_shape.
    by eapply shape_neutral_add_order.
  - eapply heap_closed_shape; [|exact Hc]. unfold begin_world.
    by destruct (w_tx_depth w).
Qed.

Lemma get_order_returns kwargs w : is_Some (get_order kwargs w).
Proof.
  unfold get_order, bind, get_orders.
  destruct (get_orders_from_query_total
              (select_orders 0 2 true kwargs (w_data w))) as [l ->].
  destruct l as [|o [|o' l]]; by eexists.
Qed.

Lemma save_order_inner_returns order recursive w :
  heap_closed w [order] → is_Some (__save_order order recursive w).
Proof.
  intros Hc. unfold __save_order. apply synchronized_returns.
  destruct order as [oref|]; [|by eexists].
  destruct (Hc oref ltac:(by left)) as (o & Ho & Hhosts).
  unfold bind at 1, read_order. world_simpl. rewrite Ho.
  apply bind_returns.
  { destruct (truthy (Order.id o)); [apply get_order_returns|by eexists]. }
  intros w1 theorder Hrun.
  assert (Hshape : same_shape (acquire w) w1).
  { destruct (truthy (Order.id o)); [by eapply shape_neutral_get_order|].
    injection Hrun as <- _. apply same_shape_refl. }
  assert (Hc1 : heap_closed w1 [Some oref]).
  { eapply heap_closed_shape; [exact Hshape|]. intros oref' Hin.
    destruct (Hc oref' Hin) as (o' & ? & ?). by exists o'. }
  destruct theorder as [theorder|].
  2:{ apply add_order_returns. by intros l [= <-]. }
  destruct (Order.get_id o) as [id|] eqn:Hid.
  2:{ unfold Order.get_id in Hid. rewrite Hid in Hrun. by cbn in Hrun. }
  apply bind_returns; [by eexists|]. intros w2 [] [= <-].
  destruct (negb recursive); [by eexists|].
  apply save_hosts_returns. intros href Hin. world_simpl.
  apply (proj1 Hshape). world_simpl. by apply Hhosts.
Qed.

(** [save_order] returns or raises whenever the references of the batch are
    in the heap. *)
Lemma save_order_returns orders recursive w :
  (∀ l, orders = Some l → heap_closed w (to_list l)) →
  is_Some (save_order orders recursive w).
Proof.
  intros Hc. unfold save_order. destruct orders as [orders|]; [|by eexists].
  specialize (Hc orders eq_refl).
  apply bind_returns; [by eexists|]. intros wb [] [= <-].
  apply try_returns; [|by eexists].
  apply bind_returns; [|by eexists].
  apply (for_each_returns (λ w, heap_closed w (to_list orders))).
  - intros order w1 Hin Hc1. apply save_order_inner_returns. by eapply heap_closed_elem.
  - intros order w1 w2 r Hrun. apply heap_closed_shape.
    by eapply shape_neutral_save_order.
  - eapply heap_closed_shape; [|exact Hc]. unfold begin_world.
    by destruct (w_tx_depth w).
Qed.

Lemma selected_by_id limit id db row :
  id ∉ or_id <$> t_order db → or_id row = id →
  selected 0 limit (Criteria (Some (Scalar id)) None None)
           (MkTables (t_order db ++ [row]) (t_host db) (t_variable db))
  = [row].
Proof.
  intros Hfresh Hrow. unfold selected, search_conditions, field_cond, to_list.
  cbn [kw_id kw_service kw_status foldl Engine.or_ Engine.and_ Engine.sql_where
       t_order].
  rewrite filter_app, filter_none, filter_cons, filter_nil.
  - rewrite decide_True by by apply bool_decide_pack.
    unfold Engine.sql_limit. destruct limit; cbn; [done|]. by rewrite take_nil.
  - apply Forall_forall. intros r Hr Hp. apply bool_decide_unpack in Hp.
    apply Hfresh. rewrite <- Hp. by apply list_elem_of_fmap_2.
Qed.

(** C1.  Round trip: an order with N hosts, each dirty and with M variables,
    that [add_order] stores comes back from [get_orders(id = order.id)] as
    exactly one order with the same service, status, closed timestamp and
    creator, and the same hosts by name, address and variables; so it does
    for the default limit, 0, and for every other. *)
Theorem add_order_get_orders_round_trip (limit : nat) w oref o hs :
  db_ok (w_data w) →
  w_orders w !! oref = Some o →
  order_hosts w o = Some hs →
  NoDup (Order.hosts o) →
  Forall (λ h, Host.dirty h = true) hs →
  ∃ w' id loaded,
    add_order (Some (Scalar (Some oref))) true w = Some (w', Return tt)
    ∧ Order.id <$> w_orders w' !! oref = Some (Some id)
    ∧ get_orders 0 limit true (Criteria (Some (Scalar id)) None None) w'
      = Some (w', Return [loaded])
    ∧ Order.id loaded = Some id
    ∧ Order.service loaded = Order.service o
    ∧ Order.status loaded = Order.status o
    ∧ Order.closed loaded = Order.closed o
    ∧ Order.created_by loaded = Order.created_by o
    ∧ host_view <$> Order.hosts loaded = host_view <$> hs.
Proof.
  intros Hok Ho Hhs Hnd Hd.
  destruct (run_add_order_scalar oref o hs w Ho Hhs Hnd Hd)
    as (w' & Hrun & Hdata & _ & Horders & _).
  destruct (store_order_spec o hs (w_now w) (w_data w) Hok) as (Hok' & Hto & Hload).
  cbn zeta in *. rewrite <- Hdata in *.
  set (id := Engine.next_id (or_id <$> t_order (w_data w))) in *.
  set (row := OrderRow id _ _ _ _ _) in *.
  eexists w', id, _. split; [done|]. split.
  { rewrite Horders, lookup_alter, Ho. by rewrite decide_True. }
  split.
  { rewrite get_orders_recursive by apply Hok'.
    assert (selected 0 limit (Criteria (Some (Scalar id)) None None) (w_data w')
            = [row]) as ->.
    { unfold selected. rewrite Hto. apply (selected_by_id limit id (w_data w) row);
        [apply next_id_fresh|done]. }
    cbn [Engine.order_by_desc foldr Engine.insert_desc fmap list_fmap].
    by rewrite Hload. }
  cbn [Order.id Order.service Order.status Order.closed Order.created_by Order.hosts].
  repeat split; try done.
  rewrite <- list_fmap_compose. by apply list_fmap_ext.
Qed.

Lemma orders_loop_no_host fuel joined order_list r rest :
  row_order_id r ≠ 0 → r_host r = None →
  orders_loop (S fuel) joined order_list (r :: rest)
  = orders_loop fuel joined (order_list ++ [__get_order_from_row (r_order r)]) rest.
Proof.
  intros Hr Hnull. cbn [orders_loop]. rewrite truthy_Some by done.
  unfold row_host_id. rewrite Hnull. cbn [negb fmap option_fmap option_map truthy].
  by rewrite orb_true_r.
Qed.

(** C3.  The row grouper is total over outer-join null patterns: it
    returns on every result set; on the join of any selection of orders it
    yields each order with what the tables hold for it, so an order without
    hosts comes back with an empty host collection and a host without
    variables with an empty variable mapping; on any result set a row whose
    host columns are null makes an order without hosts, and a host row whose
    variable columns are null makes a host without variables; and the outline
    of the result depends on the identifier columns only. *)
Theorem grouping_total_over_null_patterns
    (db : Tables) (L : list order_row) (query : result_set) (joined : bool)
    (rows1 rows2 : list row) :
  keys_ok db → L `sublist_of` t_order db →
  row_ids <$> rows1 = row_ids <$> rows2 →
  is_Some (__get_orders_from_query query)
  ∧ __get_orders_from_query (ResultSet true (L ≫= Engine.join_order db))
    = Some (load_order db <$> L)
  ∧ (∀ o, Engine.hosts_of db (or_id o) = [] → Order.hosts (load_order db o) = [])
  ∧ (∀ h, Engine.variables_of db (hr_id h) = [] → Host.vars (load_host db h) = ∅)
  ∧ (∀ r rest, row_order_id r ≠ 0 → r_host r = None →
       Order.hosts (__get_order_from_row (r_order r)) = []
       ∧ __get_orders_from_query (ResultSet joined (r :: rest))
         = (__get_order_from_row (r_order r) ::.)
             <$> __get_orders_from_query (ResultSet joined rest))
  ∧ (∀ fuel order r h rest,
       r_host r = Some h → hr_id h ≠ 0 → r_variable r = None →
       Host.vars (__get_host_from_row h) = ∅
       ∧ hosts_loop (S fuel) (row_order_id r) order (r :: rest)
         = hosts_loop fuel (row_order_id r)
             (Order.add_host order (__get_host_from_row h)) rest)
  ∧ shapes <$> __get_orders_from_query (ResultSet joined rows1)
    = shapes <$> __get_orders_from_query (ResultSet joined rows2).
Proof.
  intros (Ho & Hop & Hh & Hhp & _) Hsub Hids.
  split; [apply get_orders_from_query_total|]. split.
  { apply get_orders_from_join; [done|by apply Forall_pos_nonzero| |].
    - eapply sublist_NoDup; [exact Ho|exact (fmap_sublist or_id _ _ Hsub)].
    - apply Forall_pos_nonzero. rewrite Forall_forall in Hop |- *.
      intros o Hin. apply Hop. by eapply elem_of_sublist. }
  split; [by intros o Hnone; unfold load_order; rewrite Hnone|].
  split; [by intros h Hnone; unfold load_host; rewrite Hnone|].
  split.
  { intros r rest Hr Hnull. split; [done|].
    unfold __get_orders_from_query at 1. cbn [length fetch has_host_columns].
    rewrite orders_loop_no_host, orders_loop_acc by done.
    unfold __get_orders_from_query. cbn [fetch has_host_columns]. by destruct rest. }
  split; [|by apply get_orders_from_query_ids].
  intros fuel order r h rest Hrh Hhz Hnull. split; [done|].
  cbn [hosts_loop]. rewrite Hrh, truthy_Some by done.
  rewrite bool_decide_eq_false_2 by (intros Hx; by apply Hx).
  unfold row_variable_host_id. by rewrite Hnull.
Qed.

(** ** Exactly one *)

(** C5 as stated fails for a field that is given an empty list: no order
    matches the criteria as the specification reads them, and [get_order]
    counts every order, so it raises on two stored orders where the claim has
    it return [None]. *)
Lemma get_order_empty_list_counts_all :
  ¬ (∀ kwargs w, keys_ok (w_data w) →
       filter (criteria_match kwargs) (t_order (w_data w)) = [] →
       get_order kwargs w = Some (w, Return None)).
Proof.
  intros Hclaim.
  specialize (Hclaim (Criteria None None (Some (PyList []))) sample_world
                ltac:(compute_done) eq_refl).
  vm_compute in Hclaim. discriminate Hclaim.
Qed.

(** C5, amended.  When every list that is given is non-empty, [get_order]
    returns [None] when no order matches the criteria, the order when exactly
    one matches, and raises when two or more match. *)
Theorem get_order_exactly_one (kwargs : criteria) (w : World) :
  keys_ok (w_data w) → criteria_nonempty kwargs →
  (filter (criteria_match kwargs) (t_order (w_data w)) = [] →
   get_order kwargs w = Some (w, Return None))
  ∧ (∀ o, filter (criteria_match kwargs) (t_order (w_data w)) = [o] →
       get_order kwargs w = Some (w, Return (Some (load_order (w_data w) o))))
  ∧ ((2 ≤ length (filter (criteria_match kwargs) (t_order (w_data w))))%nat →
       get_order kwargs w = Some (w, Raise (Exception "Too many results"))).
Proof.
  intros Hok Hne.
  assert (Hm : matching kwargs (w_data w)
               = filter (criteria_match kwargs) (t_order (w_data w))).
  { rewrite matching_filter. apply filter_ext_in. intros o _.
    by apply criteria_hold_match. }
  rewrite <- Hm. unfold get_order, bind.
  rewrite get_orders_recursive, selected_limit_2 by done.
  split; [|split].
  - by intros ->.
  - by intros o ->.
  - intros Hlen.
    pose proof (order_by_desc_length or_id (take 2 (matching kwargs (w_data w)))) as Hl.
    rewrite length_take in Hl.
    destruct (Engine.order_by_desc or_id _) as [|a [|b [|c l]]]; cbn [length] in Hl;
      try lia.
    reflexivity.
Qed.

(** C8 as stated fails for a field that is given an empty list: the
    specification's filter then matches no order, the query returns them
    all. *)
Lemma get_orders_filter_empty_list :
  ¬ (∀ kwargs w, keys_ok (w_data w) →
       get_orders 0 0 true kwargs w
       = Some (w, Return (load_order (w_data w)
                            <$> Engine.order_by_desc or_id
                                  (filter (criteria_match kwargs) (t_order (w_data w)))))).
Proof.
  intros Hclaim.
  specialize (Hclaim (Criteria None None (Some (PyList []))) sample_world
                ltac:(compute_done)).
  vm_compute in Hclaim. discriminate Hclaim.
Qed.

(** C8, amended.  When every list that is given is non-empty: a field that
    is given a list matches an order when the column equals one of the
    values, the fields that are given are combined conjunctively, and a field
    that is absent does not constrain the result.  This holds with and
    without the join, and for the rows that [get_order] counts. *)
Theorem get_orders_filter (kwargs : criteria) (w : World) :
  keys_ok (w_data w) → criteria_nonempty kwargs →
  get_orders 0 0 true kwargs w
  = Some (w, Return (load_order (w_data w)
                       <$> Engine.order_by_desc or_id
                             (filter (criteria_match kwargs) (t_order (w_data w)))))
  ∧ get_orders 0 0 false kwargs w
    = Some (w, Return (__get_order_from_row
                         <$> Engine.order_by_desc or_id
                               (filter (criteria_match kwargs) (t_order (w_data w)))))
  ∧ matching kwargs (w_data w) = filter (criteria_match kwargs) (t_order (w_data w)).
Proof.
  intros Hok Hne.
  assert (Hm : matching kwargs (w_data w)
               = filter (criteria_match kwargs) (t_order (w_data w))).
  { rewrite matching_filter. apply filter_ext_in. intros o _.
    by apply criteria_hold_match. }
  split; [|split; [|done]].
  - rewrite get_orders_recursive by done. unfold selected.
    fold (matching kwargs (w_data w)). by rewrite Hm.
  - rewrite get_orders_plain by apply Hok.
    fold (matching kwargs (w_data w)). by rewrite Hm.
Qed.

Lemma get_orders_filter_witness :
  get_orders 0 0 true (Criteria None None (Some (PyList ["open"; "pending"]))) sample_world
  = Some (sample_world,
          Return (load_order sample_tables
                    <$> Engine.order_by_desc or_id
                          (filter (criteria_match
                                     (Criteria None None
                                        (Some (PyList ["open"; "pending"]))))
                                  (t_order sample_tables)))).
Proof.
  apply (get_orders_filter (Criteria None None (Some (PyList ["open"; "pending"])))
           sample_world).
  - compute_done.
  - repeat split; intros a Ha; try discriminate. by injection Ha as <-.
Defined.

(** ** Pagination *)

(** C2 at two stored orders, offset 0 and limit 1.  The order at rank 0 by
    descending id is order 2, and the query without the join returns it; the
    query with the join takes the window from the unsorted subselect and
    returns order 1. *)
Theorem get_orders_window_not_newest :
  get_orders 0 1 false no_criteria sample_world
  = Some (sample_world, Return [__get_order_from_row (OrderRow 2 "upgrade" "pending" 20 None "bob")])
  ∧ get_orders 0 1 true no_criteria sample_world
    = Some (sample_world,
            Return [load_order sample_tables (OrderRow 1 "backup" "open" 10 None "alice")]).
Proof. split; by vm_compute. Qed.

(** C4.  A call of [add_order] or of [save_order] that is not made inside
    a transaction is one transaction: it ends with no transaction open, the
    engine has seen one [begin] and then one [commit] when the call returns,
    and one [begin] and then one [rollback] when it raises; when it raises,
    the tables are what they were before the call, and the exception is the
    one that the batch raised; and the call does return or raise whenever the
    references of the batch are in the heap. *)
Theorem add_order_save_order_one_transaction
    (orders : arg (option nat)) (recursive : bool) (w w' : World) (r : outcome unit) :
  w_tx_depth w = O →
  (add_order (Some orders) recursive w = Some (w', r) →
   w_tx_depth w' = O
   ∧ match r with
     | Return _ => tx_events (w_log w') = tx_events (w_log w) ++ [EvBegin; EvCommit]
     | Raise e =>
         w_data w' = w_data w
         ∧ tx_events (w_log w') = tx_events (w_log w) ++ [EvBegin; EvRollback]
         ∧ ∃ wb w1, tx_begin w = Some (wb, Return tt)
                    ∧ add_batch orders recursive wb = Some (w1, Raise e)
     end)
  ∧ (save_order (Some orders) recursive w = Some (w', r) →
     w_tx_depth w' = O
     ∧ match r with
       | Return _ => tx_events (w_log w') = tx_events (w_log w) ++ [EvBegin; EvCommit]
       | Raise e =>
           w_data w' = w_data w
           ∧ tx_events (w_log w') = tx_events (w_log w) ++ [EvBegin; EvRollback]
           ∧ ∃ wb w1, tx_begin w = Some (wb, Return tt)
                      ∧ save_batch orders recursive wb = Some (w1, Raise e)
       end)
  ∧ (heap_closed w (to_list orders) →
     is_Some (add_order (Some orders) recursive w)
     ∧ is_Some (save_order (Some orders) recursive w)).
Proof.
  intros Hd. split; [|split]; [intros Hrun|intros Hrun|intros Hc].
  - apply (run_transaction
             (for_each (to_list orders) (λ order, __add_order order recursive)));
      [|done|done].
    apply tx_nested_for_each. intros order. apply tx_neutral_nested, tx_neutral_add_order.
  - apply (run_transaction
             (for_each (to_list orders) (λ order, __save_order order recursive)));
      [|done|done].
    apply tx_nested_for_each. intros order. apply tx_nested_save_order.
  - split; [apply add_order_returns|apply save_order_returns]; by intros l [= <-].
Qed.

(** ** The caller's objects after a failed batch *)

Lemma untouch_hosts_lookup (hrefs : list (option nat)) (heap : gmap nat Host.t) href :
  untouch_hosts hrefs heap !! href
  = (if decide (Some href ∈ hrefs) then Host.untouch else id) <$> heap !! href.
Proof.
  unfold untouch_hosts. revert heap. induction hrefs as [|r hrefs IH]; intros heap.
  { cbn [foldl]. rewrite decide_False by apply not_elem_of_nil. by destruct (heap !! href). }
  cbn [foldl]. rewrite IH. destruct r as [href'|].
  - rewrite lookup_alter. destruct (decide (href' = href)) as [->|Hne].
    + rewrite (decide_True (P := Some href ∈ Some href :: hrefs)) by by left.
      destruct (heap !! href) as [h|]; [|by destruct (decide _)].
      cbn. by destruct (decide _).
    + destruct (decide (Some href ∈ hrefs)) as [Hin|Hnin].
      * by rewrite decide_True by by right.
      * rewrite decide_False; [done|]. intros [[=]|?]%elem_of_cons; done.
  - destruct (decide (Some href ∈ hrefs)) as [Hin|Hnin].
    + by rewrite decide_True by by right.
    + rewrite decide_False; [done|]. intros [[=]|?]%elem_of_cons; done.
Qed.

Lemma order_hosts_valid w o hs href :
  order_hosts w o = Some hs → Some href ∈ Order.hosts o → is_Some (w_hosts w !! href).
Proof.
  unfold order_hosts. intros Hm%mapM_Some Hin. revert Hin.
  induction Hm as [|r h hrefs hs Hr _ IH]; intros Hin; [by apply elem_of_nil in Hin|].
  apply elem_of_cons in Hin as [<-|Hin]; [|by apply IH]. cbn in Hr. by eexists.
Qed.

(** C10.  The rollback of [add_order] restores the tables, not the
    caller's objects: after a batch that raises, the heap is the one that the
    batch left; and when the batch is an order with dirty hosts followed by
    [None], the call raises, the tables are what they were, and yet the order
    has the id of the row that was rolled back and its hosts are clean. *)
Theorem add_order_rollback_keeps_objects
    (orders : arg (option nat)) (rest : list (option nat)) (recursive : bool)
    (w w' : World) (e : exn) (oref : nat) (o : Order.t (option nat)) (hs : list Host.t) :
  w_tx_depth w = O →
  w_orders w !! oref = Some o → order_hosts w o = Some hs →
  NoDup (Order.hosts o) → Forall (λ h, Host.dirty h = true) hs →
  (add_order (Some orders) recursive w = Some (w', Raise e) →
   w_data w' = w_data w
   ∧ ∃ wb w1, tx_begin w = Some (wb, Return tt)
              ∧ add_batch orders recursive wb = Some (w1, Raise e)
              ∧ w_hosts w' = w_hosts w1 ∧ w_orders w' = w_orders w1)
  ∧ ∃ w2, add_order (Some (PyList (Some oref :: None :: rest))) true w
          = Some (w2, Raise (AttributeError "order argument must not be None"))
      ∧ w_data w2 = w_data w
      ∧ Order.id <$> w_orders w2 !! oref
        = Some (Some (Engine.next_id (or_id <$> t_order (w_data w))))
      ∧ ∀ href, Some href ∈ Order.hosts o →
          Host.dirty <$> w_hosts w2 !! href = Some false.
Proof.
  intros Hd Ho Hhs Hnd Hdirty. split.
  - intros Hrun.
    destruct (run_transaction
                (for_each (to_list orders) (λ order, __add_order order recursive))
                w w' (Raise e)) as (_ & Hdata & _ & wb & w1 & Hb & Hbatch); [|done|done|].
    { apply tx_nested_for_each. intros order.
      apply tx_neutral_nested, tx_neutral_add_order. }
    split; [done|]. exists wb, w1. split; [done|]. split; [exact Hbatch|].
    unfold add_order, bind at 1 in Hrun. rewrite Hb in Hrun.
    unfold try_except_reraise in Hrun.
    rewrite Hbatch in Hrun. unfold tx_rollback, modify, rollback_world in Hrun.
    destruct (w_tx_depth w1); injection Hrun as <-; done.
  - unfold add_order, to_list. unfold bind at 1.
    destruct (run_tx_begin w) as (wb & -> & Hbd & Hbh & Hbo & Hbn & Hbt & Hbs & _).
    rewrite Hd in *. unfold try_except_reraise. cbn [for_each]. unfold bind at 1.
    unfold bind at 1.
    destruct (run_add_order oref o hs wb) as (w1 & -> & Hag);
      [by rewrite Hbo|by unfold order_hosts; rewrite Hbh|done|done|].
    unfold bind at 1, __add_order at 1, synchronized at 1, raise at 1.
    unfold tx_rollback, modify, rollback_world.
    destruct Hag as (Hd1 & Ht1 & Hs1 & _ & Hh1 & Ho1 & _). world_simpl.
    rewrite Ht1, Hbt. eexists. split; [reflexivity|]. world_simpl.
    split; [congruence|]. split.
    + rewrite Ho1, Hbo, Hbd, lookup_alter, decide_True, Ho by done. done.
    + intros href Hin. rewrite Hh1, Hbh, untouch_hosts_lookup, decide_True by done.
      destruct (order_hosts_valid w o hs href Hhs Hin) as [h ->]. done.
Qed.

Lemma upsert_variable_order host_id k v db :
  t_order (upsert_variable host_id k v db) = t_order db.
Proof. unfold upsert_variable. by destruct (decide _). Qed.

Lemma upsert_variables_order host_id kvs db :
  t_order (upsert_variables host_id kvs db) = t_order db.
Proof.
  unfold upsert_variables. revert db. induction kvs as [|kv kvs IH]; intros db; [done|].
  cbn [foldl]. by rewrite IH, upsert_variable_order.
Qed.

Lemma save_host_order order_id h db : t_order (save_host order_id h db) = t_order db.
Proof.
  unfold save_host, upsert_host_row. destruct (Host.dirty h); [|done].
  destruct (list_find _ _) as [[i row]|]; cbn [Engine.insert_host];
    by rewrite upsert_variables_order.
Qed.

Lemma save_hosts_order order_id hs db : t_order (save_hosts order_id hs db) = t_order db.
Proof.
  unfold save_hosts. revert db. induction hs as [|h hs IH]; intros db; [done|].
  cbn [foldl]. by rewrite IH, save_host_order.
Qed.

(** C7.  [save_order] is an upsert.  For an order whose id is in the
    tables it updates service, status, closed and created_by of that row
    and, when recursive, upserts each dirty host by (order_id, address) and
    each of its variables by (host_id, name), leaving the hosts clean; for an
    order without an id, or with an id that is not in the tables, it ends
    like [add_order]. *)
Theorem save_order_upsert
    (recursive : bool) (oref : nat) (o : Order.t (option nat)) (hs : list Host.t)
    (w : World) :
  keys_ok (w_data w) → w_tx_depth w = O →
  w_orders w !! oref = Some o → order_hosts w o = Some hs → NoDup (Order.hosts o) →
  (∀ id row, Order.id o = Some id → row ∈ t_order (w_data w) → or_id row = id →
     ∃ w', save_order (Some (Scalar (Some oref))) recursive w = Some (w', Return tt)
       ∧ w_data w'
         = (if recursive then save_hosts id hs else λ db, db)
             (Engine.update_order id (Order.service o) (Order.status o)
                (Order.closed o) (Order.created_by o) (w_data w))
       ∧ t_order (w_data w')
         = (λ r, if decide (or_id r = id)
                 then OrderRow id (Order.service o) (Order.status o) (or_created r)
                               (Order.closed o) (Order.created_by o)
                 else r) <$> t_order (w_data w)
       ∧ w_hosts w' = (if recursive then untouch_hosts (Order.hosts o) (w_hosts w)
                       else w_hosts w)
       ∧ w_orders w' = w_orders w)
  ∧ ((∀ id, Order.id o = Some id → id = 0 ∨ id ∉ or_id <$> t_order (w_data w)) →
     match save_order (Some (Scalar (Some oref))) recursive w,
           add_order (Some (Scalar (Some oref))) recursive w with
     | Some (w1, r1), Some (w2, r2) =>
         r1 = r2 ∧ same_store w1 w2 ∧ w_tx_depth w1 = w_tx_depth w2
     | None, None => True
     | _, _ => False
     end).
Proof.
  intros Hok Hd Ho Hhs Hnd. split.
  - intros id row Hid Hrow Hrid.
    destruct (run_save_order_scalar_found recursive oref o id row hs w)
      as (w' & Hrun & Hdata & Hhosts & Horders & _); try done.
    exists w'. split; [done|]. split; [done|]. split; [|done].
    rewrite Hdata. destruct recursive; [rewrite save_hosts_order|]; cbn [Engine.update_order t_order].
    + apply list_fmap_ext. intros i r _. destruct (decide _) as [->|]; done.
    + apply list_fmap_ext. intros i r _. destruct (decide _) as [->|]; done.
  - intros Hmissing. by apply (save_order_falls_back recursive oref o).
Qed.

(** ** The dirty flag *)

Lemma upsert_save_hosts_clean order_id hs db :
  Forall (λ h, Host.dirty h = false) hs → save_hosts order_id hs db = db.
Proof.
  unfold save_hosts. induction 1 as [|h hs Hh _ IH]; [done|].
  cbn [foldl]. unfold save_host at 2. by rewrite Hh.
Qed.

(** C6.  A host is written only while it is dirty, and is clean after the
    write: on a clean host [__add_host] and [__save_host] return without a
    statement; on a dirty host they write the host and its variables and
    leave it clean; and [save_order] on an order whose hosts are all clean
    writes the order row and nothing else. *)
Theorem host_written_only_while_dirty
    (order_id : Z) (href_clean href_dirty oref : nat) (h_clean h_dirty : Host.t)
    (o : Order.t (option nat)) (hs : list Host.t) (row : order_row) (w : World) :
  w_hosts w !! href_clean = Some h_clean → Host.dirty h_clean = false →
  w_hosts w !! href_dirty = Some h_dirty → Host.dirty h_dirty = true →
  keys_ok (w_data w) → w_tx_depth w = O →
  w_orders w !! oref = Some o → Order.id o = Some (or_id row) →
  row ∈ t_order (w_data w) →
  order_hosts w o = Some hs → NoDup (Order.hosts o) →
  Forall (λ h, Host.dirty h = false) hs →
  (∃ w', __add_host (Some order_id) (Some href_clean) w = Some (w', Return None)
     ∧ w_data w' = w_data w ∧ w_log w' = w_log w ∧ w_hosts w' = w_hosts w)
  ∧ (∃ w' r, __save_host (Some order_id) (Some href_clean) w = Some (w', Return r)
       ∧ w_data w' = w_data w ∧ w_log w' = w_log w ∧ w_hosts w' = w_hosts w)
  ∧ (∃ w' host_id,
       __add_host (Some order_id) (Some href_dirty) w = Some (w', Return (Some host_id))
       ∧ w_data w' = store_host order_id h_dirty (w_data w)
       ∧ Host.dirty <$> w_hosts w' !! href_dirty = Some false)
  ∧ (∃ w' r, __save_host (Some order_id) (Some href_dirty) w = Some (w', Return r)
       ∧ w_data w' = save_host order_id h_dirty (w_data w)
       ∧ Host.dirty <$> w_hosts w' !! href_dirty = Some false)
  ∧ ∃ w', save_order (Some (Scalar (Some oref))) true w = Some (w', Return tt)
      ∧ t_host (w_data w') = t_host (w_data w)
      ∧ t_variable (w_data w') = t_variable (w_data w)
      ∧ w_log w' = w_log w ++ [EvBegin; EvWrite TOrder true; EvCommit].
Proof.
  intros Hc Hcd Hdh Hdd Hok Hd Ho Hid Hrow Hhs Hnd Hclean.
  split; [|split; [|split; [|split]]].
  - destruct (run_add_host_clean order_id href_clean h_clean w Hc Hcd)
      as (w' & Hrun & Hag & Hlog).
    exists w'. destruct Hag as (? & _ & _ & _ & ? & _). by repeat split.
  - destruct (run_save_host order_id href_clean h_clean w Hc) as (w' & r & Hrun & Hag & Hlog).
    exists w', r. destruct Hag as (Hdata & _ & _ & _ & Hhosts & _). world_simpl.
    unfold save_host in Hdata. rewrite Hcd in Hdata.
    rewrite (alter_untouch_clean _ _ h_clean) in Hhosts by done. auto.
  - destruct (run_add_host_dirty order_id href_dirty h_dirty w Hdh Hdd)
      as (w' & host_id & Hrun & Hag).
    exists w', host_id. destruct Hag as (Hdata & _ & _ & _ & Hhosts & _). world_simpl.
    split; [done|]. split; [done|]. by rewrite Hhosts, lookup_alter, decide_True, Hdh.
  - destruct (run_save_host order_id href_dirty h_dirty w Hdh) as (w' & r & Hrun & Hag & _).
    exists w', r. destruct Hag as (Hdata & _ & _ & _ & Hhosts & _). world_simpl.
    split; [done|]. split; [done|]. by rewrite Hhosts, lookup_alter, decide_True, Hdh.
  - destruct (run_save_order_scalar_found true oref o (or_id row) row hs w)
      as (w' & Hrun & Hdata & _ & _ & Hlog); try done.
    exists w'. rewrite upsert_save_hosts_clean in Hdata by done.
    rewrite Hdata. auto.
Qed.

(** ** The lock *)

(** C9, at [close_open_orders].  The method is not decorated: it runs
    its update without touching the lock, so the write is made with the lock
    held only if the caller already held it.  Its siblings ([clear_database],
    the private insert and update methods) write under the lock. *)
Theorem close_open_orders_takes_no_lock (w : World) :
  (∃ w', close_open_orders w = Some (w', Return tt)
     ∧ w_data w' = Engine.update_closed_null (w_now w) (w_data w)
     ∧ w_sync_lock w' = w_sync_lock w
     ∧ w_log w' = w_log w ++ [EvWrite TOrder (lock_held w)])
  ∧ (∃ w', clear_database w = Some (w', Return true)
       ∧ w_log w' = w_log w ++ [EvWrite TOrder true])
  ∧ (w_log <$> (fst <$> close_open_orders sample_world)) = Some [EvWrite TOrder false]
  ∧ (w_log <$> (fst <$> add_order (Some (Scalar (Some 0%nat))) true sample_heap_world))
    = Some [EvBegin; EvWrite TOrder true; EvWrite THost true; EvWrite TVariable true;
            EvWrite TVariable true; EvWrite THost true; EvCommit].
Proof.
  split; [|split; [|split]].
  - eexists. split; [reflexivity|]. done.
  - eexists. split; [reflexivity|]. done.
  - by vm_compute.
  - by vm_compute.
Qed.

(** ** The theorems at the sample states *)

Lemma add_order_get_orders_round_trip_witness :
  ∃ w' id loaded,
    add_order (Some (Scalar (Some 0%nat))) true sample_heap_world = Some (w', Return tt)
    ∧ Order.id <$> w_orders w' !! 0%nat = Some (Some id)
    ∧ get_orders 0 0 true (Criteria (Some (Scalar id)) None None) w'
      = Some (w', Return [loaded])
    ∧ Order.id loaded = Some id
    ∧ Order.service loaded = Order.service sample_order
    ∧ Order.status loaded = Order.status sample_order
    ∧ Order.closed loaded = Order.closed sample_order
    ∧ Order.created_by loaded = Order.created_by sample_order
    ∧ host_view <$> Order.hosts loaded = host_view <$> [sample_host_a; sample_host_b].
Proof.
  apply (add_order_get_orders_round_trip 0 sample_heap_world 0%nat sample_order
           [sample_host_a; sample_host_b]).
  - compute_done.
  - reflexivity.
  - reflexivity.
  - compute_done.
  - compute_done.
Defined.

Lemma grouping_total_over_null_patterns_witness :
  __get_orders_from_query
    (ResultSet true (t_order sample_tables ≫= Engine.join_order sample_tables))
  = Some (load_order sample_tables <$> t_order sample_tables).
Proof.
  apply (grouping_total_over_null_patterns sample_tables (t_order sample_tables)
           (ResultSet true []) true (Engine.outerjoin sample_tables)
           (Engine.outerjoin sample_tables)).
  - compute_done.
  - reflexivity.
  - reflexivity.
Defined.

Lemma get_order_exactly_one_witness :
  get_order (Criteria None None (Some (PyList ["open"; "pending"]))) sample_world
  = Some (sample_world, Raise (Exception "Too many results")).
Proof.
  apply (get_order_exactly_one (Criteria None None (Some (PyList ["open"; "pending"])))
           sample_world).
  - compute_done.
  - repeat split; intros a [= <-]; discriminate.
  - vm_compute. lia.
Defined.

Lemma add_order_save_order_one_transaction_witness :
  w_tx_depth sample_failed_world = O
  ∧ w_data sample_failed_world = w_data sample_heap_world
  ∧ tx_events (w_log sample_failed_world)
    = tx_events (w_log sample_heap_world) ++ [EvBegin; EvRollback]
  ∧ ∃ wb w1, tx_begin sample_heap_world = Some (wb, Return tt)
             ∧ add_batch (Scalar (Some 2%nat)) true wb
               = Some (w1, Raise (AttributeError "host argument must not be None")).
Proof.
  destruct (add_order_save_order_one_transaction (Scalar (Some 2%nat)) true
              sample_heap_world sample_failed_world
              (Raise (AttributeError "host argument must not be None")) eq_refl)
    as [Hadd _].
  apply Hadd. vm_compute. reflexivity.
Defined.

Lemma add_order_rollback_keeps_objects_witness :
  ∃ w2, add_order (Some (PyList [Some 0%nat; None])) true sample_heap_world
        = Some (w2, Raise (AttributeError "order argument must not be None"))
    ∧ w_data w2 = w_data sample_heap_world
    ∧ Order.id <$> w_orders w2 !! 0%nat
      = Some (Some (Engine.next_id (or_id <$> t_order (w_data sample_heap_world))))
    ∧ ∀ href, Some href ∈ Order.hosts sample_order →
        Host.dirty <$> w_hosts w2 !! href = Some false.
Proof.
  apply (add_order_rollback_keeps_objects (Scalar None) [] true sample_heap_world
           sample_heap_world (Exception "") 0%nat sample_order
           [sample_host_a; sample_host_b]).
  - reflexivity.
  - reflexivity.
  - reflexivity.
  - compute_done.
  - compute_done.
Defined.

Lemma host_written_only_while_dirty_witness :
  ∃ w', save_order (Some (Scalar (Some 1%nat))) true sample_heap_world
        = Some (w', Return tt)
    ∧ t_host (w_data w') = t_host (w_data sample_heap_world)
    ∧ t_variable (w_data w') = t_variable (w_data sample_heap_world)
    ∧ w_log w' = w_log sample_heap_world ++ [EvBegin; EvWrite TOrder true; EvCommit].
Proof.
  apply (host_written_only_while_dirty 1 2%nat 0%nat 1%nat sample_host_clean
           sample_host_a sample_order_clean [sample_host_clean]
           (OrderRow 1 "backup" "open" 10 None "alice") sample_heap_world).
  - reflexivity.
  - reflexivity.
  - reflexivity.
  - reflexivity.
  - compute_done.
  - reflexivity.
  - reflexivity.
  - reflexivity.
  - by left.
  - reflexivity.
  - compute_done.
  - compute_done.
Defined.

Lemma save_order_upsert_witness :
  ∃ w', save_order (Some (Scalar (Some 1%nat))) true sample_heap_world
        = Some (w', Return tt)
    ∧ w_data w'
      = save_hosts 1 [sample_host_clean]
          (Engine.update_order 1 "backup" "closed" (Some 50) "dave"
             (w_data sample_heap_world))
    ∧ t_order (w_data w')
      = (λ r, if decide (or_id r = 1)
              then OrderRow 1 "backup" "closed" (or_created r) (Some 50) "dave"
              else r) <$> t_order (w_data sample_heap_world)
    ∧ w_hosts w' = untouch_hosts [Some 2%nat] (w_hosts sample_heap_world)
    ∧ w_orders w' = w_orders sample_heap_world.
Proof.
  destruct (save_order_upsert true 1%nat sample_order_clean [sample_host_clean]
              sample_heap_world) as [Hfound _].
  - compute_done.
  - reflexivity.
  - reflexivity.
  - reflexivity.
  - compute_done.
  - apply (Hfound 1 (OrderRow 1 "backup" "open" 10 None "alice")).
    + reflexivity.
    + by left.
    + reflexivity.
Defined.

(** ** Rules for [hoare] *)

Lemma hoare_ret {A} (a : A) (Q : A → World → Prop) E : hoare (Q a) (ret a) Q E.
Proof. by intros w w' r HP [= <- <-]. Qed.

Lemma hoare_raise {A} e (Q : A → World → Prop) (E : World → Prop) :
  hoare E (raise e) Q E.
Proof. by intros w w' r HP [= <- <-]. Qed.

Lemma hoare_gets {A} (f : World → A) (Q : A → World → Prop) E :
  hoare (λ w, Q (f w) w) (gets f) Q E.
Proof. by intros w w' r HP [= <- <-]. Qed.

Lemma hoare_modify (f : World → World) (Q : unit → World → Prop) E :
  hoare (λ w, Q tt (f w)) (modify f) Q E.
Proof. by intros w w' r HP [= <- <-]. Qed.

Lemma hoare_conseq {A} (P P' : World → Prop) (m : M A) (Q Q' : A → World → Prop)
    (E E' : World → Prop) :
  hoare P m Q E → (∀ w, P' w → P w) → (∀ a w, Q a w → Q' a w) → (∀ w, E w → E' w) →
  hoare P' m Q' E'.
Proof.
  intros Hm HP HQ HE w w' r Hw Hrun. specialize (Hm w w' r (HP _ Hw) Hrun).
  destruct r; auto.
Qed.

Lemma hoare_pre {A} (P P' : World → Prop) (m : M A) Q E :
  hoare P m Q E → (∀ w, P' w → P w) → hoare P' m Q E.
Proof. intros Hm HP. by apply (hoare_conseq P P' m Q Q E E). Qed.

Lemma hoare_bind {A B} (P : World → Prop) (m : M A) (Q1 : A → World → Prop)
    (k : A → M B) (Q : B → World → Prop) E :
  hoare P m Q1 E → (∀ a, hoare (Q1 a) (k a) Q E) → hoare P (bind m k) Q E.
Proof.
  intros Hm Hk w w' r HP Hrun. unfold bind in Hrun.
  destruct (m w) as [[w1 [a|e]]|] eqn:Hmw; [| |done].
  - eapply Hk; [|exact Hrun]. exact (Hm w w1 (Return a) HP Hmw).
  - injection Hrun as <- <-. exact (Hm w w1 (Raise e) HP Hmw).
Qed.

Lemma hoare_for_each {A B} (I E : World → Prop) (l : list A) (body : A → M B) :
  (∀ x, x ∈ l → hoare I (body x) (λ _, I) E) →
  hoare I (for_each l body) (λ _, I) E.
Proof.
  induction l as [|x l IH]; intros Hbody; [by intros w w' r HP [= <- <-]|].
  cbn [for_each]. eapply hoare_bind; [apply Hbody; by left|].
  intros ?. apply IH. intros y Hy. apply Hbody. by right.
Qed.

(** A loop with an iteration that cannot return does not return. *)
Lemma hoare_for_each_stops {A B} (I : World → Prop) (l : list A) (body : A → M B) x :
  x ∈ l →
  (∀ y, hoare I (body y) (λ _, I) (λ _, True)) →
  hoare I (body x) (λ _ _, False) (λ _, True) →
  hoare I (for_each l body) (λ _ _, False) (λ _, True).
Proof.
  intros Hin Hbody Hx. induction l as [|y l IH]; [by apply elem_of_nil in Hin|].
  cbn [for_each]. apply elem_of_cons in Hin as [<-|Hin].
  - eapply hoare_bind; [exact Hx|]. by intros ? w.
  - eapply hoare_bind; [apply Hbody|]. intros ?. by apply IH.
Qed.

Lemma hoare_try {A} (P E1 : World → Prop) (body : M A) (handler : M unit) Q E :
  hoare P body Q E1 → hoare E1 handler (λ _, E) E →
  hoare P (try_except_reraise body handler) Q E.
Proof.
  intros Hb Hh w w' r HP Hrun. unfold try_except_reraise in Hrun.
  destruct (body w) as [[w1 [a|e]]|] eqn:Hbw; [| |done].
  - injection Hrun as <- <-. exact (Hb w w1 (Return a) HP Hbw).
  - pose proof (Hb w w1 (Raise e) HP Hbw) as HE1. cbn in HE1.
    destruct (handler w1) as [[w2 [[]|e']]|] eqn:Hhw; [| |done];
      injection Hrun as <- <-.
    + exact (Hh w1 w2 (Return tt) HE1 Hhw).
    + exact (Hh w1 w2 (Raise e') HE1 Hhw).
Qed.

Lemma hoare_synchronized {A} (P : World → Prop) (func : M A) (Q : A → World → Prop)
    (E : World → Prop) :
  hoare (λ w, ∃ w0, P w0 ∧ w = acquire w0) func
        (λ a w, Q a (release w)) (λ w, E (release w)) →
  hoare P (synchronized func) Q E.
Proof.
  intros Hf w w' r HP Hrun. unfold synchronized in Hrun.
  destruct (func (acquire w)) as [[w1 r1]|] eqn:Hfw; [|done].
  injection Hrun as <- <-. apply (Hf (acquire w) w1 r1); [by exists w|done].
Qed.

Lemma hoare_execute {A} (t : table) (stmt : Tables → Tables * A)
    (Q : A → World → Prop) E :
  hoare (λ w, Q (stmt (w_data w)).2
                (with_event (EvWrite t (lock_held w))
                   (with_data (stmt (w_data w)).1 w)))
        (execute t stmt) Q E.
Proof.
  intros w w' r HP Hrun. unfold execute in Hrun.
  destruct (stmt (w_data w)) as [db a]. by injection Hrun as <- <-.
Qed.

Lemma hoare_read_host href (Q : Host.t → World → Prop) E :
  hoare (λ w, ∀ h, w_hosts w !! href = Some h → Q h w) (read_host href) Q E.
Proof.
  intros w w' r HP Hrun. unfold read_host in Hrun.
  destruct (w_hosts w !! href) as [h|] eqn:Hh; [|done].
  injection Hrun as <- <-. by apply HP.
Qed.

Lemma hoare_read_order oref (Q : Order.t (option nat) → World → Prop) E :
  hoare (λ w, ∀ o, w_orders w !! oref = Some o → Q o w) (read_order oref) Q E.
Proof.
  intros w w' r HP Hrun. unfold read_order in Hrun.
  destruct (w_orders w !! oref) as [o|] eqn:Ho; [|done].
  injection Hrun as <- <-. by apply HP.
Qed.

Lemma hoare_get_orders offset limit recursive kwargs
    (Q : list (Order.t Host.t) → World → Prop) E :
  hoare (λ w, ∀ l, get_orders offset limit recursive kwargs w = Some (w, Return l) →
                   Q l w)
        (get_orders offset limit recursive kwargs) Q E.
Proof.
  intros w w' r HP Hrun. pose proof Hrun as Hrun'. unfold get_orders in Hrun.
  destruct (__get_orders_from_query _) as [l|]; [|done].
  injection Hrun as <- <-. by apply HP.
Qed.

(** ** Invariants that do not look at the lock or at the log *)

Lemma keeps_ret {A} I (a : A) : keeps I (ret a).
Proof. by intros w w' r HP [= <- <-]. Qed.

Lemma keeps_raise {A} I e : keeps I (raise (A := A) e).
Proof. by intros w w' r HP [= <- <-]. Qed.

Lemma keeps_gets {A} I (f : World → A) : keeps I (gets f).
Proof. by intros w w' r HP [= <- <-]. Qed.

Lemma keeps_bind {A B} I (m : M A) (k : A → M B) :
  keeps I m → (∀ a, keeps I (k a)) → keeps I (bind m k).
Proof. intros Hm Hk. by eapply hoare_bind. Qed.

Lemma keeps_for_each {A B} I (l : list A) (body : A → M B) :
  (∀ x, keeps I (body x)) → keeps I (for_each l body).
Proof. intros Hbody. apply hoare_for_each. intros x _. apply Hbody. Qed.

Lemma keeps_try {A} I (body : M A) (handler : M unit) :
  keeps I body → keeps I handler → keeps I (try_except_reraise body handler).
Proof. intros Hb Hh. by eapply hoare_try. Qed.

Lemma store_pred_acquire P w : store_pred P → P w → P (acquire w).
Proof. intros HP Hw. exact (HP w _ _ Hw). Qed.

Lemma store_pred_release P w : store_pred P → P w → P (release w).
Proof. intros HP Hw. exact (HP w _ _ Hw). Qed.

Lemma store_pred_event P e w : store_pred P → P w → P (with_event e w).
Proof. intros HP Hw. exact (HP w _ _ Hw). Qed.

Lemma keeps_synchronized {A} I (func : M A) :
  store_pred I → keeps I func → keeps I (synchronized func).
Proof.
  intros HI Hf. apply hoare_synchronized.
  eapply hoare_conseq; [exact Hf| | |].
  - intros w (w0 & Hw0 & ->). by apply store_pred_acquire.
  - intros ? w Hw. by apply store_pred_release.
  - intros w Hw. by apply store_pred_release.
Qed.

Lemma keeps_read_host I href : keeps I (read_host href).
Proof. eapply hoare_pre; [apply hoare_read_host|]. by intros w Hw h _. Qed.

Lemma keeps_read_order I oref : keeps I (read_order oref).
Proof. eapply hoare_pre; [apply hoare_read_order|]. by intros w Hw o _. Qed.

Lemma keeps_get_orders I offset limit recursive kwargs :
  keeps I (get_orders offset limit recursive kwargs).
Proof. eapply hoare_pre; [apply hoare_get_orders|]. by intros w Hw l _. Qed.

Lemma keeps_get_order I kwargs : keeps I (get_order kwargs).
Proof.
  apply keeps_bind; [apply keeps_get_orders|].
  intros [|o [|o' l]]; [apply keeps_ret|apply keeps_ret|apply keeps_raise].
Qed.

(** A statement that keeps [I] on the tables. *)
Lemma keeps_execute {A} I (t : table) (stmt : Tables → Tables * A) :
  store_pred I → (∀ w, I w → I (with_data (stmt (w_data w)).1 w)) →
  keeps I (execute t stmt).
Proof.
  intros HI Hstmt. eapply hoare_pre; [apply hoare_execute|].
  intros w Hw. cbn beta. apply store_pred_event; [done|]. by apply Hstmt.
Qed.

Lemma keeps_heap_update I (f : World → World) :
  (∀ w, I w → I (f w)) → keeps I (modify f).
Proof. intros Hf. eapply hoare_pre; [apply hoare_modify|]. exact Hf. Qed.

(** ** Proper keys are an invariant *)

Lemma Forall_fmap_eq {A B} (f : A → B) (P : B → Prop) (l l' : list A) :
  f <$> l' = f <$> l → Forall (λ x, P (f x)) l → Forall (λ x, P (f x)) l'.
Proof.
  intros Heq H. assert (H1 : Forall P (f <$> l)) by exact (proj2 (Forall_fmap f P l) H).
  rewrite <- Heq in H1. exact (proj1 (Forall_fmap f P l') H1).
Qed.

Lemma db_ok_keys db db' :
  or_id <$> t_order db' = or_id <$> t_order db →
  refs_key_h <$> t_host db' = refs_key_h <$> t_host db →
  refs_key_v <$> t_variable db' = refs_key_v <$> t_variable db →
  db_ok db → db_ok db'.
Proof.
  intros Ho Hh Hv.
  assert (Hhi : hr_id <$> t_host db' = hr_id <$> t_host db).
  { change hr_id with (fst ∘ refs_key_h). by rewrite !list_fmap_compose, Hh. }
  assert (Hho : hr_order_id <$> t_host db' = hr_order_id <$> t_host db).
  { change hr_order_id with (snd ∘ refs_key_h). by rewrite !list_fmap_compose, Hh. }
  assert (Hvi : vr_id <$> t_variable db' = vr_id <$> t_variable db).
  { change vr_id with (fst ∘ refs_key_v). by rewrite !list_fmap_compose, Hv. }
  assert (Hvh : vr_host_id <$> t_variable db' = vr_host_id <$> t_variable db).
  { change vr_host_id with (snd ∘ refs_key_v). by rewrite !list_fmap_compose, Hv. }
  intros [(K1 & K2 & K3 & K4 & K5 & K6) [R1 R2]].
  repeat split.
  - by rewrite Ho.
  - by apply (Forall_fmap_eq or_id (λ i, 0 < i) (t_order db)).
  - by rewrite Hhi.
  - by apply (Forall_fmap_eq hr_id (λ i, 0 < i) (t_host db)).
  - by rewrite Hvi.
  - by apply (Forall_fmap_eq vr_id (λ i, 0 < i) (t_variable db)).
  - rewrite Ho. by apply (Forall_fmap_eq hr_order_id (λ i, i ∈ _) (t_host db)).
  - rewrite Hhi. by apply (Forall_fmap_eq vr_host_id (λ i, i ∈ _) (t_variable db)).
Qed.

Lemma fmap_update_key {A K} (key : A → K) (f : A → A) (l : list A) :
  (∀ x, key (f x) = key x) → key <$> (f <$> l) = key <$> l.
Proof.
  intros Hf. rewrite <- list_fmap_compose. apply list_fmap_ext.
  intros i x _. apply Hf.
Qed.

Lemma update_order_ok id service status closed created_by db :
  db_ok db → db_ok (Engine.update_order id service status closed created_by db).
Proof.
  apply db_ok_keys; [|done|done]. cbn [Engine.update_order t_order].
  apply fmap_update_key. intros r. by destruct (decide _).
Qed.

Lemma update_host_ok order_id address name db :
  db_ok db → db_ok (Engine.update_host order_id address name db).
Proof.
  apply db_ok_keys; [done| |done]. cbn [Engine.update_host t_host].
  apply fmap_update_key. intros h. destruct (decide _) as [[<- _]|]; done.
Qed.

Lemma update_variable_ok host_id name v db :
  db_ok db → db_ok (Engine.update_variable host_id name v db).
Proof.
  apply db_ok_keys; [done|done|]. cbn [Engine.update_variable t_variable].
  apply fmap_update_key. intros x. destruct (decide _) as [[<- _]|]; done.
Qed.

Lemma update_closed_null_ok now db :
  db_ok db → db_ok (Engine.update_closed_null now db).
Proof.
  apply db_ok_keys; [|done|done]. cbn [Engine.update_closed_null t_order].
  apply fmap_update_key. intros r. by destruct (decide _).
Qed.

Lemma insert_host_ok order_id name address db :
  db_ok db → order_id ∈ or_id <$> t_order db →
  db_ok (Engine.insert_host order_id name address db).1.
Proof.
  intros [(K1 & K2 & K3 & K4 & K5 & K6) [R1 R2]] Hin.
  unfold Engine.insert_host. cbn [fst t_order t_host t_variable].
  repeat split; cbn [t_order t_host t_variable]; try done.
  - apply NoDup_snoc_fresh; [done|apply next_id_fresh].
  - apply Forall_app. split; [done|]. apply Forall_singleton, next_id_pos.
  - apply Forall_app. split; [done|]. by apply Forall_singleton.
  - eapply Forall_impl; [exact R2|]. intros v Hv. rewrite fmap_app.
    apply elem_of_app. by left.
Qed.

Lemma select_host_elem order_id address db h :
  Engine.select_host order_id address db = Some h → hr_id h ∈ hr_id <$> t_host db.
Proof.
  unfold Engine.select_host. intros Hh%head_Some_elem_of.
  apply list_elem_of_filter in Hh as [_ Hh]. by apply list_elem_of_fmap_2.
Qed.

Lemma store_pred_tables_ok : store_pred tables_ok.
Proof. by intros w l log. Qed.

Lemma store_pred_order_stored order_id : store_pred (order_stored order_id).
Proof. by intros w l log. Qed.

Lemma store_pred_host_stored order_id host_id : store_pred (host_stored order_id host_id).
Proof. by intros w l log. Qed.

#[global] Hint Resolve store_pred_tables_ok store_pred_order_stored
  store_pred_host_stored : core.

Lemma tables_ok_with_data db w : tables_ok w → db_ok db → tables_ok (with_data db w).
Proof. by intros [_ Hsaved] Hok. Qed.

Lemma order_stored_with_data order_id db w :
  order_stored order_id w → db_ok db →
  or_id <$> t_order (w_data w) ⊆ or_id <$> t_order db →
  order_stored order_id (with_data db w).
Proof.
  intros [Hok Ho] Hdb Hsub. split; [by apply tables_ok_with_data|]. by apply Hsub.
Qed.

Lemma host_stored_with_data order_id host_id db w :
  host_stored order_id host_id w → db_ok db →
  or_id <$> t_order (w_data w) ⊆ or_id <$> t_order db →
  hr_id <$> t_host (w_data w) ⊆ hr_id <$> t_host db →
  host_stored order_id host_id (with_data db w).
Proof.
  intros [Hok Hh] Hdb Hsubo Hsubh. split; [by apply order_stored_with_data|].
  by apply Hsubh.
Qed.

Lemma fmap_snoc_subseteq {A B} (f : A → B) (l : list A) x : f <$> l ⊆ f <$> l ++ [x].
Proof. intros y Hy. rewrite fmap_app. apply elem_of_app. by left. Qed.

Lemma fmap_snoc_elem {A B} (f : A → B) (l : list A) x : f x ∈ f <$> l ++ [x].
Proof. rewrite fmap_app. apply elem_of_app. right. by left. Qed.

Lemma keeps_add_variable_ok order_id host_id key v :
  keeps (host_stored order_id host_id) (__add_variable (Some host_id) key v).
Proof.
  unfold __add_variable. apply keeps_synchronized; [done|].
  destruct key as [key|]; [|apply keeps_raise].
  apply keeps_execute; [done|].
  intros w Hw. apply host_stored_with_data; [done| |done|done].
  apply insert_variable_ok; [apply Hw|apply Hw].
Qed.

Lemma keeps_save_variable_ok order_id host_id key v :
  keeps (host_stored order_id host_id) (__save_variable (Some host_id) key v).
Proof.
  unfold __save_variable. apply keeps_synchronized; [done|].
  destruct key as [key|]; [|apply keeps_raise].
  apply keeps_bind; [apply keeps_gets|]. intros [thevar|].
  - apply keeps_execute; [done|].
    intros w Hw. apply host_stored_with_data; [done| |done|done].
    apply update_variable_ok, Hw.
  - apply keeps_bind; [|intros ?; apply keeps_ret].
    apply keeps_execute; [done|].
    intros w Hw. apply host_stored_with_data; [done| |done|done].
    apply insert_variable_ok; [apply Hw|apply Hw].
Qed.

Lemma host_stored_order order_id host_id w :
  host_stored order_id host_id w → order_stored order_id w.
Proof. by intros [? _]. Qed.

Lemma keeps_add_host_ok order_id host :
  keeps (order_stored order_id) (__add_host (Some order_id) host).
Proof.
  unfold __add_host. apply keeps_synchronized; [done|].
  destruct host as [href|]; [|apply keeps_raise].
  apply keeps_bind; [apply keeps_read_host|]. intros h.
  destruct (negb (Host.is_dirty h)); [apply keeps_ret|].
  eapply hoare_bind with (Q1 := host_stored order_id).
  - eapply hoare_pre; [apply hoare_execute|].
    intros w Hw. cbn beta. apply store_pred_event; [done|].
    split; [|exact (fmap_snoc_elem hr_id (t_host (w_data w)) (HostRow _ _ _ _))].
    apply order_stored_with_data; [done| |done].
    apply insert_host_ok; [apply Hw|apply Hw].
  - intros host_id.
    eapply hoare_conseq with (Q := λ _, host_stored order_id host_id)
                             (E := host_stored order_id host_id);
      [|done|intros ?; apply host_stored_order|apply host_stored_order].
    apply keeps_bind.
    { apply keeps_for_each. intros kv. apply keeps_add_variable_ok. }
    intros ?. apply keeps_bind; [|intros ?; apply keeps_ret].
    by apply keeps_heap_update.
Qed.

Lemma keeps_save_host_ok order_id host :
  keeps (order_stored order_id) (__save_host (Some order_id) host).
Proof.
  unfold __save_host. apply keeps_synchronized; [done|].
  destruct host as [href|]; [|apply keeps_raise].
  apply keeps_bind; [apply keeps_read_host|]. intros h.
  destruct (negb (Host.is_dirty h)); [apply keeps_ret|].
  eapply hoare_bind
    with (Q1 := λ thehost w,
            order_stored order_id w
            ∧ ∀ row, thehost = Some row → hr_id row ∈ hr_id <$> t_host (w_data w)).
  { eapply hoare_pre; [apply hoare_gets|]. intros w Hw. split; [done|].
    intros row Hrow. by eapply select_host_elem. }
  intros thehost.
  eapply hoare_bind with (Q1 := host_stored order_id).
  - destruct thehost as [row|].
    + eapply hoare_pre; [apply hoare_execute|].
      intros w [Hw Hrow]. cbn beta. apply store_pred_event; [done|].
      split.
      * apply order_stored_with_data; [done| |done]. apply update_host_ok, Hw.
      * cbn [snd fst with_data w_data Engine.update_host t_host].
        rewrite fmap_update_key; [by apply Hrow|].
        intros x. by destruct (decide _).
    + eapply hoare_pre; [apply hoare_execute|].
      intros w [Hw _]. cbn beta. apply store_pred_event; [done|].
      split; [|exact (fmap_snoc_elem hr_id (t_host (w_data w)) (HostRow _ _ _ _))].
      apply order_stored_with_data; [done| |done].
      apply insert_host_ok; [apply Hw|apply Hw].
  - intros host_id.
    eapply hoare_conseq with (Q := λ _, host_stored order_id host_id)
                             (E := host_stored order_id host_id);
      [|done|intros ?; apply host_stored_order|apply host_stored_order].
    apply keeps_bind.
    { apply keeps_for_each. intros kv. apply keeps_save_variable_ok. }
    intros ?. apply keeps_bind; [|intros ?; apply keeps_ret].
    by apply keeps_heap_update.
Qed.

Lemma order_stored_tables order_id w : order_stored order_id w → tables_ok w.
Proof. by intros [? _]. Qed.

Lemma keeps_add_order_inner_ok order recursive :
  keeps tables_ok (__add_order order recursive).
Proof.
  unfold __add_order. apply keeps_synchronized; [done|].
  destruct order as [oref|]; [|apply keeps_raise].
  apply keeps_bind; [apply keeps_read_order|]. intros o.
  apply keeps_bind; [apply keeps_gets|]. intros now.
  eapply hoare_bind with (Q1 := order_stored).
  - eapply hoare_pre; [apply hoare_execute|].
    intros w Hw. cbn beta. apply store_pred_event; [done|].
    split; [|exact (fmap_snoc_elem or_id (t_order (w_data w)) (OrderRow _ _ _ _ _ _))].
    apply tables_ok_with_data; [done|]. apply insert_order_ok, Hw.
  - intros id.
    eapply hoare_conseq with (Q := λ _, order_stored id) (E := order_stored id);
      [|done|intros ?; apply order_stored_tables|apply order_stored_tables].
    apply keeps_bind; [by apply keeps_heap_update|]. intros ?.
    destruct (negb recursive); [apply keeps_ret|].
    apply keeps_bind; [|intros ?; apply keeps_ret].
    apply keeps_for_each. intros host. apply keeps_add_host_ok.
Qed.

Lemma keeps_tx_begin_ok : keeps tables_ok tx_begin.
Proof.
  apply keeps_heap_update. intros w [Hok Hsaved]. unfold begin_world.
  destruct (w_tx_depth w) eqn:Hd; split; try done. intros _. by apply Hsaved.
Qed.

Lemma keeps_tx_commit_ok : keeps tables_ok tx_commit.
Proof.
  apply keeps_heap_update. intros w [Hok Hsaved]. unfold commit_world.
  destruct (w_tx_depth w) as [|[|d]] eqn:Hd; split; try done.
  intros _. by apply Hsaved.
Qed.

Lemma keeps_tx_rollback_ok : keeps tables_ok tx_rollback.
Proof.
  apply keeps_heap_update. intros w [Hok Hsaved]. unfold rollback_world.
  destruct (w_tx_depth w) eqn:Hd; split; try done. by apply Hsaved.
Qed.

Lemma keeps_add_order_ok orders recursive : keeps tables_ok (add_order orders recursive).
Proof.
  unfold add_order. destruct orders as [orders|]; [|apply keeps_raise].
  apply keeps_bind; [apply keeps_tx_begin_ok|]. intros ?.
  apply keeps_try; [|apply keeps_tx_rollback_ok].
  apply keeps_bind; [|intros ?; apply keeps_tx_commit_ok].
  apply keeps_for_each. intros order. apply keeps_add_order_inner_ok.
Qed.

Lemma get_order_stored id w w' x :
  keys_ok (w_data w) →
  get_order (Criteria (Some (Scalar id)) None None) w = Some (w', Return (Some x)) →
  w' = w ∧ id ∈ or_id <$> t_order (w_data w).
Proof.
  intros Hok Hrun. destruct (decide (id ∈ or_id <$> t_order (w_data w))) as [Hin|Hnin].
  - split; [|done]. apply list_elem_of_fmap in Hin as (o & -> & Ho).
    rewrite (get_order_found w o Hok Ho) in Hrun. by injection Hrun.
  - by rewrite (get_order_missing w id Hok Hnin) in Hrun.
Qed.

Lemma keeps_save_order_inner_ok order recursive :
  keeps tables_ok (__save_order order recursive).
Proof.
  unfold __save_order. apply keeps_synchronized; [done|].
  destruct order as [oref|]; [|apply keeps_raise].
  apply keeps_bind; [apply keeps_read_order|]. intros o.
  eapply hoare_bind
    with (Q1 := λ theorder w,
            tables_ok w
            ∧ (is_Some theorder → ∀ id, Order.get_id o = Some id →
               id ∈ or_id <$> t_order (w_data w))).
  { destruct (truthy (Order.id o)) eqn:Hid.
    - intros w w' r Hw Hrun. pose proof (keeps_get_order tables_ok _ w w' r Hw Hrun) as Hk.
      destruct r as [theorder|e]; [|done]. split; [done|].
      intros [x ->] id Hget. rewrite Hget in Hrun. cbn [fmap option_fmap option_map] in Hrun.
      destruct Hw as [[Hkeys _] _].
      by destruct (get_order_stored id w w' x Hkeys Hrun) as [-> ?].
    - eapply hoare_pre; [apply hoare_ret|]. intros w Hw. split; [done|].
      by intros [? [=]]. }
  intros [theorder|]; [|eapply hoare_pre; [apply keeps_add_order_ok|by intros w [? _]]].
  destruct (Order.get_id o) as [id|]; [|by intros w w' r _ [=]].
  eapply hoare_bind with (Q1 := λ _, order_stored id).
  - eapply hoare_pre; [apply hoare_execute|].
    intros w [Hw Hid]. cbn beta. apply store_pred_event; [done|].
    split.
    + apply tables_ok_with_data; [done|]. apply update_order_ok, Hw.
    + cbn [snd fst with_data w_data Engine.update_order t_order].
      rewrite fmap_update_key; [by apply Hid|].
      intros x. by destruct (decide _).
  - intros ?.
    eapply hoare_conseq with (Q := λ _, order_stored id) (E := order_stored id);
      [|done|intros ?; apply order_stored_tables|apply order_stored_tables].
    destruct (negb recursive); [apply keeps_ret|].
    apply keeps_for_each. intros host. apply keeps_save_host_ok.
Qed.

Lemma keeps_save_order_ok orders recursive :
  keeps tables_ok (save_order orders recursive).
Proof.
  unfold save_order. destruct orders as [orders|]; [|apply keeps_raise].
  apply keeps_bind; [apply keeps_tx_begin_ok|]. intros ?.
  apply keeps_try; [|apply keeps_tx_rollback_ok].
  apply keeps_bind; [|intros ?; apply keeps_tx_commit_ok].
  apply keeps_for_each. intros order. apply keeps_save_order_inner_ok.
Qed.

Lemma keeps_close_open_orders_ok : keeps tables_ok close_open_orders.
Proof.
  unfold close_open_orders. apply keeps_bind; [apply keeps_gets|]. intros now.
  apply keeps_execute; [done|]. intros w Hw.
  apply tables_ok_with_data; [done|]. apply update_closed_null_ok, Hw.
Qed.

Lemma no_rows_ok : db_ok no_rows.
Proof. repeat split; constructor. Qed.

(** When the foreign keys refer to rows that exist, the cascade takes every
    host and every variable along with the orders. *)
Lemma delete_orders_refs_ok db : refs_ok db → Engine.delete_orders db = no_rows.
Proof.
  intros [Hh Hv]. unfold Engine.delete_orders, no_rows.
  assert (Hhosts : filter (λ h, hr_order_id h ∈ or_id <$> t_order db) (t_host db)
                   = t_host db).
  { clear Hv. induction Hh as [|h l Hin _ IH]; [done|].
    by rewrite filter_cons_True, IH. }
  rewrite Hhosts. f_equal.
  - apply filter_none. eapply Forall_impl; [exact Hh|]. by intros h Hin Hnot.
  - apply filter_none. eapply Forall_impl; [exact Hv|]. by intros v Hin Hnot.
Qed.

Lemma keeps_clear_database_ok : keeps tables_ok clear_database.
Proof.
  unfold clear_database. apply keeps_synchronized; [done|].
  apply keeps_bind; [|intros ?; apply keeps_ret].
  apply keeps_execute; [done|]. intros w Hw.
  apply tables_ok_with_data; [done|]. cbn.
  rewrite delete_orders_refs_ok by apply Hw. apply no_rows_ok.
Qed.

(** ** Invariants of the write path

    An invariant of the store that each statement and each transaction
    boundary keeps is kept by every method that writes. *)

Section write_path.
Context (I : World → Prop).
Hypothesis I_store : store_pred I.
Hypothesis I_hosts : ∀ w hs, I w → I (with_hosts hs w).
Hypothesis I_orders : ∀ w os, I w → I (with_orders os w).
Hypothesis I_insert_variable :
  ∀ host_id k v, statement_keeps I (λ db, (Engine.insert_variable host_id k v db).1).
Hypothesis I_update_variable :
  ∀ host_id k v, statement_keeps I (Engine.update_variable host_id k v).
Hypothesis I_insert_host :
  ∀ order_id name address,
    statement_keeps I (λ db, (Engine.insert_host order_id name address db).1).
Hypothesis I_update_host :
  ∀ order_id address name, statement_keeps I (Engine.update_host order_id address name).
Hypothesis I_insert_order :
  ∀ service status closed created_by now,
    statement_keeps I
      (λ db, (Engine.insert_order service status closed created_by now db).1).
Hypothesis I_update_order :
  ∀ id service status closed created_by,
    statement_keeps I (Engine.update_order id service status closed created_by).
Hypothesis I_begin : ∀ w, I w → I (begin_world w).
Hypothesis I_commit : ∀ w, I w → I (commit_world w).
Hypothesis I_rollback : ∀ w, I w → I (rollback_world w).

Lemma keeps_add_variable host_id key v : keeps I (__add_variable host_id key v).
Proof using I_store I_insert_variable.
  unfold __add_variable. apply keeps_synchronized; [done|].
  destruct host_id as [host_id|]; [|apply keeps_raise].
  destruct key as [key|]; [|apply keeps_raise].
  apply keeps_execute; [done|]. apply I_insert_variable.
Qed.

Lemma keeps_save_variable host_id key v : keeps I (__save_variable host_id key v).
Proof using I_store I_insert_variable I_update_variable.
  unfold __save_variable. apply keeps_synchronized; [done|].
  destruct host_id as [host_id|]; [|apply keeps_raise].
  destruct key as [key|]; [|apply keeps_raise].
  apply keeps_bind; [apply keeps_gets|]. intros [thevar|].
  - apply keeps_execute; [done|]. apply I_update_variable.
  - apply keeps_bind; [|intros ?; apply keeps_ret].
    apply keeps_execute; [done|]. apply I_insert_variable.
Qed.

Lemma keeps_add_host order_id host : keeps I (__add_host order_id host).
Proof using I_store I_hosts I_insert_variable I_insert_host.
  unfold __add_host. apply keeps_synchronized; [done|].
  destruct order_id as [order_id|]; [|apply keeps_raise].
  destruct host as [href|]; [|apply keeps_raise].
  apply keeps_bind; [apply keeps_read_host|]. intros h.
  destruct (negb (Host.is_dirty h)); [apply keeps_ret|].
  apply keeps_bind; [apply keeps_execute; [done|apply I_insert_host]|].
  intros host_id. apply keeps_bind.
  { apply keeps_for_each. intros kv. apply keeps_add_variable. }
  intros ?. apply keeps_bind; [|intros ?; apply keeps_ret].
  apply keeps_heap_update. intros w. apply I_hosts.
Qed.

Lemma keeps_save_host order_id host : keeps I (__save_host order_id host).
Proof using I_store I_hosts I_insert_variable I_update_variable I_insert_host
            I_update_host.
  unfold __save_host. apply keeps_synchronized; [done|].
  destruct order_id as [order_id|]; [|apply keeps_raise].
  destruct host as [href|]; [|apply keeps_raise].
  apply keeps_bind; [apply keeps_read_host|]. intros h.
  destruct (negb (Host.is_dirty h)); [apply keeps_ret|].
  apply keeps_bind; [apply keeps_gets|]. intros thehost.
  apply keeps_bind.
  { destruct thehost as [row|]; (apply keeps_execute; [done|]).
    - apply I_update_host.
    - apply I_insert_host. }
  intros host_id. apply keeps_bind.
  { apply keeps_for_each. intros kv. apply keeps_save_variable. }
  intros ?. apply keeps_bind; [|intros ?; apply keeps_ret].
  apply keeps_heap_update. intros w. apply I_hosts.
Qed.

Lemma keeps_add_order_inner order recursive : keeps I (__add_order order recursive).
Proof using I_store I_hosts I_orders I_insert_variable I_insert_host I_insert_order.
  unfold __add_order. apply keeps_synchronized; [done|].
  destruct order as [oref|]; [|apply keeps_raise].
  apply keeps_bind; [apply keeps_read_order|]. intros o.
  apply keeps_bind; [apply keeps_gets|]. intros now.
  apply keeps_bind; [apply keeps_execute; [done|apply I_insert_order]|].
  intros id. apply keeps_bind.
  { apply keeps_heap_update. intros w. apply I_orders. }
  intros ?. destruct (negb recursive); [apply keeps_ret|].
  apply keeps_bind; [|intros ?; apply keeps_ret].
  apply keeps_for_each. intros host. apply keeps_add_host.
Qed.

Lemma keeps_add_order orders recursive : keeps I (add_order orders recursive).
Proof using I_store I_hosts I_orders I_insert_variable I_insert_host I_insert_order
            I_begin I_commit I_rollback.
  unfold add_order. destruct orders as [orders|]; [|apply keeps_raise].
  apply keeps_bind; [by apply keeps_heap_update|]. intros ?.
  apply keeps_try; [|by apply keeps_heap_update].
  apply keeps_bind; [|intros ?; by apply keeps_heap_update].
  apply keeps_for_each. intros order. apply keeps_add_order_inner.
Qed.

Lemma keeps_save_order_inner order recursive : keeps I (__save_order order recursive).
Proof using All.
  unfold __save_order. apply keeps_synchronized; [done|].
  destruct order as [oref|]; [|apply keeps_raise].
  apply keeps_bind; [apply keeps_read_order|]. intros o.
  apply keeps_bind.
  { destruct (truthy (Order.id o)); [apply keeps_get_order|apply keeps_ret]. }
  intros [theorder|]; [|apply keeps_add_order].
  destruct (Order.get_id o) as [id|]; [|by intros w w' r _ [=]].
  apply keeps_bind; [apply keeps_execute; [done|apply I_update_order]|].
  intros ?. destruct (negb recursive); [apply keeps_ret|].
  apply keeps_for_each. intros host. apply keeps_save_host.
Qed.

Lemma keeps_save_order orders recursive : keeps I (save_order orders recursive).
Proof using All.
  unfold save_order. destruct orders as [orders|]; [|apply keeps_raise].
  apply keeps_bind; [by apply keeps_heap_update|]. intros ?.
  apply keeps_try; [|by apply keeps_heap_update].
  apply keeps_bind; [|intros ?; by apply keeps_heap_update].
  apply keeps_for_each. intros order. apply keeps_save_order_inner.
Qed.
End write_path.

(** ** Rows are never deleted *)

Lemma grows_refl db : grows db db.
Proof. by repeat split. Qed.

Lemma grows_trans db1 db2 db3 : grows db1 db2 → grows db2 db3 → grows db1 db3.
Proof.
  intros (Ho & Hh & Hv) (Ho' & Hh' & Hv').
  repeat split; by etrans.
Qed.

Lemma grows_keys db db' :
  order_key <$> t_order db' = order_key <$> t_order db →
  host_key <$> t_host db' = host_key <$> t_host db →
  variable_key <$> t_variable db' = variable_key <$> t_variable db →
  grows db db'.
Proof. intros Ho Hh Hv. unfold grows. by rewrite Ho, Hh, Hv. Qed.

Lemma grows_insert_order service status closed created_by now db :
  grows db (Engine.insert_order service status closed created_by now db).1.
Proof.
  repeat split; cbn [Engine.insert_order fst t_order t_host t_variable]; [|done|done].
  rewrite fmap_app. by apply prefix_app_r.
Qed.

Lemma grows_insert_host order_id name address db :
  grows db (Engine.insert_host order_id name address db).1.
Proof.
  repeat split; cbn [Engine.insert_host fst t_order t_host t_variable]; [done| |done].
  rewrite fmap_app. by apply prefix_app_r.
Qed.

Lemma grows_insert_variable host_id k v db :
  grows db (Engine.insert_variable host_id k v db).1.
Proof.
  repeat split; cbn [Engine.insert_variable fst t_order t_host t_variable]; [done|done|].
  rewrite fmap_app. by apply prefix_app_r.
Qed.

Lemma grows_update_order id service status closed created_by db :
  grows db (Engine.update_order id service status closed created_by db).
Proof.
  apply grows_keys; [|done|done]. cbn [Engine.update_order t_order].
  apply fmap_update_key. intros r. by destruct (decide _).
Qed.

Lemma grows_update_host order_id address name db :
  grows db (Engine.update_host order_id address name db).
Proof.
  apply grows_keys; [done| |done]. cbn [Engine.update_host t_host].
  apply fmap_update_key. intros h. destruct (decide _) as [[<- <-]|]; done.
Qed.

Lemma grows_update_variable host_id k v db :
  grows db (Engine.update_variable host_id k v db).
Proof.
  apply grows_keys; [done|done|]. cbn [Engine.update_variable t_variable].
  apply fmap_update_key. intros x. destruct (decide _) as [[<- <-]|]; done.
Qed.

Lemma grown_from_statement db0 (stmt : Tables → Tables) :
  (∀ db, grows db (stmt db)) → statement_keeps (grown_from db0) stmt.
Proof.
  intros Hstmt w [Hd Hs]. split; [|done].
  eapply grows_trans; [exact Hd|apply Hstmt].
Qed.

Lemma store_pred_grown_from db0 : store_pred (grown_from db0).
Proof. by intros w l log. Qed.

Lemma grown_from_begin db0 w : grown_from db0 w → grown_from db0 (begin_world w).
Proof.
  intros [Hd Hs]. unfold begin_world. destruct (w_tx_depth w) eqn:Hdepth; [done|].
  split; [done|]. intros _. by apply Hs.
Qed.

Lemma grown_from_commit db0 w : grown_from db0 w → grown_from db0 (commit_world w).
Proof.
  intros [Hd Hs]. unfold commit_world.
  destruct (w_tx_depth w) as [|[|d]] eqn:Hdepth; split; try done.
  intros _. by apply Hs.
Qed.

Lemma grown_from_rollback db0 w : grown_from db0 w → grown_from db0 (rollback_world w).
Proof.
  intros [Hd Hs]. unfold rollback_world.
  destruct (w_tx_depth w) eqn:Hdepth; split; try done. by apply Hs.
Qed.

Lemma keeps_grown_add_order db0 orders recursive :
  keeps (grown_from db0) (add_order orders recursive).
Proof.
  apply keeps_add_order.
  - apply store_pred_grown_from.
  - by intros w hs.
  - by intros w os.
  - intros host_id k v. apply grown_from_statement. intros db.
    apply grows_insert_variable.
  - intros order_id name address. apply grown_from_statement. intros db.
    apply grows_insert_host.
  - intros service status closed created_by now. apply grown_from_statement.
    intros db. apply grows_insert_order.
  - apply grown_from_begin.
  - apply grown_from_commit.
  - apply grown_from_rollback.
Qed.

Lemma keeps_grown_save_order db0 orders recursive :
  keeps (grown_from db0) (save_order orders recursive).
Proof.
  apply keeps_save_order.
  - apply store_pred_grown_from.
  - by intros w hs.
  - by intros w os.
  - intros host_id k v. apply grown_from_statement. intros db.
    apply grows_insert_variable.
  - intros host_id k v. apply grown_from_statement. intros db.
    apply grows_update_variable.
  - intros order_id name address. apply grown_from_statement. intros db.
    apply grows_insert_host.
  - intros order_id address name. apply grown_from_statement. intros db.
    apply grows_update_host.
  - intros service status closed created_by now. apply grown_from_statement.
    intros db. apply grows_insert_order.
  - intros id service status closed created_by. apply grown_from_statement.
    intros db. apply grows_update_order.
  - apply grown_from_begin.
  - apply grown_from_commit.
  - apply grown_from_rollback.
Qed.

(** ** Counting the orders *)

Lemma hoare_synchronized_store {A} (P : World → Prop) (func : M A)
    (Q : A → World → Prop) (E : World → Prop) :
  store_pred P → (∀ a, store_pred (Q a)) → store_pred E →
  hoare P func Q E → hoare P (synchronized func) Q E.
Proof.
  intros HP HQ HE Hf. apply hoare_synchronized.
  eapply hoare_conseq; [exact Hf| | |].
  - intros w (w0 & Hw0 & ->). by apply store_pred_acquire.
  - intros a w Hw. by apply store_pred_release.
  - intros w Hw. by apply store_pred_release.
Qed.

Lemma hoare_weaken_raise {A} (P : World → Prop) (m : M A) Q E :
  hoare P m Q E → hoare P m Q (λ _, True).
Proof. intros Hm. by apply (hoare_conseq P P m Q Q E). Qed.

(** A loop whose iterations each count one step. *)
Lemma hoare_for_each_count {A B} (I : nat → World → Prop) (l : list A)
    (body : A → M B) (n : nat) :
  (∀ x m, hoare (I m) (body x) (λ _, I (S m)) (λ _, True)) →
  hoare (I n) (for_each l body) (λ _, I (n + length l)%nat) (λ _, True).
Proof.
  intros Hbody. revert n. induction l as [|x l IH]; intros n.
  { intros w w' r HI [= <- <-]. by rewrite Nat.add_0_r. }
  cbn [for_each length]. eapply hoare_bind; [apply Hbody|].
  intros ?. replace (n + S (length l))%nat with (S n + length l)%nat by lia.
  apply IH.
Qed.

Lemma store_pred_order_count n : store_pred (order_count n).
Proof. by intros w l log. Qed.

Lemma store_pred_order_count_within lo hi : store_pred (order_count_within lo hi).
Proof. by intros w l log. Qed.

Lemma store_pred_True : store_pred (λ _, True).
Proof. by intros w l log. Qed.

Lemma order_count_statement n (stmt : Tables → Tables) :
  (∀ db, t_order (stmt db) = t_order db) → statement_keeps (order_count n) stmt.
Proof.
  intros Hstmt w Hw. unfold order_count, count_orders in *.
  cbn [with_data w_data]. by rewrite Hstmt.
Qed.

Lemma keeps_count_add_host n order_id host :
  keeps (order_count n) (__add_host order_id host).
Proof.
  apply keeps_add_host.
  - apply store_pred_order_count.
  - by intros w hs.
  - intros host_id k v. by apply order_count_statement.
  - intros o nm a. by apply order_count_statement.
Qed.

Lemma keeps_count_save_host n order_id host :
  keeps (order_count n) (__save_host order_id host).
Proof.
  apply keeps_save_host.
  - apply store_pred_order_count.
  - by intros w hs.
  - intros host_id k v. by apply order_count_statement.
  - intros host_id k v. by apply order_count_statement.
  - intros o nm a. by apply order_count_statement.
  - intros o a nm. by apply order_count_statement.
Qed.

Lemma add_order_inner_counts n order recursive :
  hoare (order_count n) (__add_order order recursive)
        (λ _, order_count (S n)) (λ _, True).
Proof.
  unfold __add_order.
  apply hoare_synchronized_store;
    [apply store_pred_order_count|intros ?; apply store_pred_order_count
    |apply store_pred_True|].
  destruct order as [oref|]; [|by intros w w' r _ [= <- <-]].
  eapply hoare_bind; [eapply hoare_weaken_raise; apply (keeps_read_order (order_count n))|]. intros o.
  eapply hoare_bind; [eapply hoare_weaken_raise; apply (keeps_gets (order_count n))|]. intros now.
  eapply hoare_bind with (Q1 := λ _, order_count (S n)).
  { eapply hoare_pre; [apply hoare_execute|].
    intros w Hw. unfold order_count, count_orders in *.
    cbn. rewrite length_app. cbn. lia. }
  intros id. apply hoare_weaken_raise with (E := order_count (S n)).
  apply keeps_bind; [by apply keeps_heap_update|]. intros ?.
  destruct (negb recursive); [apply keeps_ret|].
  apply keeps_bind; [|intros ?; apply keeps_ret].
  apply keeps_for_each. intros host. apply keeps_count_add_host.
Qed.

Lemma begin_world_data w : w_data (begin_world w) = w_data w.
Proof. unfold begin_world. by destruct (w_tx_depth w). Qed.

Lemma commit_world_data w : w_data (commit_world w) = w_data w.
Proof. unfold commit_world. by destruct (w_tx_depth w) as [|[|d]]. Qed.

Lemma add_order_counts n orders recursive :
  hoare (order_count n) (add_order (Some orders) recursive)
        (λ _, order_count (n + length (to_list orders))) (λ _, True).
Proof.
  unfold add_order.
  eapply hoare_bind with (Q1 := λ _, order_count n).
  { eapply hoare_pre; [apply hoare_modify|]. intros w Hw.
    unfold order_count. by rewrite begin_world_data. }
  intros ?. eapply hoare_try with (E1 := λ _, True); [|by intros w w' r _ _; destruct r].
  eapply hoare_bind; [apply hoare_for_each_count; intros x m; apply add_order_inner_counts|].
  intros ?. eapply hoare_pre; [apply hoare_modify|]. intros w Hw.
  unfold order_count. by rewrite commit_world_data.
Qed.

Lemma hoare_count_within {A} (m : M A) (k : nat) lo hi :
  (∀ n, hoare (order_count n) m (λ _, order_count (n + k)) (λ _, True)) →
  hoare (order_count_within lo hi) m (λ _, order_count_within lo (hi + k)) (λ _, True).
Proof.
  intros Hm w w' r [Hlo Hhi] Hrun.
  specialize (Hm (count_orders (w_data w)) w w' r eq_refl Hrun).
  destruct r as [a|e]; [|done]. unfold order_count, order_count_within in *. lia.
Qed.

Lemma hoare_count_within_keeps {A} (m : M A) lo hi :
  (∀ n, keeps (order_count n) m) →
  hoare (order_count_within lo hi) m (λ _, order_count_within lo hi) (λ _, True).
Proof.
  intros Hm w w' r [Hlo Hhi] Hrun.
  specialize (Hm (count_orders (w_data w)) w w' r eq_refl Hrun).
  destruct r as [a|e]; [|done]. unfold order_count, order_count_within in *. lia.
Qed.

Lemma order_count_within_weaken lo hi hi' w :
  (hi ≤ hi')%nat → order_count_within lo hi w → order_count_within lo hi' w.
Proof. unfold order_count_within. lia. Qed.

Lemma save_order_inner_counts lo hi order recursive :
  hoare (order_count_within lo hi) (__save_order order recursive)
        (λ _, order_count_within lo (S hi)) (λ _, True).
Proof.
  unfold __save_order.
  apply hoare_synchronized_store;
    [apply store_pred_order_count_within
    |intros ?; apply store_pred_order_count_within|apply store_pred_True|].
  destruct order as [oref|]; [|by intros w w' r _ [= <- <-]].
  eapply hoare_bind;
    [eapply hoare_weaken_raise; apply (keeps_read_order (order_count_within lo hi))|].
  intros o.
  eapply hoare_bind with (Q1 := λ _, order_count_within lo hi).
  { eapply hoare_weaken_raise.
    destruct (truthy (Order.id o)); [apply keeps_get_order|apply keeps_ret]. }
  intros [theorder|].
  2:{ replace (S hi) with (hi + length (to_list (Scalar (Some oref))))%nat
        by (cbn; lia).
      apply hoare_count_within. intros n. apply add_order_counts. }
  destruct (Order.get_id o) as [id|]; [|by intros w w' r _ [=]].
  eapply hoare_conseq with (Q := λ _, order_count_within lo hi) (E := λ _, True);
    [|done|intros ? w; apply order_count_within_weaken; lia|done].
  apply hoare_count_within_keeps. intros n.
  apply keeps_bind.
  { apply keeps_execute; [apply store_pred_order_count|].
    intros w Hw. unfold order_count, count_orders in *.
    cbn [fst with_data w_data Engine.update_order t_order]. by rewrite length_fmap. }
  intros ?. destruct (negb recursive); [apply keeps_ret|].
  apply keeps_for_each. intros host. apply keeps_count_save_host.
Qed.

Lemma save_order_counts lo hi orders recursive :
  hoare (order_count_within lo hi) (save_order (Some orders) recursive)
        (λ _, order_count_within lo (hi + length (to_list orders))) (λ _, True).
Proof.
  unfold save_order.
  eapply hoare_bind with (Q1 := λ _, order_count_within lo hi).
  { eapply hoare_pre; [apply hoare_modify|]. intros w Hw.
    unfold order_count_within. by rewrite begin_world_data. }
  intros ?. eapply hoare_try with (E1 := λ _, True); [|by intros w w' r _ _; destruct r].
  eapply hoare_bind.
  { eapply hoare_pre.
    - apply (hoare_for_each_count (λ m, order_count_within lo (hi + m)) _ _ 0).
      intros x m. replace (hi + S m)%nat with (S (hi + m)) by lia.
      apply save_order_inner_counts.
    - intros w. by rewrite Nat.add_0_r. }
  intros ?. eapply hoare_pre; [apply hoare_modify|]. intros w Hw.
  unfold order_count_within. by rewrite commit_world_data.
Qed.

(** X3.  The number of orders after a batch.  [add_order] that returns has
    stored one order row for each entry of the batch, also for an order that
    is listed twice or that was stored before; [save_order] that returns has
    stored at most one row for each entry and removed none; and a call that
    raises outside a transaction leaves the count as it was. *)
Theorem batch_order_count (orders : arg (option nat)) (recursive : bool)
    (w w' : World) (e : exn) :
  (add_order (Some orders) recursive w = Some (w', Return tt) →
   count_orders (w_data w')
   = (count_orders (w_data w) + length (to_list orders))%nat)
  ∧ (save_order (Some orders) recursive w = Some (w', Return tt) →
     (count_orders (w_data w) ≤ count_orders (w_data w')
      ≤ count_orders (w_data w) + length (to_list orders))%nat)
  ∧ (w_tx_depth w = O →
     add_order (Some orders) recursive w = Some (w', Raise e)
     ∨ save_order (Some orders) recursive w = Some (w', Raise e) →
     count_orders (w_data w') = count_orders (w_data w)).
Proof.
  split; [|split].
  - intros Hrun.
    exact (add_order_counts (count_orders (w_data w)) orders recursive w w'
             (Return tt) eq_refl Hrun).
  - intros Hrun.
    pose proof (save_order_counts (count_orders (w_data w)) (count_orders (w_data w))
                  orders recursive w w' (Return tt)) as H.
    cbn beta in H. unfold order_count_within in H. apply H; [lia|done].
  - intros Hd [Hrun|Hrun].
    + destruct (run_transaction
                  (for_each (to_list orders) (λ order, __add_order order recursive))
                  w w' (Raise e)) as (_ & -> & _); [|done|done|done].
      apply tx_nested_for_each. intros order.
      apply tx_neutral_nested, tx_neutral_add_order.
    + destruct (run_transaction
                  (for_each (to_list orders) (λ order, __save_order order recursive))
                  w w' (Raise e)) as (_ & -> & _); [|done|done|done].
      apply tx_nested_for_each. intros order. apply tx_nested_save_order.
Qed.

(** ** The lock *)

Lemma lock_count_held n w : lock_count w = S n → w_sync_lock w = Some (S n).
Proof. unfold lock_count. destruct (w_sync_lock w) as [k|]; cbn; congruence. Qed.

Lemma writes_locked_heap n log (f : World → World) :
  (∀ w, w_sync_lock (f w) = w_sync_lock w ∧ w_log (f w) = w_log w) →
  keeps (writes_locked n log) (modify f).
Proof.
  intros Hf. apply keeps_heap_update. intros w [Hn Hlog].
  destruct (Hf w) as [Hl Hg]. unfold writes_locked, lock_count. by rewrite Hl, Hg.
Qed.

Lemma writes_locked_event n log e w :
  write_locked e → writes_locked n log w → writes_locked n log (with_event e w).
Proof.
  intros He [Hn (evs & Hlog & Hevs)]. split; [done|].
  exists (evs ++ [e]). cbn [with_event w_log]. rewrite Hlog, (assoc_L (++)).
  split; [done|]. apply Forall_app. split; [done|]. by apply Forall_singleton.
Qed.

Lemma keeps_locked_execute {A} n log (t : table) (stmt : Tables → Tables * A) :
  keeps (writes_locked (S n) log) (execute t stmt).
Proof.
  eapply hoare_pre; [apply hoare_execute|]. intros w Hw. cbn beta.
  apply writes_locked_event.
  - unfold lock_held. destruct Hw as [Hn _]. by rewrite (lock_count_held n w Hn).
  - exact Hw.
Qed.

Lemma keeps_locked_synchronized {A} n log (func : M A) :
  keeps (writes_locked (S n) log) func →
  keeps (writes_locked n log) (synchronized func).
Proof.
  intros Hf. apply hoare_synchronized.
  assert (Hrel : ∀ w, writes_locked (S n) log w → writes_locked n log (release w)).
  { intros w [Hn Hlog]. split; [|done].
    unfold lock_count, release. cbn. by rewrite (lock_count_held n w Hn). }
  eapply hoare_conseq; [exact Hf| | |].
  - intros w (w0 & [Hn Hlog] & ->). split; [|done].
    unfold lock_count, acquire in *. cbn. by rewrite Hn.
  - intros ?. apply Hrel.
  - apply Hrel.
Qed.

Lemma keeps_locked_tx_begin n log : keeps (writes_locked n log) tx_begin.
Proof.
  apply keeps_heap_update. intros w Hw. unfold begin_world.
  destruct (w_tx_depth w); [by apply writes_locked_event|done].
Qed.

Lemma keeps_locked_tx_commit n log : keeps (writes_locked n log) tx_commit.
Proof.
  apply keeps_heap_update. intros w Hw. unfold commit_world.
  destruct (w_tx_depth w) as [|[|d]]; [done|by apply writes_locked_event|done].
Qed.

Lemma keeps_locked_tx_rollback n log : keeps (writes_locked n log) tx_rollback.
Proof.
  apply keeps_heap_update. intros w Hw. unfold rollback_world.
  destruct (w_tx_depth w); [done|by apply writes_locked_event].
Qed.

Lemma keeps_locked_add_variable n log host_id key v :
  keeps (writes_locked n log) (__add_variable host_id key v).
Proof.
  unfold __add_variable. apply keeps_locked_synchronized.
  destruct host_id as [host_id|]; [|apply keeps_raise].
  destruct key as [key|]; [|apply keeps_raise].
  apply keeps_locked_execute.
Qed.

Lemma keeps_locked_save_variable n log host_id key v :
  keeps (writes_locked n log) (__save_variable host_id key v).
Proof.
  unfold __save_variable. apply keeps_locked_synchronized.
  destruct host_id as [host_id|]; [|apply keeps_raise].
  destruct key as [key|]; [|apply keeps_raise].
  apply keeps_bind; [apply keeps_gets|]. intros [thevar|].
  - apply keeps_locked_execute.
  - apply keeps_bind; [apply keeps_locked_execute|intros ?; apply keeps_ret].
Qed.

Lemma keeps_locked_add_host n log order_id host :
  keeps (writes_locked n log) (__add_host order_id host).
Proof.
  unfold __add_host. apply keeps_locked_synchronized.
  destruct order_id as [order_id|]; [|apply keeps_raise].
  destruct host as [href|]; [|apply keeps_raise].
  apply keeps_bind; [apply keeps_read_host|]. intros h.
  destruct (negb (Host.is_dirty h)); [apply keeps_ret|].
  apply keeps_bind; [apply keeps_locked_execute|]. intros host_id.
  apply keeps_bind.
  { apply keeps_for_each. intros kv. apply keeps_locked_add_variable. }
  intros ?. apply keeps_bind; [|intros ?; apply keeps_ret].
  by apply writes_locked_heap.
Qed.

Lemma keeps_locked_save_host n log order_id host :
  keeps (writes_locked n log) (__save_host order_id host).
Proof.
  unfold __save_host. apply keeps_locked_synchronized.
  destruct order_id as [order_id|]; [|apply keeps_raise].
  destruct host as [href|]; [|apply keeps_raise].
  apply keeps_bind; [apply keeps_read_host|]. intros h.
  destruct (negb (Host.is_dirty h)); [apply keeps_ret|].
  apply keeps_bind; [apply keeps_gets|]. intros thehost.
  apply keeps_bind; [destruct thehost; apply keeps_locked_execute|]. intros host_id.
  apply keeps_bind.
  { apply keeps_for_each. intros kv. apply keeps_locked_save_variable. }
  intros ?. apply keeps_bind; [|intros ?; apply keeps_ret].
  by apply writes_locked_heap.
Qed.

Lemma keeps_locked_add_order_inner n log order recursive :
  keeps (writes_locked n log) (__add_order order recursive).
Proof.
  unfold __add_order. apply keeps_locked_synchronized.
  destruct order as [oref|]; [|apply keeps_raise].
  apply keeps_bind; [apply keeps_read_order|]. intros o.
  apply keeps_bind; [apply keeps_gets|]. intros now.
  apply keeps_bind; [apply keeps_locked_execute|]. intros id.
  apply keeps_bind; [by apply writes_locked_heap|]. intros ?.
  destruct (negb recursive); [apply keeps_ret|].
  apply keeps_bind; [|intros ?; apply keeps_ret].
  apply keeps_for_each. intros host. apply keeps_locked_add_host.
Qed.

Lemma keeps_locked_add_order n log orders recursive :
  keeps (writes_locked n log) (add_order orders recursive).
Proof.
  unfold add_order. destruct orders as [orders|]; [|apply keeps_raise].
  apply keeps_bind; [apply keeps_locked_tx_begin|]. intros ?.
  apply keeps_try; [|apply keeps_locked_tx_rollback].
  apply keeps_bind; [|intros ?; apply keeps_locked_tx_commit].
  apply keeps_for_each. intros order. apply keeps_locked_add_order_inner.
Qed.

Lemma keeps_locked_save_order_inner n log order recursive :
  keeps (writes_locked n log) (__save_order order recursive).
Proof.
  unfold __save_order. apply keeps_locked_synchronized.
  destruct order as [oref|]; [|apply keeps_raise].
  apply keeps_bind; [apply keeps_read_order|]. intros o.
  apply keeps_bind.
  { destruct (truthy (Order.id o)); [apply keeps_get_order|apply keeps_ret]. }
  intros [theorder|]; [|apply keeps_locked_add_order].
  destruct (Order.get_id o) as [id|]; [|by intros w w' r _ [=]].
  apply keeps_bind; [apply keeps_locked_execute|]. intros ?.
  destruct (negb recursive); [apply keeps_ret|].
  apply keeps_for_each. intros host. apply keeps_locked_save_host.
Qed.

Lemma keeps_locked_save_order n log orders recursive :
  keeps (writes_locked n log) (save_order orders recursive).
Proof.
  unfold save_order. destruct orders as [orders|]; [|apply keeps_raise].
  apply keeps_bind; [apply keeps_locked_tx_begin|]. intros ?.
  apply keeps_try; [|apply keeps_locked_tx_rollback].
  apply keeps_bind; [|intros ?; apply keeps_locked_tx_commit].
  apply keeps_for_each. intros order. apply keeps_locked_save_order_inner.
Qed.

Lemma keeps_locked_clear_database n log : keeps (writes_locked n log) clear_database.
Proof.
  unfold clear_database. apply keeps_locked_synchronized.
  apply keeps_bind; [apply keeps_locked_execute|intros ?; apply keeps_ret].
Qed.

Lemma writes_locked_start w : writes_locked (lock_count w) (w_log w) w.
Proof. split; [done|]. exists []. by rewrite app_nil_r. Qed.

Lemma keeps_outcome {A} (I : World → Prop) (m : M A) w w' r :
  keeps I m → I w → m w = Some (w', r) → I w'.
Proof. intros Hm Hw Hrun. specialize (Hm w w' r Hw Hrun). by destruct r. Qed.

(** X4.  The decorator at work.  Every statement that [add_order], [save_order]
    and [clear_database] issue is issued with the lock held, whatever the
    batch and whether the caller holds the lock already or not, and the call
    leaves the lock held as many times as it found it, on return and on
    raise. *)
Theorem writes_run_under_lock (orders : option (arg (option nat))) (recursive : bool)
    (w w' : World) (r : outcome unit) (rb : outcome bool) :
  add_order orders recursive w = Some (w', r)
  ∨ save_order orders recursive w = Some (w', r)
  ∨ clear_database w = Some (w', rb) →
  lock_count w' = lock_count w
  ∧ ∃ evs, w_log w' = w_log w ++ evs ∧ Forall write_locked evs.
Proof.
  intros [Hrun|[Hrun|Hrun]].
  - exact (keeps_outcome _ _ w w' r (keeps_locked_add_order _ _ orders recursive)
             (writes_locked_start w) Hrun).
  - exact (keeps_outcome _ _ w w' r (keeps_locked_save_order _ _ orders recursive)
             (writes_locked_start w) Hrun).
  - exact (keeps_outcome _ _ w w' rb (keeps_locked_clear_database _ _)
             (writes_locked_start w) Hrun).
Qed.

(** ** A [None] in the batch *)

Lemma hoare_True {A} (P : World → Prop) (m : M A) : hoare P m (λ _ _, True) (λ _, True).
Proof. intros w w' r _ _. by destruct r. Qed.

Lemma hoare_pure_pre {A} (φ : Prop) (m : M A) Q E :
  (φ → hoare (λ _, True) m Q E) → hoare (λ _, φ) m Q E.
Proof. intros Hm w w' r Hφ. by apply Hm. Qed.

Lemma hoare_stops_raise {A} (P : World → Prop) e :
  hoare P (raise (A := A) e) (λ _ _, False) (λ _, True).
Proof. by intros w w' r _ [= <- <-]. Qed.

Lemma hoare_stops_bind {A B} (P : World → Prop) (m : M A) (k : A → M B) :
  hoare P m (λ _ _, False) (λ _, True) →
  hoare P (bind m k) (λ _ _, False) (λ _, True).
Proof. intros Hm. eapply hoare_bind; [exact Hm|]. by intros a w. Qed.

Lemma store_pred_False : store_pred (λ _, False).
Proof. by intros w l log. Qed.

Lemma store_pred_none_host oref : store_pred (none_host oref).
Proof. by intros w l log. Qed.

Lemma shape_neutral_none_host {A} (m : M A) oref :
  shape_neutral m → hoare (none_host oref) m (λ _, none_host oref) (λ _, True).
Proof.
  intros Hm w w' r (hosts & Hh & Hnone) Hrun. destruct r as [a|e]; [|done].
  destruct (Hm w w' _ Hrun) as [_ Ho]. exists hosts. by rewrite Ho.
Qed.

Lemma add_hosts_stop order_id (hosts : list (option nat)) :
  None ∈ hosts →
  hoare (λ _, True) (for_each hosts (λ host, __add_host order_id host))
        (λ _ _, False) (λ _, True).
Proof.
  intros Hnone. apply (hoare_for_each_stops _ _ _ None); [done|intros y; apply hoare_True|].
  unfold __add_host.
  apply hoare_synchronized_store;
    [apply store_pred_True|intros ?; apply store_pred_False|apply store_pred_True|].
  destruct order_id; apply hoare_stops_raise.
Qed.

Lemma save_hosts_stop order_id (hosts : list (option nat)) :
  None ∈ hosts →
  hoare (λ _, True) (for_each hosts (λ host, __save_host order_id host))
        (λ _ _, False) (λ _, True).
Proof.
  intros Hnone. apply (hoare_for_each_stops _ _ _ None); [done|intros y; apply hoare_True|].
  unfold __save_host.
  apply hoare_synchronized_store;
    [apply store_pred_True|intros ?; apply store_pred_False|apply store_pred_True|].
  destruct order_id; apply hoare_stops_raise.
Qed.

Lemma add_order_inner_stops oref :
  hoare (none_host oref) (__add_order (Some oref) true) (λ _ _, False) (λ _, True).
Proof.
  unfold __add_order.
  apply hoare_synchronized_store;
    [apply store_pred_none_host|intros ?; apply store_pred_False|apply store_pred_True|].
  eapply hoare_bind with (Q1 := λ o _, None ∈ Order.hosts o).
  { eapply hoare_pre; [apply hoare_read_order|].
    intros w (hosts & Hh & Hnone) o Ho. rewrite Ho in Hh. by injection Hh as ->. }
  intros o. apply hoare_pure_pre. intros Hnone.
  eapply hoare_bind; [apply hoare_True|]. intros now.
  eapply hoare_bind; [apply hoare_True|]. intros id.
  eapply hoare_bind; [apply hoare_True|]. intros ?.
  cbn [negb]. apply hoare_stops_bind. by apply add_hosts_stop.
Qed.

Lemma hoare_is_raise {A} (P : World → Prop) (m : M A) w w' r :
  hoare P m (λ _ _, False) (λ _, True) → P w → m w = Some (w', r) → is_raise r.
Proof. intros Hm Hw Hrun. specialize (Hm w w' r Hw Hrun). by destruct r. Qed.

Lemma batch_stops_none {A} (body : option nat → M A) (l : list (option nat)) :
  hoare (λ _, True) (body None) (λ _ _, False) (λ _, True) → None ∈ l →
  hoare (λ _, True) (for_each l body) (λ _ _, False) (λ _, True).
Proof.
  intros Hnone Hin. apply (hoare_for_each_stops _ _ _ None); [done| |done].
  intros y. apply hoare_True.
Qed.

Lemma batch_stops_host {A} (body : option nat → M A) (l : list (option nat)) oref :
  hoare (none_host oref) (body (Some oref)) (λ _ _, False) (λ _, True) →
  (∀ order, shape_neutral (body order)) → Some oref ∈ l →
  hoare (none_host oref) (for_each l body) (λ _ _, False) (λ _, True).
Proof.
  intros Hhost Hshape Hin. apply (hoare_for_each_stops _ _ _ (Some oref)); [done| |done].
  intros y. by apply shape_neutral_none_host.
Qed.

Lemma add_order_inner_none_stops recursive :
  hoare (λ _, True) (__add_order None recursive) (λ _ _, False) (λ _, True).
Proof.
  unfold __add_order.
  apply hoare_synchronized_store;
    [apply store_pred_True|intros ?; apply store_pred_False|apply store_pred_True|].
  apply hoare_stops_raise.
Qed.

Lemma none_host_begin oref w : none_host oref w → none_host oref (begin_world w).
Proof. unfold none_host, begin_world. by destruct (w_tx_depth w). Qed.

(** [add_order] on a batch with a [None] in it does not return. *)
Lemma add_order_stops orders recursive w w' r :
  None ∈ to_list orders
  ∨ recursive = true ∧ (∃ oref, Some oref ∈ to_list orders ∧ none_host oref w) →
  add_order (Some orders) recursive w = Some (w', r) → is_raise r.
Proof.
  intros Hnone Hrun. rewrite add_order_unfold in Hrun.
  destruct (for_each _ _ (begin_world w)) as [[w1 r1]|] eqn:Hbatch; [|done].
  assert (is_raise r1) as Hr1.
  { destruct Hnone as [Hin|(-> & oref & Hin & Hh)].
    - eapply (hoare_is_raise (λ _, True)); [|done|exact Hbatch].
      apply batch_stops_none; [apply add_order_inner_none_stops|done].
    - eapply (hoare_is_raise (none_host oref)); [|apply none_host_begin, Hh|exact Hbatch].
      apply batch_stops_host; [apply add_order_inner_stops| |done].
      intros order. apply shape_neutral_add_order. }
  destruct r1 as [[]|e1]; [done|]. by injection Hrun as <- <-.
Qed.

Lemma save_order_inner_none_stops recursive :
  hoare (λ _, True) (__save_order None recursive) (λ _ _, False) (λ _, True).
Proof.
  unfold __save_order.
  apply hoare_synchronized_store;
    [apply store_pred_True|intros ?; apply store_pred_False|apply store_pred_True|].
  apply hoare_stops_raise.
Qed.

Lemma save_order_inner_stops oref :
  hoare (none_host oref) (__save_order (Some oref) true) (λ _ _, False) (λ _, True).
Proof.
  unfold __save_order.
  apply hoare_synchronized_store;
    [apply store_pred_none_host|intros ?; apply store_pred_False|apply store_pred_True|].
  eapply hoare_bind
    with (Q1 := λ o w, None ∈ Order.hosts o ∧ none_host oref w).
  { eapply hoare_pre; [apply hoare_read_order|].
    intros w Hw o Ho. split; [|done]. destruct Hw as (hosts & Hh & Hnone).
    rewrite Ho in Hh. by injection Hh as ->. }
  intros o.
  eapply hoare_bind
    with (Q1 := λ _ w, None ∈ Order.hosts o ∧ none_host oref w).
  { eapply hoare_weaken_raise.
    destruct (truthy (Order.id o)); [apply keeps_get_order|apply keeps_ret]. }
  intros [theorder|].
  2:{ intros w w' r [_ Hw] Hrun.
      assert (is_raise r) as Hr; [|by destruct r].
      eapply add_order_stops; [|exact Hrun]. right. split; [done|].
      exists oref. split; [by left|done]. }
  destruct (Order.get_id o) as [id|]; [|by intros w w' r _ [=]].
  eapply hoare_pre with (P := λ _, None ∈ Order.hosts o); [|by intros w [? _]].
  apply hoare_pure_pre. intros Hnone.
  eapply hoare_bind; [apply hoare_True|]. intros ?. cbn [negb].
  by apply save_hosts_stop.
Qed.

Lemma save_order_unfold orders recursive w :
  save_order (Some orders) recursive w
  = match for_each (to_list orders) (λ order, __save_order order recursive)
            (begin_world w) with
    | Some (w1, Return _) => Some (commit_world w1, Return tt)
    | Some (w1, Raise e) => Some (rollback_world w1, Raise e)
    | None => None
    end.
Proof.
  unfold save_order, bind at 1, tx_begin, modify, try_except_reraise, bind.
  by destruct (for_each _ _ (begin_world w)) as [[w1 [[]|e]]|].
Qed.

(** [save_order] on a batch with a [None] in it does not return. *)
Lemma save_order_stops orders recursive w w' r :
  None ∈ to_list orders
  ∨ recursive = true ∧ (∃ oref, Some oref ∈ to_list orders ∧ none_host oref w) →
  save_order (Some orders) recursive w = Some (w', r) → is_raise r.
Proof.
  intros Hnone Hrun. rewrite save_order_unfold in Hrun.
  destruct (for_each _ _ (begin_world w)) as [[w1 r1]|] eqn:Hbatch; [|done].
  assert (is_raise r1) as Hr1.
  { destruct Hnone as [Hin|(-> & oref & Hin & Hh)].
    - eapply (hoare_is_raise (λ _, True)); [|done|exact Hbatch].
      apply batch_stops_none; [apply save_order_inner_none_stops|done].
    - eapply (hoare_is_raise (none_host oref)); [|apply none_host_begin, Hh|exact Hbatch].
      apply batch_stops_host; [apply save_order_inner_stops| |done].
      intros order. apply shape_neutral_save_order. }
  destruct r1 as [[]|e1]; [done|]. by injection Hrun as <- <-.
Qed.

(** X5.  All or nothing.  A batch that has [None] in it, as an entry or (when
    the call is recursive) as a host of one of its orders, is rejected as a
    whole: [add_order] and [save_order] raise, whatever the place of the
    [None] in the batch, and the tables are left as they were. *)
Theorem batch_with_none_stores_nothing (orders : arg (option nat)) (recursive : bool)
    (w : World) :
  w_tx_depth w = O → heap_closed w (to_list orders) →
  None ∈ to_list orders
  ∨ recursive = true
    ∧ (∃ oref o, Some oref ∈ to_list orders ∧ w_orders w !! oref = Some o
                 ∧ None ∈ Order.hosts o) →
  (∃ w' e, add_order (Some orders) recursive w = Some (w', Raise e)
           ∧ w_data w' = w_data w)
  ∧ (∃ w' e, save_order (Some orders) recursive w = Some (w', Raise e)
             ∧ w_data w' = w_data w).
Proof.
  intros Hd Hc Hnone.
  assert (Hnone' : None ∈ to_list orders
                   ∨ recursive = true
                     ∧ (∃ oref, Some oref ∈ to_list orders ∧ none_host oref w)).
  { destruct Hnone as [?|(-> & oref & o & Hin & Ho & Hh)]; [by left|right].
    split; [done|]. exists oref. split; [done|]. exists (Order.hosts o).
    by rewrite Ho. }
  split.
  - destruct (add_order_returns (Some orders) recursive w) as [[w' r] Hrun].
    { by intros l [= <-]. }
    pose proof (add_order_stops orders recursive w w' r Hnone' Hrun) as Hr.
    destruct r as [[]|e]; [done|]. exists w', e. split; [done|].
    destruct (run_transaction
                (for_each (to_list orders) (λ order, __add_order order recursive))
                w w' (Raise e)) as (_ & Hdata & _); [|done|done|done].
    apply tx_nested_for_each. intros order.
    apply tx_neutral_nested, tx_neutral_add_order.
  - destruct (save_order_returns (Some orders) recursive w) as [[w' r] Hrun].
    { by intros l [= <-]. }
    pose proof (save_order_stops orders recursive w w' r Hnone' Hrun) as Hr.
    destruct r as [[]|e]; [done|]. exists w', e. split; [done|].
    destruct (run_transaction
                (for_each (to_list orders) (λ order, __save_order order recursive))
                w w' (Raise e)) as (_ & Hdata & _); [|done|done|done].
    apply tx_nested_for_each. intros order. apply tx_nested_save_order.
Qed.

(** ** What the methods that write keep *)

(** X1.  Proper keys are an invariant of the store.  When the primary keys are
    positive and unique and every foreign key refers to a stored row, they
    are so again after [add_order], [save_order], [close_open_orders] and
    [clear_database], whatever the batch and whether the call returns or
    raises. *)
Theorem writes_keep_keys_proper (orders : option (arg (option nat))) (recursive : bool)
    (w w' : World) (r : outcome unit) (rb : outcome bool) :
  db_ok (w_data w) → w_tx_depth w = O →
  add_order orders recursive w = Some (w', r)
  ∨ save_order orders recursive w = Some (w', r)
  ∨ close_open_orders w = Some (w', r)
  ∨ clear_database w = Some (w', rb) →
  db_ok (w_data w').
Proof.
  intros Hok Hd Hrun.
  assert (Hw : tables_ok w) by (split; [done|by rewrite Hd]).
  destruct Hrun as [Hrun|[Hrun|[Hrun|Hrun]]].
  - exact (proj1 (keeps_outcome _ _ w w' r (keeps_add_order_ok orders recursive) Hw Hrun)).
  - exact (proj1 (keeps_outcome _ _ w w' r (keeps_save_order_ok orders recursive) Hw Hrun)).
  - exact (proj1 (keeps_outcome _ _ w w' r keeps_close_open_orders_ok Hw Hrun)).
  - exact (proj1 (keeps_outcome _ _ w w' rb keeps_clear_database_ok Hw Hrun)).
Qed.

Lemma writes_keep_keys_proper_witness : db_ok (w_data sample_updated_world).
Proof.
  apply (writes_keep_keys_proper (Some (Scalar (Some 3%nat))) true sample_update_world
           sample_updated_world (Return tt) (Return true)).
  - compute_done.
  - reflexivity.
  - right. left. vm_compute. reflexivity.
Defined.

(** X2.  Nothing is deleted.  [add_order] and [save_order] leave every row that
    was stored where it was, with its id and with what it refers to: an order
    row keeps its id and creation time, a host row its id, order and address,
    a variable row its id, host and name.  So a host or a variable that the
    caller's order no longer has stays stored after [save_order]. *)
Theorem writes_never_delete (orders : option (arg (option nat))) (recursive : bool)
    (w w' : World) (r : outcome unit) :
  w_tx_depth w = O →
  add_order orders recursive w = Some (w', r)
  ∨ save_order orders recursive w = Some (w', r) →
  grows (w_data w) (w_data w').
Proof.
  intros Hd Hrun.
  assert (Hw : grown_from (w_data w) w).
  { split; [apply grows_refl|by rewrite Hd]. }
  destruct Hrun as [Hrun|Hrun].
  - exact (proj1 (keeps_outcome _ _ w w' r (keeps_grown_add_order _ orders recursive)
                    Hw Hrun)).
  - exact (proj1 (keeps_outcome _ _ w w' r (keeps_grown_save_order _ orders recursive)
                    Hw Hrun)).
Qed.

Lemma writes_never_delete_witness :
  grows (w_data sample_update_world) (w_data sample_updated_world).
Proof.
  apply (writes_never_delete (Some (Scalar (Some 3%nat))) true sample_update_world
           sample_updated_world (Return tt)).
  - reflexivity.
  - right. vm_compute. reflexivity.
Defined.

(** ** The window of [get_orders] *)

Lemma Forall_sublist {A} (P : A → Prop) (l1 l2 : list A) :
  l1 `sublist_of` l2 → Forall P l2 → Forall P l1.
Proof.
  intros Hsub. rewrite !Forall_forall. intros H x Hx. apply H.
  by eapply elem_of_sublist.
Qed.

Lemma descending_sublist (l1 l2 : list Z) :
  l1 `sublist_of` l2 → descending l2 → descending l1.
Proof.
  induction 1 as [|x l1 l2 Hsub IH|x l1 l2 Hsub IH]; cbn [descending].
  - done.
  - intros [Hx Hd]. split; [by eapply Forall_sublist|by apply IH].
  - intros [_ Hd]. by apply IH.
Qed.

Lemma insert_desc_descending {A} (key : A → Z) (x : A) (l : list A) :
  descending (key <$> l) → key x ∉ key <$> l →
  descending (key <$> Engine.insert_desc key x l).
Proof.
  induction l as [|y l IH]; cbn [Engine.insert_desc fmap list_fmap descending].
  { intros _ _. split; [constructor|done]. }
  intros [Hy Hd] Hfresh. apply not_elem_of_cons in Hfresh as [Hne Hfresh].
  destruct (bool_decide (key y ≤ key x)) eqn:Hle.
  - apply bool_decide_eq_true in Hle. cbn [fmap list_fmap descending].
    split; [|done]. constructor; [lia|].
    eapply Forall_impl; [exact Hy|]. intros z Hz. cbn beta in Hz. lia.
  - apply bool_decide_eq_false in Hle. cbn [fmap list_fmap descending].
    split; [|by apply IH].
    rewrite (insert_desc_perm key x l). cbn [fmap list_fmap].
    constructor; [lia|done].
Qed.

Lemma order_by_desc_descending {A} (key : A → Z) (l : list A) :
  NoDup (key <$> l) → descending (key <$> Engine.order_by_desc key l).
Proof.
  induction l as [|x l IH]; [done|]. cbn [fmap list_fmap]. intros [Hx Hnd]%NoDup_cons.
  cbn [Engine.order_by_desc foldr]. apply insert_desc_descending; [by apply IH|].
  fold (Engine.order_by_desc key l). by rewrite (order_by_desc_perm key l).
Qed.

Lemma sql_limit_length {A} offset limit (l : list A) :
  length (Engine.sql_limit offset limit l) = window_size offset limit (length l).
Proof.
  unfold Engine.sql_limit, window_size. destruct limit.
  - by rewrite length_drop.
  - by rewrite length_take, length_drop.
Qed.

Lemma window_size_le offset limit K : limit ≠ O → (window_size offset limit K ≤ limit)%nat.
Proof. unfold window_size. destruct limit; [done|lia]. Qed.

Lemma matching_sublist kwargs db : matching kwargs db `sublist_of` t_order db.
Proof. apply sql_where_sublist. Qed.

(** X6.  The window of [get_orders], with and without the join.  On tables
    with proper keys the call returns stored orders that satisfy the
    criteria, each once, in descending order of id; as many as OFFSET and
    LIMIT let through out of those that match, so never more than [limit]
    when a limit is given. *)
Theorem get_orders_window (offset limit : nat) (recursive : bool) (kwargs : criteria)
    (w : World) :
  keys_ok (w_data w) →
  ∃ rows,
    get_orders offset limit recursive kwargs w
    = Some (w, Return ((if recursive then load_order (w_data w)
                        else __get_order_from_row) <$> rows))
    ∧ (∀ o, o ∈ rows → o ∈ t_order (w_data w) ∧ criteria_hold kwargs o)
    ∧ descending (or_id <$> rows)
    ∧ length rows = window_size offset limit (length (matching kwargs (w_data w)))
    ∧ (limit ≠ O → (length rows ≤ limit)%nat).
Proof.
  intros Hok.
  assert (Hnd : NoDup (or_id <$> matching kwargs (w_data w))).
  { eapply sublist_NoDup; [exact (proj1 Hok)|]. apply fmap_sublist, matching_sublist. }
  assert (Hin : ∀ o, o ∈ matching kwargs (w_data w) →
                     o ∈ t_order (w_data w) ∧ criteria_hold kwargs o).
  { intros o. rewrite matching_filter. intros [? ?]%list_elem_of_filter. done. }
  destruct recursive.
  - exists (Engine.order_by_desc or_id (selected offset limit kwargs (w_data w))).
    split; [by apply get_orders_recursive|].
    assert (Hsel : selected offset limit kwargs (w_data w)
                   `sublist_of` matching kwargs (w_data w)) by apply sql_limit_sublist.
    assert (Hlen : length (Engine.order_by_desc or_id
                             (selected offset limit kwargs (w_data w)))
                   = window_size offset limit (length (matching kwargs (w_data w)))).
    { rewrite order_by_desc_length. apply sql_limit_length. }
    split; [|split; [|split]].
    + intros o Ho. apply Hin. rewrite order_by_desc_perm in Ho.
      by eapply elem_of_sublist.
    + apply order_by_desc_descending. eapply sublist_NoDup; [exact Hnd|].
      by apply fmap_sublist.
    + exact Hlen.
    + intros Hl. rewrite Hlen. by apply window_size_le.
  - exists (Engine.sql_limit offset limit
              (Engine.order_by_desc or_id (matching kwargs (w_data w)))).
    split; [apply get_orders_plain, Hok|].
    assert (Hlen : length (Engine.sql_limit offset limit
                             (Engine.order_by_desc or_id (matching kwargs (w_data w))))
                   = window_size offset limit (length (matching kwargs (w_data w)))).
    { by rewrite sql_limit_length, order_by_desc_length. }
    split; [|split; [|split]].
    + intros o Ho. apply Hin. rewrite <- (order_by_desc_perm or_id).
      eapply elem_of_sublist; [exact Ho|apply sql_limit_sublist].
    + eapply descending_sublist; [apply fmap_sublist, sql_limit_sublist|].
      by apply order_by_desc_descending.
    + exact Hlen.
    + intros Hl. rewrite Hlen. by apply window_size_le.
Qed.

Lemma get_orders_window_witness :
  ∃ rows,
    get_orders 1 1 true (Criteria None None (Some (PyList ["open"; "pending"])))
               sample_world
    = Some (sample_world, Return (load_order sample_tables <$> rows))
    ∧ (∀ o, o ∈ rows →
         o ∈ t_order sample_tables
         ∧ criteria_hold (Criteria None None (Some (PyList ["open"; "pending"]))) o)
    ∧ descending (or_id <$> rows)
    ∧ length rows = 1%nat
    ∧ (1%nat ≠ O → (length rows ≤ 1)%nat).
Proof.
  apply (get_orders_window 1 1 true
           (Criteria None None (Some (PyList ["open"; "pending"]))) sample_world).
  compute_done.
Defined.

(** X7.  [count_orders] counts what [get_orders] lists: on tables with proper
    keys the call of [get_orders] without criteria and with the default
    window returns as many orders as [count_orders] reports, with and
    without the join. *)
Theorem count_orders_counts_get_orders (recursive : bool) (w : World) :
  keys_ok (w_data w) →
  ∃ l, get_orders 0 0 recursive no_criteria w = Some (w, Return l)
       ∧ length l = count_orders (w_data w).
Proof.
  intros Hok. destruct recursive.
  - rewrite get_orders_recursive by done. eexists. split; [reflexivity|].
    by rewrite length_fmap, order_by_desc_length.
  - rewrite get_orders_plain by apply Hok. eexists. split; [reflexivity|].
    rewrite length_fmap, sql_limit_length, order_by_desc_length.
    unfold window_size, count_orders. cbn. lia.
Qed.

Lemma count_orders_counts_get_orders_witness :
  ∃ l, get_orders 0 0 true no_criteria sample_world = Some (sample_world, Return l)
       ∧ length l = 2%nat.
Proof.
  apply (count_orders_counts_get_orders true sample_world). compute_done.
Defined.

(** ** [close_open_orders] and [clear_database] *)

Lemma update_closed_null_rows now db :
  t_order (Engine.update_closed_null now db)
  = (λ r, OrderRow (or_id r) (or_service r) (or_status r) (or_created r)
                   (Some (default now (or_closed r))) (or_created_by r))
      <$> t_order db.
Proof.
  cbn [Engine.update_closed_null t_order]. apply list_fmap_ext. intros i r _.
  destruct r as [id service status created [closed|] created_by]; by cbn.
Qed.

Lemma update_closed_null_closed now db :
  Forall (λ r, or_closed r ≠ None) (t_order db) → Engine.update_closed_null now db = db.
Proof.
  intros Hclosed. destruct db as [os hs vs]. unfold Engine.update_closed_null.
  cbn [t_order t_host t_variable] in *. f_equal.
  induction Hclosed as [|r os Hr _ IH]; [done|]. cbn [fmap list_fmap].
  by rewrite decide_False, IH.
Qed.

(** X8.  [close_open_orders] stamps the orders that are open and nothing else.
    Every order row keeps its id, service, status, creation time and creator;
    its closed timestamp becomes the time of the call if it was null and is
    kept otherwise; hosts and variables are left alone; no order is open
    afterwards, so a second call, at whatever time, changes nothing. *)
Theorem close_open_orders_stamps (w : World) :
  ∃ w', close_open_orders w = Some (w', Return tt)
    ∧ t_order (w_data w')
      = (λ r, OrderRow (or_id r) (or_service r) (or_status r) (or_created r)
                       (Some (default (w_now w) (or_closed r))) (or_created_by r))
          <$> t_order (w_data w)
    ∧ t_host (w_data w') = t_host (w_data w)
    ∧ t_variable (w_data w') = t_variable (w_data w)
    ∧ Forall (λ r, or_closed r ≠ None) (t_order (w_data w'))
    ∧ ∀ w2, w_data w2 = w_data w' →
        ∃ w2', close_open_orders w2 = Some (w2', Return tt) ∧ w_data w2' = w_data w'.
Proof.
  eexists. split; [reflexivity|]. cbn [with_event with_data w_data].
  assert (Hclosed : Forall (λ r, or_closed r ≠ None)
                      (t_order (Engine.update_closed_null (w_now w) (w_data w)))).
  { rewrite update_closed_null_rows. apply Forall_fmap, Forall_true. by intros r. }
  split; [apply update_closed_null_rows|]. split; [done|]. split; [done|].
  split; [done|]. intros w2 Hw2. eexists. split; [reflexivity|].
  cbn [with_event with_data w_data]. rewrite Hw2. by apply update_closed_null_closed.
Qed.

Lemma get_orders_no_rows offset limit recursive kwargs w :
  w_data w = no_rows →
  get_orders offset limit recursive kwargs w = Some (w, Return []).
Proof.
  intros Hempty. unfold get_orders, select_orders. rewrite Hempty.
  assert (Hwhere : Engine.sql_where (search_conditions kwargs) (t_order no_rows) = []).
  { by destruct (search_conditions kwargs). }
  destruct recursive.
  - done.
  - rewrite Hwhere. cbn [Engine.order_by_desc foldr].
    assert (Engine.sql_limit offset limit ([] : list order_row) = []) as ->.
    { unfold Engine.sql_limit. destruct limit; by rewrite ?drop_nil, ?take_nil. }
    done.
Qed.

(** X9.  When every host row refers to a stored order and every variable row
    to a stored host, [clear_database] empties the store, children included:
    the delete of the order rows cascades to every host and variable row, and
    after the call [count_orders] is 0, [get_orders] returns the empty list
    for every window and every criteria, with and without the join, and
    [get_order] returns [None]. *)
Theorem clear_database_empties (offset limit : nat) (recursive : bool)
    (kwargs : criteria) (w : World) :
  refs_ok (w_data w) →
  ∃ w', clear_database w = Some (w', Return true)
    ∧ w_data w' = no_rows
    ∧ count_orders (w_data w') = 0%nat
    ∧ get_orders offset limit recursive kwargs w' = Some (w', Return [])
    ∧ get_order kwargs w' = Some (w', Return None).
Proof.
  intros Hrefs. eexists. split; [reflexivity|].
  match goal with |- w_data ?w' = _ ∧ _ =>
    assert (Hdata : w_data w' = no_rows)
      by (cbn; by apply delete_orders_refs_ok)
  end.
  split; [done|]. split; [by rewrite Hdata|].
  split; [by apply get_orders_no_rows|].
  unfold get_order, bind. by rewrite get_orders_no_rows.
Qed.

(** ** [add_order] on hosts that are clean *)

Lemma run_add_hosts order_id hrefs hs w :
  mapM (λ r : option nat, href ← r; w_hosts w !! href) hrefs = Some hs →
  NoDup hrefs →
  ∃ w', for_each hrefs (λ host, __add_host (Some order_id) host) w = Some (w', Return tt)
    ∧ agree w' (with_hosts (untouch_hosts hrefs (w_hosts w))
                  (with_data (store_hosts order_id (dirty_hosts hs) (w_data w)) w)).
Proof.
  intros Hm. apply mapM_Some in Hm. revert hs w Hm.
  induction hrefs as [|r hrefs IH]; intros hs w Hm Hnd.
  { apply Forall2_nil_inv_l in Hm as ->. eexists. split; [reflexivity|]. agree_tac. }
  apply Forall2_cons_inv_l in Hm as (h & hs' & Hr & Hm & ->).
  apply NoDup_cons in Hnd as [Hr' Hnd].
  destruct r as [href|]; [|done]. cbn in Hr.
  cbn [for_each]. unfold bind at 1, dirty_hosts.
  destruct (Host.dirty h) eqn:Hdh.
  - destruct (run_add_host_dirty order_id href h w Hr Hdh) as (w1 & host_id & -> & Hag).
    destruct (IH hs' w1) as (w' & -> & Hag'); [|done|].
    + apply (heap_lookup_others (w_hosts w)); [|done].
      intros href' Hin. destruct Hag as (_ & _ & _ & _ & -> & _). world_simpl.
      rewrite lookup_alter_ne; [done|]. intros ->. by apply Hr'.
    + eexists. split; [reflexivity|]. rewrite filter_cons_True by done.
      unfold untouch_hosts, store_hosts, dirty_hosts in *. cbn [foldl]. agree_tac.
  - destruct (run_add_host_clean order_id href h w Hr Hdh) as (w1 & -> & Hag & _).
    destruct (IH hs' w1) as (w' & -> & Hag'); [|done|].
    + apply (heap_lookup_others (w_hosts w)); [|done].
      intros href' Hin. by destruct Hag as (_ & _ & _ & _ & -> & _).
    + eexists. split; [reflexivity|].
      rewrite filter_cons_False by (by rewrite Hdh).
      unfold untouch_hosts, store_hosts, dirty_hosts in *. cbn [foldl].
      rewrite (alter_untouch_clean _ href h Hr Hdh). agree_tac.
Qed.

Lemma run_add_order_any oref o hs w :
  w_orders w !! oref = Some o → order_hosts w o = Some hs → NoDup (Order.hosts o) →
  ∃ w', __add_order (Some oref) true w
        = Some (w', Return (Some (Engine.next_id (or_id <$> t_order (w_data w)))))
    ∧ agree w'
        (with_orders (alter (λ o, Order.set_id o
                                (Some (Engine.next_id (or_id <$> t_order (w_data w)))))
                            oref (w_orders w))
           (with_hosts (untouch_hosts (Order.hosts o) (w_hosts w))
              (with_data (store_order o (dirty_hosts hs) (w_now w) (w_data w)) w))).
Proof.
  intros Ho Hhs Hnd. unfold __add_order, synchronized, bind at 1, read_order.
  cbn [acquire with_sync_lock w_orders]. rewrite Ho.
  unfold bind at 1, gets. unfold bind at 1, execute.
  unfold Order.get_service_name, Order.get_status, Order.get_closed_timestamp,
    Order.get_created_by, Order.get_hosts.
  cbn [Engine.insert_order]. world_simpl. unfold bind at 1, order_set_id, modify.
  cbn [negb]. unfold bind at 1.
  match goal with |- context [for_each _ _ ?w1] =>
    destruct (run_add_hosts (Engine.next_id (or_id <$> t_order (w_data w)))
                (Order.hosts o) hs w1 Hhs Hnd) as (w2 & Hrun & Hag) end.
  rewrite Hrun. unfold ret.
  eexists. split; [reflexivity|].
  unfold store_order. cbn [Engine.insert_order]. agree_tac.
Qed.

Lemma run_add_order_scalar_any oref o hs w :
  w_orders w !! oref = Some o → order_hosts w o = Some hs → NoDup (Order.hosts o) →
  ∃ w', add_order (Some (Scalar (Some oref))) true w = Some (w', Return tt)
    ∧ w_data w' = store_order o (dirty_hosts hs) (w_now w) (w_data w)
    ∧ w_hosts w' = untouch_hosts (Order.hosts o) (w_hosts w)
    ∧ w_orders w'
      = alter (λ o, Order.set_id o (Some (Engine.next_id (or_id <$> t_order (w_data w)))))
              oref (w_orders w)
    ∧ w_tx_depth w' = w_tx_depth w ∧ w_now w' = w_now w.
Proof.
  intros Ho Hhs Hnd. unfold add_order, to_list. unfold bind at 1.
  destruct (run_tx_begin w) as (wb & -> & Hbd & Hbh & Hbo & Hbn & Hbt & _).
  unfold try_except_reraise. cbn [for_each]. unfold bind at 1. unfold bind at 1.
  destruct (run_add_order_any oref o hs wb) as (w1 & -> & Hag);
    [by rewrite Hbo|by unfold order_hosts; rewrite Hbh|done|].
  unfold ret.
  destruct (run_tx_commit w1 (w_tx_depth w)) as (wc & -> & Hcd & Hch & Hco & Hcn & Hct & _).
  { destruct Hag as (_ & -> & _). world_simpl. done. }
  eexists. split; [reflexivity|].
  destruct Hag as (Hd1 & _ & _ & Hn1 & Hh1 & Ho1 & _). world_simpl.
  rewrite Hbd, ?Hbn in Hd1. rewrite Hbh in Hh1. rewrite Hbd, Hbo in Ho1.
  repeat split; congruence.
Qed.

Lemma lookup_untouched (all hrefs : list (option nat)) (heap : gmap nat Host.t) hs :
  (∀ r, r ∈ hrefs → r ∈ all) →
  Forall2 (λ (r : option nat) h, (href ← r; heap !! href) = Some h) hrefs hs →
  Forall2 (λ (r : option nat) h, (href ← r; untouch_hosts all heap !! href) = Some h)
          hrefs (Host.untouch <$> hs).
Proof.
  intros Hall Hm. induction Hm as [|r h hrefs hs' Hr Hm IH]; constructor.
  - destruct r as [href|]; [|done]. cbn in *. rewrite untouch_hosts_lookup.
    rewrite decide_True by (apply Hall; by left). by rewrite Hr.
  - apply IH. intros r' Hin. apply Hall. by right.
Qed.

Lemma order_hosts_untouched w w' o hs :
  order_hosts w o = Some hs →
  w_hosts w' = untouch_hosts (Order.hosts o) (w_hosts w) →
  order_hosts w' o = Some (Host.untouch <$> hs).
Proof.
  unfold order_hosts. intros Hm ->. apply mapM_Some. apply mapM_Some in Hm.
  by apply lookup_untouched.
Qed.

Lemma dirty_hosts_untouched hs : dirty_hosts (Host.untouch <$> hs) = [].
Proof.
  unfold dirty_hosts. induction hs as [|h hs IH]; [done|]. cbn [fmap list_fmap].
  by rewrite filter_cons_False.
Qed.

Lemma load_order_tables db db' r :
  t_host db' = t_host db → t_variable db' = t_variable db →
  load_order db' r = load_order db r.
Proof.
  intros Hh Hv. unfold load_order, Engine.hosts_of. rewrite Hh. f_equal.
  apply list_fmap_ext. intros i h _. unfold load_host, Engine.variables_of.
  by rewrite Hv.
Qed.

Lemma host_view_reload (hs : list Host.t) :
  host_view <$> (reload <$> hs) = host_view <$> hs.
Proof. rewrite <- list_fmap_compose. by apply list_fmap_ext. Qed.

(** X11.  Adding the same order object again.  The first [add_order] stores the
    order with its dirty hosts and leaves the hosts clean; so a second
    [add_order] on the same object stores a second order row, under a larger
    id that replaces the first in the object, and no host at all: the order
    read back under the new id has no hosts, while the one under the first id
    has them. *)
Theorem add_order_again_stores_no_hosts (oref : nat) (o : Order.t (option nat))
    (hs : list Host.t) (w : World) :
  db_ok (w_data w) → w_orders w !! oref = Some o → order_hosts w o = Some hs →
  NoDup (Order.hosts o) →
  ∃ w1 w2 id1 id2 first second,
    add_order (Some (Scalar (Some oref))) true w = Some (w1, Return tt)
    ∧ Order.id <$> w_orders w1 !! oref = Some (Some id1)
    ∧ add_order (Some (Scalar (Some oref))) true w1 = Some (w2, Return tt)
    ∧ Order.id <$> w_orders w2 !! oref = Some (Some id2)
    ∧ id1 < id2
    ∧ get_order (Criteria (Some (Scalar id1)) None None) w2
      = Some (w2, Return (Some first))
    ∧ host_view <$> Order.hosts first = host_view <$> dirty_hosts hs
    ∧ get_order (Criteria (Some (Scalar id2)) None None) w2
      = Some (w2, Return (Some second))
    ∧ Order.service second = Order.service o
    ∧ Order.hosts second = [].
Proof.
  intros Hok Ho Hhs Hnd.
  destruct (run_add_order_scalar_any oref o hs w Ho Hhs Hnd)
    as (w1 & Hrun1 & Hdata1 & Hhosts1 & Horders1 & _ & _).
  destruct (store_order_spec o (dirty_hosts hs) (w_now w) (w_data w) Hok)
    as (Hok1 & Hto1 & Hload1).
  cbn zeta in Hok1, Hto1, Hload1. rewrite <- Hdata1 in Hok1, Hto1, Hload1.
  set (id1 := Engine.next_id (or_id <$> t_order (w_data w))) in *.
  set (row1 := OrderRow id1 _ _ _ _ _) in *.
  set (o1 := Order.set_id o (Some id1)).
  assert (Ho1 : w_orders w1 !! oref = Some o1).
  { by rewrite Horders1, lookup_alter, decide_True, Ho. }
  assert (Hhs1 : order_hosts w1 o1 = Some (Host.untouch <$> hs)).
  { by apply (order_hosts_untouched w w1 o hs). }
  destruct (run_add_order_scalar_any oref o1 (Host.untouch <$> hs) w1 Ho1 Hhs1 Hnd)
    as (w2 & Hrun2 & Hdata2 & Hhosts2 & Horders2 & _ & _).
  rewrite dirty_hosts_untouched in Hdata2.
  destruct (store_order_spec o1 [] (w_now w1) (w_data w1) Hok1)
    as (Hok2 & Hto2 & Hload2).
  cbn zeta in Hok2, Hto2, Hload2. rewrite <- Hdata2 in Hok2, Hto2, Hload2.
  set (id2 := Engine.next_id (or_id <$> t_order (w_data w1))) in *.
  set (row2 := OrderRow id2 _ _ _ _ _) in *.
  assert (Hlt : id1 < id2).
  { apply next_id_gt. rewrite Hto1, fmap_app. apply elem_of_app. right. by left. }
  exists w1, w2, id1, id2, (load_order (w_data w2) row1), (load_order (w_data w2) row2).
  split; [done|]. split; [by rewrite Ho1|]. split; [done|]. split.
  { by rewrite Horders2, lookup_alter, decide_True, Ho1. }
  split; [done|]. split.
  { apply (get_order_found w2 row1); [apply Hok2|].
    rewrite Hto2, Hto1. apply elem_of_app. left. apply elem_of_app. right. by left. }
  split.
  { rewrite (load_order_tables (w_data w1) (w_data w2)); [| |].
    - rewrite Hload1. cbn [Order.hosts]. apply host_view_reload.
    - by rewrite Hdata2.
    - by rewrite Hdata2. }
  split.
  { apply (get_order_found w2 row2); [apply Hok2|].
    rewrite Hto2. apply elem_of_app. right. by left. }
  by rewrite Hload2.
Qed.

Lemma add_order_again_stores_no_hosts_witness :
  ∃ w1 w2 id1 id2 first second,
    add_order (Some (Scalar (Some 0%nat))) true sample_heap_world = Some (w1, Return tt)
    ∧ Order.id <$> w_orders w1 !! 0%nat = Some (Some id1)
    ∧ add_order (Some (Scalar (Some 0%nat))) true w1 = Some (w2, Return tt)
    ∧ Order.id <$> w_orders w2 !! 0%nat = Some (Some id2)
    ∧ id1 < id2
    ∧ get_order (Criteria (Some (Scalar id1)) None None) w2
      = Some (w2, Return (Some first))
    ∧ host_view <$> Order.hosts first
      = host_view <$> dirty_hosts [sample_host_a; sample_host_b]
    ∧ get_order (Criteria (Some (Scalar id2)) None None) w2
      = Some (w2, Return (Some second))
    ∧ Order.service second = Order.service sample_order
    ∧ Order.hosts second = [].
Proof.
  apply (add_order_again_stores_no_hosts 0 sample_order [sample_host_a; sample_host_b]
           sample_heap_world).
  - compute_done.
  - reflexivity.
  - reflexivity.
  - compute_done.
Defined.

(** ** [save_order] on an order that is stored *)

Lemma update_order_rows id service status closed created_by db :
  t_order (Engine.update_order id service status closed created_by db)
  = (λ r, if decide (or_id r = id)
          then OrderRow (or_id r) service status (or_created r) closed created_by
          else r) <$> t_order db.
Proof. done. Qed.

Lemma update_order_again id service status closed created_by db db' :
  t_order db'
  = t_order (Engine.update_order id service status closed created_by db) →
  Engine.update_order id service status closed created_by db' = db'.
Proof.
  intros Hrows. rewrite update_order_rows in Hrows.
  destruct db' as [os hs vs]. unfold Engine.update_order.
  cbn [t_order t_host t_variable] in *. f_equal. subst os.
  rewrite <- list_fmap_compose. apply list_fmap_ext. intros i r _. cbn.
  destruct (decide (or_id r = id)) as [Heq|Hne]; cbn.
  - by rewrite decide_True.
  - by rewrite decide_False.
Qed.

Lemma untouch_hosts_again (hrefs : list (option nat)) (heap : gmap nat Host.t) :
  untouch_hosts hrefs (untouch_hosts hrefs heap) = untouch_hosts hrefs heap.
Proof.
  apply map_eq. intros href. rewrite !untouch_hosts_lookup.
  destruct (decide _); destruct (heap !! href) as [h|]; done.
Qed.

Lemma Forall_untouched (hs : list Host.t) :
  Forall (λ h, Host.dirty h = false) (Host.untouch <$> hs).
Proof. apply Forall_fmap, Forall_true. by intros h. Qed.

Lemma save_order_found_state recursive oref o id row hs w :
  db_ok (w_data w) → w_tx_depth w = O → w_orders w !! oref = Some o →
  Order.id o = Some id → row ∈ t_order (w_data w) → or_id row = id →
  order_hosts w o = Some hs → NoDup (Order.hosts o) →
  ∃ w', save_order (Some (Scalar (Some oref))) recursive w = Some (w', Return tt)
    ∧ db_ok (w_data w') ∧ w_tx_depth w' = O
    ∧ t_order (w_data w')
      = t_order (Engine.update_order id (Order.service o) (Order.status o)
                   (Order.closed o) (Order.created_by o) (w_data w))
    ∧ w_data w'
      = (if recursive then save_hosts id hs else λ db, db)
          (Engine.update_order id (Order.service o) (Order.status o)
             (Order.closed o) (Order.created_by o) (w_data w))
    ∧ w_hosts w' = (if recursive then untouch_hosts (Order.hosts o) (w_hosts w)
                    else w_hosts w)
    ∧ w_orders w' = w_orders w.
Proof.
  intros Hok Hd Ho Hid Hrow Hrid Hhs Hnd.
  destruct (run_save_order_scalar_found recursive oref o id row hs w)
    as (w' & Hrun & Hdata & Hhosts & Horders & _); try done; [apply Hok|].
  exists w'. split; [done|]. split.
  { assert (Hw : tables_ok w) by (split; [done|by rewrite Hd]).
    exact (proj1 (keeps_outcome _ _ w w' _
                    (keeps_save_order_ok (Some (Scalar (Some oref))) recursive)
                    Hw Hrun)). }
  split.
  { destruct (run_transaction
                (for_each (to_list (Scalar (Some oref)))
                   (λ order, __save_order order recursive))
                w w' (Return tt)) as [Hd' _]; [|done|done|done].
    apply tx_nested_for_each. intros order. apply tx_nested_save_order. }
  split; [|done]. rewrite Hdata. destruct recursive; [|done].
  by rewrite save_hosts_order.
Qed.

(** X12.  The order read back after [save_order].  For an order whose id is
    stored, [get_order] by that id after [save_order] returns the service,
    status, closed timestamp and creator of the caller's object; the id and
    the creation time are those of the stored row. *)
Theorem save_order_get_order_round_trip (recursive : bool) (oref : nat)
    (o : Order.t (option nat)) (row : order_row) (hs : list Host.t) (w : World) :
  db_ok (w_data w) → w_tx_depth w = O → w_orders w !! oref = Some o →
  Order.id o = Some (or_id row) → row ∈ t_order (w_data w) →
  order_hosts w o = Some hs → NoDup (Order.hosts o) →
  ∃ w' loaded,
    save_order (Some (Scalar (Some oref))) recursive w = Some (w', Return tt)
    ∧ get_order (Criteria (Some (Scalar (or_id row))) None None) w'
      = Some (w', Return (Some loaded))
    ∧ Order.id loaded = Some (or_id row)
    ∧ Order.created loaded = Some (or_created row)
    ∧ Order.service loaded = Order.service o
    ∧ Order.status loaded = Order.status o
    ∧ Order.closed loaded = Order.closed o
    ∧ Order.created_by loaded = Order.created_by o.
Proof.
  intros Hok Hd Ho Hid Hrow Hhs Hnd.
  destruct (save_order_found_state recursive oref o (or_id row) row hs w)
    as (w' & Hrun & Hok' & _ & Hrows & _); try done.
  set (row' := OrderRow (or_id row) (Order.service o) (Order.status o) (or_created row)
                        (Order.closed o) (Order.created_by o)).
  assert (Hrow' : row' ∈ t_order (w_data w')).
  { rewrite Hrows, update_order_rows. apply list_elem_of_fmap.
    exists row. split; [|done]. by rewrite decide_True. }
  exists w', (load_order (w_data w') row'). split; [done|]. split; [|done].
  apply (get_order_found w' row'); [apply Hok'|done].
Qed.

Lemma save_order_get_order_round_trip_witness :
  ∃ w' loaded,
    save_order (Some (Scalar (Some 3%nat))) true sample_update_world
    = Some (w', Return tt)
    ∧ get_order (Criteria (Some (Scalar 1)) None None) w' = Some (w', Return (Some loaded))
    ∧ Order.id loaded = Some 1
    ∧ Order.created loaded = Some 10
    ∧ Order.service loaded = "backup"
    ∧ Order.status loaded = "done"
    ∧ Order.closed loaded = Some 60
    ∧ Order.created_by loaded = "erin".
Proof.
  apply (save_order_get_order_round_trip true 3 sample_order_update
           (OrderRow 1 "backup" "open" 10 None "alice")
           [sample_host_r1; sample_host_a] sample_update_world).
  - compute_done.
  - reflexivity.
  - reflexivity.
  - reflexivity.
  - by left.
  - reflexivity.
  - compute_done.
Defined.

(** X13.  Saving again changes nothing.  After [save_order] on an order whose
    id is stored, a second [save_order] on the same object returns and leaves
    the tables and the caller's objects exactly as the first left them. *)
Theorem save_order_again_changes_nothing (recursive : bool) (oref : nat)
    (o : Order.t (option nat)) (row : order_row) (hs : list Host.t) (w : World) :
  db_ok (w_data w) → w_tx_depth w = O → w_orders w !! oref = Some o →
  Order.id o = Some (or_id row) → row ∈ t_order (w_data w) →
  order_hosts w o = Some hs → NoDup (Order.hosts o) →
  ∃ w1 w2,
    save_order (Some (Scalar (Some oref))) recursive w = Some (w1, Return tt)
    ∧ save_order (Some (Scalar (Some oref))) recursive w1 = Some (w2, Return tt)
    ∧ w_data w2 = w_data w1 ∧ w_hosts w2 = w_hosts w1 ∧ w_orders w2 = w_orders w1.
Proof.
  intros Hok Hd Ho Hid Hrow Hhs Hnd.
  destruct (save_order_found_state recursive oref o (or_id row) row hs w)
    as (w1 & Hrun1 & Hok1 & Hd1 & Hrows1 & Hdata1 & Hhosts1 & Horders1); try done.
  set (row' := OrderRow (or_id row) (Order.service o) (Order.status o) (or_created row)
                        (Order.closed o) (Order.created_by o)).
  assert (Hrow' : row' ∈ t_order (w_data w1)).
  { rewrite Hrows1, update_order_rows. apply list_elem_of_fmap.
    exists row. split; [|done]. by rewrite decide_True. }
  assert (Hhs1 : order_hosts w1 o
                 = Some (if recursive then Host.untouch <$> hs else hs)).
  { destruct recursive.
    - by apply (order_hosts_untouched w w1 o hs).
    - unfold order_hosts in *. by rewrite Hhosts1. }
  destruct (save_order_found_state recursive oref o (or_id row) row'
              (if recursive then Host.untouch <$> hs else hs) w1)
    as (w2 & Hrun2 & _ & _ & _ & Hdata2 & Hhosts2 & Horders2); try done.
  { by rewrite Horders1. }
  exists w1, w2. split; [done|]. split; [done|].
  rewrite (update_order_again _ _ _ _ _ (w_data w)) in Hdata2 by done.
  split; [|split; [|done]].
  - destruct recursive; [|done]. rewrite Hdata2.
    apply upsert_save_hosts_clean, Forall_untouched.
  - destruct recursive; [|done]. rewrite Hhosts2, Hhosts1. apply untouch_hosts_again.
Qed.

Lemma save_order_again_changes_nothing_witness :
  ∃ w1 w2,
    save_order (Some (Scalar (Some 3%nat))) true sample_update_world
    = Some (w1, Return tt)
    ∧ save_order (Some (Scalar (Some 3%nat))) true w1 = Some (w2, Return tt)
    ∧ w_data w2 = w_data w1 ∧ w_hosts w2 = w_hosts w1 ∧ w_orders w2 = w_orders w1.
Proof.
  apply (save_order_again_changes_nothing true 3 sample_order_update
           (OrderRow 1 "backup" "open" 10 None "alice")
           [sample_host_r1; sample_host_a] sample_update_world).
  - compute_done.
  - reflexivity.
  - reflexivity.
  - reflexivity.
  - by left.
  - reflexivity.
  - compute_done.
Defined.
Lemma batch_order_count_witness :
  count_orders (w_data sample_added_world) = 3%nat.
Proof.
  destruct (batch_order_count (Scalar (Some 0%nat)) true sample_heap_world
              sample_added_world (Exception "")) as [Hadd _].
  apply Hadd. vm_compute. reflexivity.
Defined.

Lemma writes_run_under_lock_witness :
  lock_count sample_updated_world = 0%nat
  ∧ ∃ evs, w_log sample_updated_world = w_log sample_update_world ++ evs
           ∧ Forall write_locked evs.
Proof.
  apply (writes_run_under_lock (Some (Scalar (Some 3%nat))) true sample_update_world
           sample_updated_world (Return tt) (Return true)).
  right. left. vm_compute. reflexivity.
Defined.

Lemma sample_heap_closed (l : list (option nat)) :
  (∀ r, r ∈ l → r = None ∨ r = Some 0%nat ∨ r = Some 2%nat) →
  heap_closed sample_heap_world l.
Proof.
  intros Hl oref Hin. destruct (Hl _ Hin) as [?|[[= ->]|[= ->]]]; [done| |].
  - exists sample_order. split; [done|]. intros href Hh.
    apply elem_of_cons in Hh as [[= ->]|Hh]; [by eexists|].
    apply elem_of_cons in Hh as [[= ->]|Hh]; [by eexists|].
    by apply elem_of_nil in Hh.
  - exists sample_order_broken. split; [done|]. intros href Hh.
    apply elem_of_cons in Hh as [[= ->]|Hh]; [by eexists|].
    apply elem_of_cons in Hh as [[= ->]|Hh]; [by eexists|].
    apply elem_of_cons in Hh as [[=]|Hh]. by apply elem_of_nil in Hh.
Qed.

Lemma batch_with_none_stores_nothing_witness :
  (∃ w' e, add_order (Some (PyList [Some 0%nat; Some 2%nat])) true sample_heap_world
           = Some (w', Raise e)
           ∧ w_data w' = w_data sample_heap_world)
  ∧ (∃ w' e, save_order (Some (PyList [Some 0%nat; Some 2%nat])) true sample_heap_world
             = Some (w', Raise e)
             ∧ w_data w' = w_data sample_heap_world).
Proof.
  apply (batch_with_none_stores_nothing (PyList [Some 0%nat; Some 2%nat]) true
           sample_heap_world).
  - reflexivity.
  - apply sample_heap_closed. intros r Hr.
    apply elem_of_cons in Hr as [->|Hr]; [by right; left|].
    apply elem_of_cons in Hr as [->|Hr]; [by right; right|].
    by apply elem_of_nil in Hr.
  - right. split; [done|]. exists 2%nat, sample_order_broken.
    split; [by right; left|]. split; [done|]. by right; right; left.
Defined.

Lemma clear_database_empties_witness :
  ∃ w', clear_database sample_world = Some (w', Return true)
    ∧ w_data w' = no_rows
    ∧ count_orders (w_data w') = 0%nat
    ∧ get_orders 0 0 true no_criteria w' = Some (w', Return [])
    ∧ get_order no_criteria w' = Some (w', Return None).
Proof.
  apply (clear_database_empties 0 0 true no_criteria sample_world).
  compute_done.
Defined.

(** ** The table map *)

Lemma slice_from_prefix (pfx s : string) :
  slice_from (String.length pfx) (pfx +:+ s) = s.
Proof. induction pfx as [|c pfx IH]; [by destruct s|exact IH]. Qed.

Lemma append_inj_r (pfx s1 s2 : string) : pfx +:+ s1 = pfx +:+ s2 → s1 = s2.
Proof.
  induction pfx as [|c pfx IH]; [done|]. cbn. intros [= H]. by apply IH.
Qed.

Lemma update_table_names_fresh (db : Schema) :
  (∀ key, key ∈ table_keys → _table_prefix db +:+ key ∉ metadata db) →
  __update_table_names db
  = inr (MkSchema (_table_prefix db)
           (<["variable" :=
                MkTable (_table_prefix db +:+ "variable")
                        ["id"; "host_id"; "name"; "value"]
                        (Some (["host_id"], [_table_prefix db +:+ "host.id"]))]>
              (<["host" :=
                   MkTable (_table_prefix db +:+ "host")
                           ["id"; "order_id"; "address"; "name"]
                           (Some (["order_id"], [_table_prefix db +:+ "order.id"]))]>
                 (<["order" :=
                      MkTable (_table_prefix db +:+ "order")
                              ["id"; "service"; "status"; "created"; "closed";
                               "created_by"] None]>
                    (_table_map db))))
           ({[_table_prefix db +:+ "variable"]}
            ∪ ({[_table_prefix db +:+ "host"]}
               ∪ ({[_table_prefix db +:+ "order"]} ∪ metadata db)))).
Proof.
  intros Hfresh. destruct db as [pfx m md]. cbn [_table_prefix metadata] in *.
  assert (Ho : pfx +:+ "order" ∉ md) by (apply Hfresh; set_solver).
  assert (Hh : pfx +:+ "host" ∉ md) by (apply Hfresh; set_solver).
  assert (Hv : pfx +:+ "variable" ∉ md) by (apply Hfresh; set_solver).
  unfold __update_table_names, sa_Table.
  cbn [_table_prefix _table_map metadata with_metadata __add_table tbl_name].
  rewrite (decide_False (P := pfx +:+ "order" ∈ md)) by done.
  cbn [_table_prefix _table_map metadata with_metadata __add_table tbl_name].
  rewrite decide_False.
  2:{ intros [Heq%elem_of_singleton|?]%elem_of_union; [|done].
      by apply append_inj_r in Heq. }
  cbn [_table_prefix _table_map metadata with_metadata __add_table tbl_name].
  rewrite decide_False.
  2:{ intros [Heq%elem_of_singleton|[Heq%elem_of_singleton|?]%elem_of_union]%elem_of_union;
        [| |done]; by apply append_inj_r in Heq. }
  cbn [_table_prefix _table_map metadata with_metadata __add_table tbl_name].
  unfold __add_table, with_metadata. cbn [_table_prefix _table_map metadata tbl_name].
  by rewrite !slice_from_prefix.
Qed.

(** X16.  The table map follows the prefix.  With a prefix under which the
    metadata has no table yet, [set_table_prefix] returns; afterwards
    [get_table_prefix] is the new prefix, the keys [order], [host] and
    [variable] of the map give the tables named prefix + key, whose foreign
    keys refer to the tables of the same prefix, every other key of the map
    is as it was, and the tables defined before stay defined.  The
    constructor yields such a map for the prefix [exscriptd_]. *)
Theorem table_map_follows_prefix (prefix : string) (db : Schema) :
  (∀ key, key ∈ table_keys → prefix +:+ key ∉ metadata db) →
  (∃ db' t_o t_h t_v,
     set_table_prefix prefix db = inr db'
     ∧ get_table_prefix db' = prefix
     ∧ _table_map db' !! "order" = Some t_o ∧ tbl_name t_o = prefix +:+ "order"
     ∧ _table_map db' !! "host" = Some t_h ∧ tbl_name t_h = prefix +:+ "host"
     ∧ _table_map db' !! "variable" = Some t_v ∧ tbl_name t_v = prefix +:+ "variable"
     ∧ tbl_foreign_key t_h = Some (["order_id"], [prefix +:+ "order.id"])
     ∧ tbl_foreign_key t_v = Some (["host_id"], [prefix +:+ "host.id"])
     ∧ (∀ key, key ∉ table_keys → _table_map db' !! key = _table_map db !! key)
     ∧ metadata db ⊆ metadata db')
  ∧ ∃ db0, __init__ = inr db0
      ∧ get_table_prefix db0 = "exscriptd_"
      ∧ dom (_table_map db0) = list_to_set table_keys
      ∧ ∀ key, key ∈ table_keys →
          tbl_name <$> _table_map db0 !! key = Some ("exscriptd_" +:+ key).
Proof.
  intros Hfresh. split.
  - unfold set_table_prefix. rewrite update_table_names_fresh by done.
    cbn [_table_prefix _table_map metadata].
    eexists _, _, _, _. split; [reflexivity|].
    cbn [get_table_prefix _table_prefix _table_map metadata]. split; [done|].
    split; [by rewrite lookup_insert_ne, lookup_insert_ne, lookup_insert_eq|].
    split; [done|].
    split; [by rewrite lookup_insert_ne, lookup_insert_eq|]. split; [done|].
    split; [by rewrite lookup_insert_eq|]. split; [done|].
    split; [done|]. split; [done|]. split.
    + intros key Hkey. rewrite !lookup_insert_ne; [done| | |];
        intros <-; apply Hkey; set_solver.
    + set_solver.
  - unfold __init__. rewrite update_table_names_fresh by set_solver.
    eexists. split; [reflexivity|]. split; [done|].
    cbn [_table_prefix _table_map metadata]. split.
    + rewrite !dom_insert_L, dom_empty_L. set_solver.
    + intros key Hkey.
      apply elem_of_cons in Hkey as [->|Hkey]; [done|].
      apply elem_of_cons in Hkey as [->|Hkey]; [done|].
      apply elem_of_cons in Hkey as [->|Hkey]; [done|].
      by apply elem_of_nil in Hkey.
Qed.

Lemma table_map_follows_prefix_witness :
  ∃ db0 db', __init__ = inr db0 ∧ set_table_prefix "guard_" db0 = inr db'
    ∧ get_table_prefix db' = "guard_"
    ∧ tbl_name <$> _table_map db' !! "host" = Some "guard_host".
Proof.
  destruct (table_map_follows_prefix "exscriptd_" (MkSchema "" ∅ ∅) ltac:(set_solver))
    as [_ (db0 & Hinit & Hpfx & Hdom & Hnames)].
  exists db0.
  assert (Hmd : ∀ key, key ∈ table_keys → "guard_" +:+ key ∉ metadata db0).
  { unfold __init__ in Hinit. rewrite update_table_names_fresh in Hinit by set_solver.
    injection Hinit as <-. cbn [_table_prefix metadata]. intros key Hkey.
    apply elem_of_cons in Hkey as [->|Hkey]; [set_solver|].
    apply elem_of_cons in Hkey as [->|Hkey]; [set_solver|].
    apply elem_of_cons in Hkey as [->|Hkey]; [set_solver|].
    by apply elem_of_nil in Hkey. }
  destruct (table_map_follows_prefix "guard_" db0 Hmd)
    as [(db' & t_o & t_h & t_v & Hset & Hp & _ & _ & Hh & Hhn & _) _].
  exists db'. split; [done|]. split; [done|]. split; [done|]. rewrite Hh. cbn. by rewrite Hhn.
Defined.

(** ** [Program.init] *)

Lemma init_key_lookup (d : gmap string Program.pyval) key v k :
  Program.init_key d (key, v) !! k
  = if decide (k = key)
    then (if Program.skipped key then d !! key else Some (Program.as_list v))
    else d !! k.
Proof.
  unfold Program.init_key, Program.skipped, Program.as_list.
  destruct (decide (k = key)) as [->|Hne].
  - destruct (_ || _); [done|]. destruct (Program.is_list v); by rewrite lookup_insert_eq.
  - destruct (_ || _); [done|]. destruct (Program.is_list v); by rewrite lookup_insert_ne.
Qed.

Lemma foldl_init_key_lookup (l : list (string * Program.pyval))
    (d : gmap string Program.pyval) k :
  NoDup l.*1 →
  foldl Program.init_key d l !! k
  = match (list_to_map l : gmap string Program.pyval) !! k with
    | Some v => if Program.skipped k then d !! k else Some (Program.as_list v)
    | None => d !! k
    end.
Proof.
  revert d. induction l as [|[key v] l IH]; intros d Hnd; [done|].
  cbn [fmap list_fmap fst] in Hnd. apply NoDup_cons in Hnd as [Hkey Hnd].
  cbn [foldl list_to_map foldr]. rewrite IH by done. rewrite init_key_lookup.
  destruct (decide (k = key)) as [->|Hne].
  - rewrite lookup_insert_eq.
    rewrite (not_elem_of_list_to_map_1 (M := gmap string) l key) by done.
    done.
  - by rewrite lookup_insert_ne.
Qed.

Lemma init_lookup (kwargs d : gmap string Program.pyval) k :
  Program.init kwargs d !! k
  = match kwargs !! k with
    | Some v => if Program.skipped k then d !! k else Some (Program.as_list v)
    | None => d !! k
    end.
Proof.
  unfold Program.init. rewrite foldl_init_key_lookup by apply NoDup_fst_map_to_list.
  by rewrite list_to_map_to_list.
Qed.

Lemma as_list_is_list v : Program.is_list (Program.as_list v) = true.
Proof. unfold Program.as_list. by destruct v. Qed.

Lemma as_list_again v : Program.as_list (Program.as_list v) = Program.as_list v.
Proof. unfold Program.as_list at 1. by rewrite as_list_is_list. Qed.

(** X17.  What [init] leaves in [init_variables], whatever the order in which
    the keyword arguments are visited: an argument whose name has a dot in it
    or starts with an underscore is passed over; any other is stored under
    its name, as it is when it is a list and as a list of one element when
    it is not; the entries of other names are kept.  So every value that
    [init] stores is a list, and running [init] again with the same
    arguments changes nothing. *)
Theorem init_stores_lists (kwargs d : gmap string Program.pyval) (k : string) :
  Program.init kwargs d !! k
  = match kwargs !! k with
    | Some v => if Program.skipped k then d !! k else Some (Program.as_list v)
    | None => d !! k
    end
  ∧ (∀ v, kwargs !! k = Some v → Program.skipped k = false →
       ∃ l, Program.init kwargs d !! k = Some (Program.List l))
  ∧ Program.init kwargs (Program.init kwargs d) = Program.init kwargs d.
Proof.
  split; [apply init_lookup|]. split.
  - intros v Hv Hk. rewrite init_lookup, Hv, Hk.
    pose proof (as_list_is_list v) as Hl.
    destruct (Program.as_list v) as [| |l]; [done|done|by exists l].
  - apply map_eq. intros k'. rewrite !init_lookup.
    destruct (kwargs !! k'); [|done]. by destruct (Program.skipped k').
Qed.
Lemma init_stores_lists_witness :
  ∃ l, Program.init sample_kwargs ∅ !! "hostname" = Some (Program.List l).
Proof.
  destruct (init_stores_lists sample_kwargs ∅ "hostname") as (_ & H & _).
  apply (H (Program.Str "r1")); reflexivity.
Defined.

(** ** Calls that are not recursive *)

Lemma store_pred_hosts_alone hosts variables heap :
  store_pred (hosts_alone hosts variables heap).
Proof. by intros w l log. Qed.

Lemma hosts_alone_begin hosts variables heap w :
  hosts_alone hosts variables heap w → hosts_alone hosts variables heap (begin_world w).
Proof.
  intros (Hh & Hv & Hheap & Hs). unfold begin_world.
  destruct (w_tx_depth w) eqn:Hd; [done|]. repeat split; try done; by apply Hs.
Qed.

Lemma hosts_alone_commit hosts variables heap w :
  hosts_alone hosts variables heap w → hosts_alone hosts variables heap (commit_world w).
Proof.
  intros (Hh & Hv & Hheap & Hs). unfold commit_world.
  destruct (w_tx_depth w) as [|[|d]] eqn:Hd; [done|done|].
  repeat split; try done; by apply Hs.
Qed.

Lemma hosts_alone_rollback hosts variables heap w :
  hosts_alone hosts variables heap w →
  hosts_alone hosts variables heap (rollback_world w).
Proof.
  intros (Hh & Hv & Hheap & Hs). unfold rollback_world.
  destruct (w_tx_depth w) eqn:Hd; [done|]. repeat split; try done; by apply Hs.
Qed.

Lemma keeps_alone_add_order hosts variables heap orders :
  keeps (hosts_alone hosts variables heap) (add_order orders false).
Proof.
  unfold add_order. destruct orders as [orders|]; [|apply keeps_raise].
  apply keeps_bind; [apply keeps_heap_update, hosts_alone_begin|]. intros ?.
  apply keeps_try; [|apply keeps_heap_update, hosts_alone_rollback].
  apply keeps_bind; [|intros ?; apply keeps_heap_update, hosts_alone_commit].
  apply keeps_for_each. intros order. unfold __add_order.
  apply keeps_synchronized; [apply store_pred_hosts_alone|].
  destruct order as [oref|]; [|apply keeps_raise].
  apply keeps_bind; [apply keeps_read_order|]. intros o.
  apply keeps_bind; [apply keeps_gets|]. intros now.
  apply keeps_bind; [apply keeps_execute; [apply store_pred_hosts_alone|by intros w]|].
  intros id. apply keeps_bind; [by apply keeps_heap_update|]. intros ?.
  apply keeps_ret.
Qed.

Lemma keeps_alone_save_order hosts variables heap orders :
  keeps (hosts_alone hosts variables heap) (save_order orders false).
Proof.
  unfold save_order. destruct orders as [orders|]; [|apply keeps_raise].
  apply keeps_bind; [apply keeps_heap_update, hosts_alone_begin|]. intros ?.
  apply keeps_try; [|apply keeps_heap_update, hosts_alone_rollback].
  apply keeps_bind; [|intros ?; apply keeps_heap_update, hosts_alone_commit].
  apply keeps_for_each. intros order. unfold __save_order.
  apply keeps_synchronized; [apply store_pred_hosts_alone|].
  destruct order as [oref|]; [|apply keeps_raise].
  apply keeps_bind; [apply keeps_read_order|]. intros o.
  apply keeps_bind.
  { destruct (truthy (Order.id o)); [apply keeps_get_order|apply keeps_ret]. }
  intros [theorder|]; [|apply keeps_alone_add_order].
  destruct (Order.get_id o) as [id|]; [|by intros w w' r _ [=]].
  apply keeps_bind; [apply keeps_execute; [apply store_pred_hosts_alone|by intros w]|].
  intros ?. apply keeps_ret.
Qed.

(** X14.  Calls that are not recursive leave the hosts alone.  With
    [recursive = False], [add_order] and [save_order] write to the order
    table only: the host and variable tables are what they were, and so are
    the caller's hosts, dirty flags included, whatever the batch and whether
    the call returns or raises. *)
Theorem not_recursive_leaves_hosts (orders : option (arg (option nat)))
    (w w' : World) (r : outcome unit) :
  w_tx_depth w = O →
  add_order orders false w = Some (w', r) ∨ save_order orders false w = Some (w', r) →
  t_host (w_data w') = t_host (w_data w)
  ∧ t_variable (w_data w') = t_variable (w_data w)
  ∧ w_hosts w' = w_hosts w.
Proof.
  intros Hd Hrun.
  assert (Hw : hosts_alone (t_host (w_data w)) (t_variable (w_data w)) (w_hosts w) w).
  { repeat split; by rewrite ?Hd. }
  assert (Hw' : hosts_alone (t_host (w_data w)) (t_variable (w_data w)) (w_hosts w) w').
  { destruct Hrun as [Hrun|Hrun].
    - exact (keeps_outcome _ _ w w' r (keeps_alone_add_order _ _ _ orders) Hw Hrun).
    - exact (keeps_outcome _ _ w w' r (keeps_alone_save_order _ _ _ orders) Hw Hrun). }
  by destruct Hw' as (? & ? & ? & _).
Qed.

Lemma not_recursive_leaves_hosts_witness :
  ∃ w', add_order (Some (Scalar (Some 0%nat))) false sample_heap_world
        = Some (w', Return tt)
    ∧ t_host (w_data w') = t_host sample_tables
    ∧ t_variable (w_data w') = t_variable sample_tables
    ∧ w_hosts w' = w_hosts sample_heap_world.
Proof.
  eexists. split; [vm_compute; reflexivity|].
  eapply (not_recursive_leaves_hosts (Some (Scalar (Some 0%nat))) sample_heap_world _
            (Return tt)); [reflexivity|].
  left. vm_compute. reflexivity.
Defined.

(** ** Reading back by id *)

(** X15.  [get_order] by id does not raise.  On tables with proper keys it
    returns [None] when no order has the id, and otherwise the order of that
    id with the hosts and variables that the tables hold for it. *)
Theorem get_order_by_id (id : Z) (w : World) :
  keys_ok (w_data w) →
  (id ∉ or_id <$> t_order (w_data w) →
   get_order (Criteria (Some (Scalar id)) None None) w = Some (w, Return None))
  ∧ (∀ row, row ∈ t_order (w_data w) → or_id row = id →
       get_order (Criteria (Some (Scalar id)) None None) w
       = Some (w, Return (Some (load_order (w_data w) row))))
  ∧ ∃ found, get_order (Criteria (Some (Scalar id)) None None) w
             = Some (w, Return found).
Proof.
  intros Hok. split; [by apply get_order_missing|]. split.
  - intros row Hrow <-. by apply get_order_found.
  - destruct (decide (id ∈ or_id <$> t_order (w_data w))) as [Hin|Hnin].
    + apply list_elem_of_fmap in Hin as (row & -> & Hrow). eexists.
      by apply get_order_found.
    + eexists. by apply get_order_missing.
Qed.

Lemma get_order_by_id_witness :
  get_order (Criteria (Some (Scalar 7)) None None) sample_world
  = Some (sample_world, Return None).
Proof.
  apply (get_order_by_id 7 sample_world); [compute_done|].
  intros Hin. by repeat (apply elem_of_cons in Hin as [[=]|Hin]); apply elem_of_nil in Hin.
Defined.

(** X10.  What [add_order] stores of an order.  The row gets an id larger than
    every id stored before, and the time of the call as its creation time,
    whatever the caller's object says; of the hosts of the object those that
    are dirty are stored, and they are what [get_order] by the new id reads
    back. *)
Theorem add_order_stores_dirty_hosts (oref : nat) (o : Order.t (option nat))
    (hs : list Host.t) (w : World) :
  db_ok (w_data w) → w_orders w !! oref = Some o → order_hosts w o = Some hs →
  NoDup (Order.hosts o) →
  ∃ w' id loaded,
    add_order (Some (Scalar (Some oref))) true w = Some (w', Return tt)
    ∧ Order.id <$> w_orders w' !! oref = Some (Some id)
    ∧ (∀ row, row ∈ t_order (w_data w) → or_id row < id)
    ∧ get_order (Criteria (Some (Scalar id)) None None) w'
      = Some (w', Return (Some loaded))
    ∧ Order.created loaded = Some (w_now w)
    ∧ host_view <$> Order.hosts loaded = host_view <$> dirty_hosts hs.
Proof.
  intros Hok Ho Hhs Hnd.
  destruct (run_add_order_scalar_any oref o hs w Ho Hhs Hnd)
    as (w' & Hrun & Hdata & _ & Horders & _ & _).
  destruct (store_order_spec o (dirty_hosts hs) (w_now w) (w_data w) Hok)
    as (Hok' & Hto & Hload).
  cbn zeta in Hok', Hto, Hload. rewrite <- Hdata in Hok', Hto, Hload.
  set (id := Engine.next_id (or_id <$> t_order (w_data w))) in *.
  set (row := OrderRow id _ _ _ _ _) in *.
  exists w', id, (load_order (w_data w') row). split; [done|]. split.
  { by rewrite Horders, lookup_alter, decide_True, Ho. }
  split.
  { intros row0 Hrow0. apply next_id_gt. by apply list_elem_of_fmap_2. }
  split.
  { apply (get_order_found w' row); [apply Hok'|].
    rewrite Hto. apply elem_of_app. right. by left. }
  rewrite Hload. cbn [Order.created Order.hosts]. split; [done|].
  apply host_view_reload.
Qed.

Lemma add_order_stores_dirty_hosts_witness :
  ∃ w' id loaded,
    add_order (Some (Scalar (Some 1%nat))) true sample_heap_world = Some (w', Return tt)
    ∧ Order.id <$> w_orders w' !! 1%nat = Some (Some id)
    ∧ (∀ row, row ∈ t_order sample_tables → or_id row < id)
    ∧ get_order (Criteria (Some (Scalar id)) None None) w'
      = Some (w', Return (Some loaded))
    ∧ Order.created loaded = Some 100
    ∧ host_view <$> Order.hosts loaded = host_view <$> dirty_hosts [sample_host_clean].
Proof.
  apply (add_order_stores_dirty_hosts 1 sample_order_clean [sample_host_clean]
           sample_heap_world).
  - compute_done.
  - reflexivity.
  - reflexivity.
  - compute_done.
Defined.

(** ** The hosts read back after [save_order] *)

Lemma upsert_variable_sets host_id k v db :
  var_is host_id k v (upsert_variable host_id k v db).
Proof.
  unfold upsert_variable, var_is. destruct (decide _) as [Hex|Hnex].
  - cbn [Engine.update_variable t_variable]. split.
    + apply Exists_exists in Hex as (x0 & Hx0 & Hkey).
      exists (VariableRow (vr_id x0) host_id k v). split; [|done].
      apply list_elem_of_fmap. exists x0. split; [|done]. by rewrite decide_True.
    + intros y (x & -> & Hx)%list_elem_of_fmap. destruct (decide _) as [Hk|Hk]; [done|].
      intros Hh Hn. by destruct Hk.
  - cbn [Engine.insert_variable fst t_variable]. split.
    + eexists. split; [apply elem_of_app; right; by left|done].
    + intros y [Hy|Hy%list_elem_of_singleton]%elem_of_app Hh Hn; [|by subst].
      destruct Hnex. apply Exists_exists. by exists y.
Qed.

Lemma upsert_variable_keeps host_id k v host_id' k' v' db :
  host_id' ≠ host_id ∨ k' ≠ k →
  var_is host_id' k' v' db → var_is host_id' k' v' (upsert_variable host_id k v db).
Proof.
  intros Hne [(x' & Hx' & Hh' & Hn') Hall]. unfold upsert_variable, var_is.
  destruct (decide _) as [Hex|Hnex].
  - cbn [Engine.update_variable t_variable]. split.
    + exists x'. split; [|done]. apply list_elem_of_fmap. exists x'. split; [|done].
      rewrite decide_False; [done|]. intros [? ?]. destruct Hne; congruence.
    + intros y (x & -> & Hx)%list_elem_of_fmap. destruct (decide _) as [Hk|Hk].
      * cbn. intros <- <-. by destruct Hne.
      * by apply Hall.
  - cbn [Engine.insert_variable fst t_variable]. split.
    + exists x'. split; [apply elem_of_app; by left|done].
    + intros y [Hy|Hy%list_elem_of_singleton]%elem_of_app; [by apply Hall|].
      subst y. cbn. intros <- <-. by destruct Hne.
Qed.

Lemma upsert_variables_keeps host_id kvs host_id' k' v' db :
  (∀ kv, kv ∈ kvs → host_id' ≠ host_id ∨ k' ≠ kv.1) →
  var_is host_id' k' v' db → var_is host_id' k' v' (upsert_variables host_id kvs db).
Proof.
  unfold upsert_variables. revert db.
  induction kvs as [|kv kvs IH]; intros db Hne Hvar; [done|]. cbn [foldl].
  apply IH; [intros kv' Hin; apply Hne; by right|].
  apply upsert_variable_keeps; [apply Hne; by left|done].
Qed.

Lemma upsert_variables_sets host_id (kvs : list (string * value)) k v db :
  NoDup kvs.*1 → (k, v) ∈ kvs → var_is host_id k v (upsert_variables host_id kvs db).
Proof.
  unfold upsert_variables. revert db.
  induction kvs as [|[k0 v0] kvs IH]; intros db Hnd Hin; [by apply elem_of_nil in Hin|].
  cbn [fmap list_fmap fst] in Hnd. apply NoDup_cons in Hnd as [Hk0 Hnd].
  cbn [foldl]. apply elem_of_cons in Hin as [[= -> ->]|Hin].
  - apply (upsert_variables_keeps host_id kvs); [|apply upsert_variable_sets].
    intros kv Hkv. right. intros ->. apply Hk0. by apply list_elem_of_fmap_2.
  - by apply IH.
Qed.

Lemma upsert_variable_host host_id k v db :
  t_host (upsert_variable host_id k v db) = t_host db.
Proof. unfold upsert_variable. by destruct (decide _). Qed.

Lemma upsert_variables_host host_id kvs db :
  t_host (upsert_variables host_id kvs db) = t_host db.
Proof.
  unfold upsert_variables. revert db. induction kvs as [|kv kvs IH]; intros db; [done|].
  cbn [foldl]. by rewrite IH, upsert_variable_host.
Qed.

Lemma upsert_variable_ok host_id k v db :
  db_ok db → host_id ∈ hr_id <$> t_host db → db_ok (upsert_variable host_id k v db).
Proof.
  intros Hok Hin. unfold upsert_variable. destruct (decide _).
  - by apply update_variable_ok.
  - by apply insert_variable_ok.
Qed.

Lemma upsert_variables_ok host_id kvs db :
  db_ok db → host_id ∈ hr_id <$> t_host db → db_ok (upsert_variables host_id kvs db).
Proof.
  unfold upsert_variables. revert db.
  induction kvs as [|kv kvs IH]; intros db Hok Hin; [done|]. cbn [foldl].
  apply IH; [by apply upsert_variable_ok|by rewrite upsert_variable_host].
Qed.

(** The row that [upsert_host_row] writes, and the rows that it leaves. *)
Lemma upsert_host_row_spec order_id h db :
  (∃ row, row ∈ t_host (upsert_host_row order_id h db).1
     ∧ hr_id row = (upsert_host_row order_id h db).2
     ∧ hr_order_id row = order_id ∧ hr_address row = Host.address h
     ∧ hr_name row = Host.name h)
  ∧ t_variable (upsert_host_row order_id h db).1 = t_variable db
  ∧ t_order (upsert_host_row order_id h db).1 = t_order db
  ∧ ∀ r, r ∈ t_host db → hr_order_id r ≠ order_id ∨ hr_address r ≠ Host.address h →
      r ∈ t_host (upsert_host_row order_id h db).1.
Proof.
  unfold upsert_host_row.
  destruct (list_find _ _) as [[i r0]|] eqn:Hfind.
  - apply list_find_Some in Hfind as (Hi & [Ho Ha] & _).
    cbn [fst snd Engine.update_host t_host t_variable t_order].
    split; [|split; [done|split; [done|]]].
    + exists (HostRow (hr_id r0) order_id (Host.address h) (Host.name h)).
      split; [|done]. apply list_elem_of_fmap. exists r0.
      split; [by rewrite decide_True|]. by eapply list_elem_of_lookup_2.
    + intros r Hr Hne. apply list_elem_of_fmap. exists r. split; [|done].
      rewrite decide_False; [done|]. intros [? ?]. destruct Hne; congruence.
  - cbn [fst snd Engine.insert_host t_host t_variable t_order].
    split; [|split; [done|split; [done|]]].
    + eexists. split; [apply elem_of_app; right; by left|done].
    + intros r Hr _. apply elem_of_app. by left.
Qed.

Lemma upsert_host_row_ok order_id h db :
  db_ok db → order_id ∈ or_id <$> t_order db →
  db_ok (upsert_host_row order_id h db).1.
Proof.
  intros Hok Hin. unfold upsert_host_row. destruct (list_find _ _) as [[i r0]|].
  - by apply update_host_ok.
  - by apply insert_host_ok.
Qed.

Lemma save_host_ok order_id h db :
  db_ok db → order_id ∈ or_id <$> t_order db → db_ok (save_host order_id h db).
Proof.
  intros Hok Hin. unfold save_host. destruct (Host.dirty h); [|done].
  destruct (upsert_host_row_spec order_id h db) as ((row & Hrow & Hid & _) & _).
  pose proof (upsert_host_row_ok order_id h db Hok Hin) as Hok1.
  destruct (upsert_host_row order_id h db) as [db1 host_id]. cbn [fst snd] in *.
  apply upsert_variables_ok; [done|]. rewrite <- Hid. by apply list_elem_of_fmap_2.
Qed.

Lemma save_host_sets order_id h db :
  Host.dirty h = true → host_is order_id h (save_host order_id h db).
Proof.
  intros Hd. unfold save_host. rewrite Hd.
  destruct (upsert_host_row_spec order_id h db)
    as ((row & Hrow & Hid & Ho & Ha & Hn) & _).
  destruct (upsert_host_row order_id h db) as [db1 host_id]. cbn [fst snd] in *.
  exists row. rewrite upsert_variables_host. split; [done|]. split; [done|].
  split; [done|]. split; [done|]. intros k v Hkv. rewrite Hid.
  apply upsert_variables_sets; [apply NoDup_fst_map_to_list|].
  by apply elem_of_map_to_list.
Qed.

Lemma NoDup_fmap_elem_inj {A} (key : A → Z) (l : list A) x y :
  NoDup (key <$> l) → x ∈ l → y ∈ l → key x = key y → x = y.
Proof.
  intros Hnd Hx Hy Hkey. induction l as [|a l IH]; [by apply elem_of_nil in Hx|].
  cbn [fmap list_fmap] in Hnd. apply NoDup_cons in Hnd as [Ha Hnd].
  apply elem_of_cons in Hx as [->|Hx]; apply elem_of_cons in Hy as [->|Hy].
  - done.
  - destruct Ha. rewrite Hkey. by apply list_elem_of_fmap_2.
  - destruct Ha. rewrite <- Hkey. by apply list_elem_of_fmap_2.
  - by apply IH.
Qed.

Lemma save_host_keeps order_id h h2 db :
  db_ok db → order_id ∈ or_id <$> t_order db →
  apart h h2 → host_is order_id h db → host_is order_id h (save_host order_id h2 db).
Proof.
  intros Hok Hin Hap (row & Hrow & Ho & Ha & Hn & Hvars). unfold save_host.
  destruct (Host.dirty h2) eqn:Hd2; [|by exists row].
  destruct Hap as [Hclean|Haddr]; [congruence|].
  destruct (upsert_host_row_spec order_id h2 db)
    as ((row2 & Hrow2 & Hid2 & Ho2 & Ha2 & Hn2) & Hv1 & _ & Hkeep).
  pose proof (upsert_host_row_ok order_id h2 db Hok Hin) as Hok1.
  destruct (upsert_host_row order_id h2 db) as [db1 host_id]. cbn [fst snd] in *.
  assert (Hrow1 : row ∈ t_host db1).
  { apply Hkeep; [done|]. right. congruence. }
  exists row. rewrite upsert_variables_host. split; [done|]. split; [done|].
  split; [done|]. split; [done|]. intros k v Hkv.
  apply upsert_variables_keeps.
  - intros kv _. left. intros Heq. apply Haddr. rewrite <- Ha, <- Ha2.
    f_equal. apply (NoDup_fmap_elem_inj hr_id (t_host db1)); [apply Hok1|done|done|].
    congruence.
  - destruct (Hvars k v Hkv) as [Hex Hall]. split; by rewrite Hv1.
Qed.

Lemma save_hosts_ok order_id hs db :
  db_ok db → order_id ∈ or_id <$> t_order db → db_ok (save_hosts order_id hs db).
Proof.
  unfold save_hosts. revert db. induction hs as [|h hs IH]; intros db Hok Hin; [done|].
  cbn [foldl]. apply IH; [by apply save_host_ok|by rewrite save_host_order].
Qed.

Lemma save_hosts_keeps order_id h hs db :
  db_ok db → order_id ∈ or_id <$> t_order db →
  Forall (apart h) hs → host_is order_id h db →
  host_is order_id h (save_hosts order_id hs db).
Proof.
  unfold save_hosts. revert db.
  induction hs as [|h2 hs IH]; intros db Hok Hin Hap Hh; [done|].
  apply Forall_cons in Hap as [Hap2 Hap]. cbn [foldl].
  apply IH; [by apply save_host_ok|by rewrite save_host_order|done|].
  by apply save_host_keeps.
Qed.

Lemma save_hosts_sets order_id hs1 h hs2 db :
  db_ok db → order_id ∈ or_id <$> t_order db →
  Host.dirty h = true → Forall (apart h) hs2 →
  host_is order_id h (save_hosts order_id (hs1 ++ h :: hs2) db).
Proof.
  intros Hok Hin Hd Hap. unfold save_hosts. rewrite foldl_app. cbn [foldl].
  fold (save_hosts order_id hs1 db).
  pose proof (save_hosts_ok order_id hs1 db Hok Hin) as Hok1.
  assert (Hin1 : order_id ∈ or_id <$> t_order (save_hosts order_id hs1 db)).
  { by rewrite save_hosts_order. }
  apply (save_hosts_keeps order_id h hs2).
  - by apply save_host_ok.
  - by rewrite save_host_order.
  - done.
  - by apply save_host_sets.
Qed.

Lemma foldl_set_name_address (host : Host.t) (vs : list variable_row) :
  Host.name (foldl (λ host v, Host.set host (vr_name v) (vr_value v)) host vs)
  = Host.name host
  ∧ Host.address (foldl (λ host v, Host.set host (vr_name v) (vr_value v)) host vs)
    = Host.address host.
Proof.
  revert host. induction vs as [|x vs IH]; intros host; [done|]. cbn [foldl].
  destruct (IH (Host.set host (vr_name x) (vr_value x))) as [-> ->]. done.
Qed.

Lemma foldl_set_lookup (host : Host.t) (vs : list variable_row) k v :
  (∃ x, x ∈ vs ∧ vr_name x = k) →
  (∀ x, x ∈ vs → vr_name x = k → vr_value x = v) →
  Host.vars (foldl (λ host v, Host.set host (vr_name v) (vr_value v)) host vs) !! k
  = Some v.
Proof.
  induction vs as [|x vs IH] using rev_ind; intros (x0 & Hx0 & Hk0) Hall.
  { by apply elem_of_nil in Hx0. }
  rewrite foldl_app. cbn [foldl Host.set Host.vars].
  destruct (decide (vr_name x = k)) as [Hk|Hk].
  - rewrite Hk, lookup_insert_eq. f_equal. apply Hall; [|done].
    apply elem_of_app. right. by left.
  - rewrite lookup_insert_ne by done. apply IH.
    + apply elem_of_app in Hx0 as [Hx0|Hx0%list_elem_of_singleton]; [by exists x0|].
      by subst.
    + intros y Hy. apply Hall. apply elem_of_app. by left.
Qed.

Lemma host_is_loaded order_id h db (o : order_row) :
  host_is order_id h db → or_id o = order_id →
  ∃ loaded, loaded ∈ Order.hosts (load_order db o)
    ∧ Host.name loaded = Host.name h ∧ Host.address loaded = Host.address h
    ∧ ∀ k v, Host.vars h !! k = Some v → Host.vars loaded !! k = Some v.
Proof.
  intros (row & Hrow & Ho & Ha & Hn & Hvars) Hid.
  exists (load_host db row). split.
  { unfold load_order. cbn [Order.hosts]. apply list_elem_of_fmap_2.
    unfold Engine.hosts_of. apply list_elem_of_filter. split; [congruence|done]. }
  unfold load_host.
  destruct (foldl_set_name_address (__get_host_from_row row)
              (Engine.variables_of db (hr_id row))) as [-> ->].
  split; [done|]. split; [done|]. intros k v Hkv.
  destruct (Hvars k v Hkv) as [(x & Hx & Hxh & Hxk) Hall].
  apply foldl_set_lookup.
  - exists x. split; [|done]. unfold Engine.variables_of.
    by apply list_elem_of_filter.
  - intros y [Hyh Hy]%list_elem_of_filter Hyk. by apply Hall.
Qed.

(** X18.  The hosts read back after [save_order].  For an order whose id
    is stored, every dirty host of the caller's object that no later dirty
    host of the object shares its address with is read back by [get_order]
    with its address, its name and each of its variables.  (The host read
    back may have more variables: those that were stored before and that the
    object does not have.) *)
Theorem save_order_hosts_round_trip (oref : nat) (o : Order.t (option nat))
    (row : order_row) (hs1 : list Host.t) (h : Host.t) (hs2 : list Host.t)
    (w : World) :
  db_ok (w_data w) → w_tx_depth w = O → w_orders w !! oref = Some o →
  Order.id o = Some (or_id row) → row ∈ t_order (w_data w) →
  order_hosts w o = Some (hs1 ++ h :: hs2) → NoDup (Order.hosts o) →
  Host.dirty h = true → Forall (apart h) hs2 →
  ∃ w' order loaded,
    save_order (Some (Scalar (Some oref))) true w = Some (w', Return tt)
    ∧ get_order (Criteria (Some (Scalar (or_id row))) None None) w'
      = Some (w', Return (Some order))
    ∧ loaded ∈ Order.hosts order
    ∧ Host.name loaded = Host.name h
    ∧ Host.address loaded = Host.address h
    ∧ ∀ k v, Host.vars h !! k = Some v → Host.vars loaded !! k = Some v.
Proof.
  intros Hok Hd Ho Hid Hrow Hhs Hnd Hdirty Hap.
  destruct (save_order_found_state true oref o (or_id row) row (hs1 ++ h :: hs2) w)
    as (w' & Hrun & Hok' & _ & Hrows & Hdata & _); try done.
  set (db1 := Engine.update_order (or_id row) (Order.service o) (Order.status o)
                (Order.closed o) (Order.created_by o) (w_data w)) in *.
  set (row' := OrderRow (or_id row) (Order.service o) (Order.status o) (or_created row)
                        (Order.closed o) (Order.created_by o)).
  assert (Hrow' : row' ∈ t_order (w_data w')).
  { rewrite Hrows. unfold db1. rewrite update_order_rows. apply list_elem_of_fmap.
    exists row. split; [|done]. by rewrite decide_True. }
  assert (Hin1 : or_id row ∈ or_id <$> t_order db1).
  { rewrite <- Hrows. by apply (list_elem_of_fmap_2 or_id _ row'). }
  assert (Hhost : host_is (or_id row) h (w_data w')).
  { rewrite Hdata. apply save_hosts_sets; [by apply update_order_ok|done|done|done]. }
  destruct (host_is_loaded (or_id row) h (w_data w') row' Hhost eq_refl)
    as (loaded & Hloaded & Hname & Haddr & Hvars).
  exists w', (load_order (w_data w') row'), loaded. split; [done|].
  split; [|done]. apply (get_order_found w' row'); [apply Hok'|done].
Qed.

Lemma save_order_hosts_round_trip_witness :
  ∃ w' order loaded,
    save_order (Some (Scalar (Some 3%nat))) true sample_update_world
    = Some (w', Return tt)
    ∧ get_order (Criteria (Some (Scalar 1)) None None) w' = Some (w', Return (Some order))
    ∧ loaded ∈ Order.hosts order
    ∧ Host.name loaded = "r1-renamed"
    ∧ Host.address loaded = "10.0.0.1"
    ∧ ∀ k v, Host.vars sample_host_r1 !! k = Some v → Host.vars loaded !! k = Some v.
Proof.
  apply (save_order_hosts_round_trip 3 sample_order_update
           (OrderRow 1 "backup" "open" 10 None "alice")
           [] sample_host_r1 [sample_host_a] sample_update_world).
  - compute_done.
  - reflexivity.
  - reflexivity.
  - reflexivity.
  - by left.
  - reflexivity.
  - compute_done.
  - reflexivity.
  - apply Forall_singleton. by right.
Defined.
